(** * Smart YouTube Analyzer: a shallow embedding of the backend services

    The first part embeds the four Python sources of the repository:

    - [backend/main.py]: the validator [VideoRequest.extract_video_id] and
      the endpoints of [/api/transcript], [/api/summary] and [/api/translate]
      (module [Main]);
    - [backend/services/ai_service.py] (module [AIService]);
    - [backend/services/translation_service.py] (module
      [TranslationService]);
    - [backend/services/transcript_service.py] (module [TranscriptService]).

    The second part names the properties the theorems state and the sample
    worlds of the examples; the third part proves them, source by source.

    Conventions of the embedding.

    - A Python [str] is a [string]; a character is a code point below 256.
    - A Python [float] holding a finite number is a rational [Q]: [int(x)]
      truncates towards zero, [//] and [%] on [int] are [Z.div] and
      [Z.modulo] (both round towards minus infinity, like Python's).
    - A Python exception is a value of [exn]: its class and [str(e)].  Only
      instances of [Exception] are modelled, so [except Exception] catches
      every modelled exception.  The texts of the exceptions Python itself
      raises are those of CPython 3.12; no theorem depends on them.
    - A call that may raise returns a [result]; code that also changes the
      world is a function from the world to a [result] and the new world.
    - The libraries the services call (googletrans, google-genai, the [json]
      module, youtube_transcript_api, yt_dlp, whisper) are not part of the
      repository: they are functions the definitions take as arguments, and
      the theorems quantify over them.
    - Logging is left out: it changes nothing the services compute, except
      for the two [logger] lines of [generate_analysis] that can raise,
      which are modelled. *)

From Stdlib Require Import ZArith QArith Ascii String List Lia Bool.
From Stdlib Require Import DecimalString DecimalZ DecimalPos.
From stdpp Require Import base option list strings gmap.

Set Warnings "-register-all".

Local Open Scope Z_scope.

(** ** Python values shared by the services *)

Inductive exn_class : Type :=
| ValueError
| JSONDecodeError      (* json.JSONDecodeError, a subclass of ValueError *)
| TypeError
| KeyError
| IndexError
| AttributeError
| RuntimeError
| FileNotFoundError
| OtherException (name : string).

Record exn : Type := Exn { exn_cls : exn_class; exn_str : string }.

Inductive result (A : Type) : Type :=
| Ok (a : A)
| Raise (e : exn).
Arguments Ok {A} a.
Arguments Raise {A} e.

(** ** Strings as Python uses them *)

Module Str.

Definition chr (n : nat) : ascii := ascii_of_nat n.
Definition ord (c : ascii) : nat := nat_of_ascii c.

Definition newline : ascii := chr 10.

(** [s.startswith(p)] returns the rest of [s] after [p] when it holds. *)
Fixpoint strip_prefix (p s : string) : option string :=
  match p with
  | EmptyString => Some s
  | String c p' =>
      match s with
      | EmptyString => None
      | String d s' => if Ascii.eqb c d then strip_prefix p' s' else None
      end
  end.

Definition startswith (s p : string) : bool :=
  match strip_prefix p s with Some _ => true | None => false end.

Fixpoint take (n : nat) (s : string) : string :=
  match n, s with
  | S n', String c s' => String c (take n' s')
  | _, _ => EmptyString
  end.

Fixpoint drop (n : nat) (s : string) : string :=
  match n, s with
  | S n', String _ s' => drop n' s'
  | _, _ => s
  end.

Fixpoint all (p : ascii -> bool) (s : string) : bool :=
  match s with
  | EmptyString => true
  | String c s' => p c && all p s'
  end.

(** [s.endswith(p)] *)
Fixpoint endswith (s p : string) : bool :=
  String.eqb s p
  || match s with
     | EmptyString => false
     | String _ s' => endswith s' p
     end.

(** [c.isspace()] on the code points below 256. *)
Definition isspace (c : ascii) : bool :=
  let n := ord c in
  (Nat.leb 9 n && Nat.leb n 13) || (Nat.leb 28 n && Nat.leb n 32)
  || Nat.eqb n 133 || Nat.eqb n 160.

Fixpoint lstrip (s : string) : string :=
  match s with
  | EmptyString => EmptyString
  | String c s' => if isspace c then lstrip s' else s
  end.

Fixpoint rstrip (s : string) : string :=
  match s with
  | EmptyString => EmptyString
  | String c s' =>
      match rstrip s' with
      | EmptyString => if isspace c then EmptyString else String c EmptyString
      | r => String c r
      end
  end.

(** [s.strip()] *)
Definition strip (s : string) : string := rstrip (lstrip s).

(** [c.lower()] on the code points below 256. *)
Definition lower_char (c : ascii) : ascii :=
  let n := ord c in
  if (Nat.leb 65 n && Nat.leb n 90)
     || (Nat.leb 192 n && Nat.leb n 222 && negb (Nat.eqb n 215))
  then chr (n + 32) else c.

Fixpoint lower (s : string) : string :=
  match s with
  | EmptyString => EmptyString
  | String c s' => String (lower_char c) (lower s')
  end.

(** [sep.join(parts)] *)
Fixpoint join (sep : string) (parts : list string) : string :=
  match parts with
  | [] => EmptyString
  | [p] => p
  | p :: ps => p +:+ sep +:+ join sep ps
  end.

(** A double quote, and a text between double quotes. *)
Definition dq : string := String (chr 34) EmptyString.
Definition quoted (s : string) : string := dq +:+ s +:+ dq.
Definition nl : string := String newline EmptyString.

(** [str(n)] for an [int]. *)
Definition of_int (n : Z) : string := DecimalString.NilZero.string_of_int (Z.to_int n).

(** [format(n, "02d")]: sign, then zeros up to a width of two, then digits. *)
Definition format_02d (n : Z) : string :=
  let sign := if n <? 0 then "-" else "" in
  let digits := of_int (Z.abs n) in
  sign +:+ String.concat "" (repeat "0" (2 - String.length sign - String.length digits))
       +:+ digits.

End Str.

(** ** Transcript segments

    A segment is a dictionary with the keys [text], [start] and [duration];
    a translated segment also has [original].  [original = None] stands for
    a dictionary without that key. *)

Record segment : Type := Segment {
  text : string;
  start : Q;
  duration : Q;
  original : option string
}.

(** ** The fragment of Python's [re] the validator uses

    Patterns are abstract syntax; [m] is a backtracking matcher in
    continuation-passing style, ordered as [re] orders its alternatives.
    The cursor is the number of characters before it and the text after it.
    Flags are the defaults: [^] matches at the start of the text only, and
    [$] at its end or just before a newline that ends it. *)

Module Re.

Inductive regex : Type :=
| Lit (s : string)             (* literal characters, escapes resolved *)
| Cls (p : ascii -> bool)      (* a character class [...] *)
| Seq (r1 r2 : regex)          (* r1 r2 *)
| Alt (r1 r2 : regex)          (* r1 | r2 *)
| Rep (n : nat) (r : regex)    (* r{n} *)
| Grp (r : regex)              (* ( r ), the capturing group 1 *)
| Bol                          (* ^ *)
| Eol.                         (* $ *)

Record re_match : Type := Match {
  m_start : nat;
  m_end : nat;
  group1 : option string   (* None: the group took no part in the match *)
}.

Section Matcher.

Context {R : Type}.

Definition cont : Type := nat -> string -> option string -> option R.

Fixpoint iter (n : nat) (step : nat -> string -> option string -> cont -> option R)
    (pos : nat) (s : string) (cap : option string) (k : cont) : option R :=
  match n with
  | O => k pos s cap
  | S n' => step pos s cap (fun pos' s' cap' => iter n' step pos' s' cap' k)
  end.

Fixpoint m (r : regex) (pos : nat) (s : string) (cap : option string) (k : cont)
    : option R :=
  match r with
  | Lit l =>
      match Str.strip_prefix l s with
      | Some s' => k (pos + String.length l)%nat s' cap
      | None => None
      end
  | Cls p =>
      match s with
      | String c s' => if p c then k (S pos) s' cap else None
      | EmptyString => None
      end
  | Seq r1 r2 => m r1 pos s cap (fun pos' s' cap' => m r2 pos' s' cap' k)
  | Alt r1 r2 =>
      match m r1 pos s cap k with
      | Some x => Some x
      | None => m r2 pos s cap k
      end
  | Rep n r1 => iter n (m r1) pos s cap k
  | Grp r1 =>
      m r1 pos s cap (fun pos' s' _ => k pos' s' (Some (Str.take (pos' - pos) s)))
  | Bol => if Nat.eqb pos 0 then k pos s cap else None
  | Eol =>
      match s with
      | EmptyString => k pos s cap
      | String c EmptyString => if Ascii.eqb c Str.newline then k pos s cap else None
      | String _ (String _ _) => None
      end
  end.

End Matcher.

Definition match_at (r : regex) (pos : nat) (s : string) : option re_match :=
  m r pos s None (fun pos' _ cap => Some (Match pos pos' cap)).

(** [re.search]: the match at the leftmost position that has one. *)
Fixpoint search_from (r : regex) (pos : nat) (s : string) : option re_match :=
  match match_at r pos s with
  | Some mt => Some mt
  | None =>
      match s with
      | EmptyString => None
      | String _ s' => search_from r (S pos) s'
      end
  end.

Definition search (r : regex) (s : string) : option re_match := search_from r 0 s.

End Re.


(** ** The values [json.loads] builds

    A number keeps its literal text (Python reads it as [int] or [float]);
    a dictionary lists its items in insertion order, keys distinct. *)

Inductive json : Type :=
| JNull
| JBool (b : bool)
| JNum (literal : string)
| JStr (s : string)
| JArr (items : list json)
| JObj (items : list (string * json)).

Module Py.

(** [needle in s] for two strings. *)
Fixpoint str_contains (s needle : string) : bool :=
  Str.startswith s needle
  || match s with
     | EmptyString => false
     | String _ s' => str_contains s' needle
     end.

Definition is_str (needle : string) (v : json) : bool :=
  match v with
  | JStr s => String.eqb s needle
  | _ => false
  end.

Definition not_iterable (ty : string) : exn :=
  Exn TypeError ("argument of type '" +:+ ty +:+ "' is not iterable").

(** [needle in v], with [needle] a string. *)
Definition contains (needle : string) (v : json) : result bool :=
  match v with
  | JObj items => Ok (existsb (fun kv => String.eqb (fst kv) needle) items)
  | JArr items => Ok (existsb (is_str needle) items)
  | JStr s => Ok (str_contains s needle)
  | JNull => Raise (not_iterable "NoneType")
  | JBool _ => Raise (not_iterable "bool")
  | JNum _ => Raise (not_iterable "int")     (* or float, by the literal *)
  end.

Fixpoint assoc (key : string) (items : list (string * json)) : option json :=
  match items with
  | [] => None
  | (k, v) :: rest => if String.eqb k key then Some v else assoc key rest
  end.

(** [v[key]], with [key] a string. *)
Definition getitem (v : json) (key : string) : result json :=
  match v with
  | JObj items =>
      match assoc key items with
      | Some x => Ok x
      | None => Raise (Exn KeyError ("'" +:+ key +:+ "'"))
      end
  | JArr _ => Raise (Exn TypeError "list indices must be integers or slices, not str")
  | JStr _ => Raise (Exn TypeError "string indices must be integers, not 'str'")
  | _ => Raise (Exn TypeError "object is not subscriptable")
  end.

(** [len(v)] *)
Definition len (v : json) : result nat :=
  match v with
  | JObj items => Ok (length items)
  | JArr items => Ok (length items)
  | JStr s => Ok (String.length s)
  | _ => Raise (Exn TypeError "object has no len()")
  end.

End Py.

(** ** backend/services/ai_service.py *)

Module AIService.

(** What the service calls outside the repository:
    [self.client.models.generate_content(model=..., contents=...)], of which
    only [response.text] is read ([None] when the response has no text),
    and [json.loads]. *)
Record env : Type := Env {
  generate_content : string -> string -> result (option string);
  json_loads : string -> result json
}.

Definition model_name : string := "gemini-3-flash-preview".

(** [int(seconds)] *)
Definition int_of_float (x : Q) : Z := Z.quot (Qnum x) (Z.pos (Qden x)).

(** [AIService._format_timestamp] *)
Definition _format_timestamp (seconds : Q) : string :=
  let seconds := int_of_float seconds in
  let hours := seconds / 3600 in
  let minutes := (seconds mod 3600) / 60 in
  let secs := seconds mod 60 in
  if 0 <? hours
  then Str.of_int hours +:+ ":" +:+ Str.format_02d minutes +:+ ":" +:+ Str.format_02d secs
  else Str.of_int minutes +:+ ":" +:+ Str.format_02d secs.

(** [AIService._combine_transcript_with_timestamps] *)
Definition _combine_transcript_with_timestamps (transcript : list segment) : string :=
  let lines :=
    map (fun seg => "[" +:+ _format_timestamp (start seg) +:+ "] " +:+ text seg)
        transcript in
  Str.join Str.nl lines.

Definition member (k v : string) : string := Str.quoted k +:+ ": " +:+ Str.quoted v.

Definition chapter_line (ts title tail : string) : string :=
  "        {" +:+ member "timestamp" ts +:+ ", " +:+ member "title" title +:+ "}" +:+ tail.

Definition note_line (ts note tail : string) : string :=
  "        {" +:+ member "time" ts +:+ ", " +:+ member "note" note +:+ "}" +:+ tail.

(** The f-string [prompt] of [generate_analysis]. *)
Definition analysis_prompt (full_text : string) : string :=
  Str.join Str.nl [
    "You are an expert video content analyzer. Analyze this transcript and create:";
    "";
    "1. **CHAPTERS**: A timeline of main topics/sections with timestamps";
    "2. **KEY NOTES**: Important points, facts, or insights with their timestamps";
    "";
    "**Output Format** (STRICT JSON):";
    "{";
    "    " +:+ Str.quoted "chapters" +:+ ": [";
    chapter_line "0:00" "Introduction" ",";
    chapter_line "2:30" "Main Topic Begins" ",";
    chapter_line "5:45" "Key Concept Explained" "";
    "    ],";
    "    " +:+ Str.quoted "key_notes" +:+ ": [";
    note_line "0:15" "Speaker introduces the main theme" ",";
    note_line "3:20" "Important statistic: 85% growth" ",";
    note_line "6:10" "Key takeaway: Always test before deployment" "";
    "    ]";
    "}";
    "";
    "**Guidelines:**";
    "- Create 5-10 chapters (major sections only)";
    "- Create 8-15 key notes (most valuable insights)";
    "- Use exact timestamp format: " +:+ Str.quoted "M:SS" +:+ " or " +:+ Str.quoted "H:MM:SS";
    "- Keep titles/notes concise but descriptive";
    "- Return ONLY valid JSON, no markdown or extra text";
    "";
    "**Transcript with Timestamps:**";
    full_text;
    "";
    "**JSON Output:**"
  ].

(** The three [if]s under [# Clean markdown code blocks if present]. *)
Definition clean_code_blocks (response_text : string) : string :=
  let response_text :=
    if Str.startswith response_text "```json" then Str.drop 7 response_text
    else response_text in
  let response_text :=
    if Str.startswith response_text "```" then Str.drop 3 response_text
    else response_text in
  if Str.endswith response_text "```"
  then Str.take (String.length response_text - 3) response_text
  else response_text.

Definition invalid_structure : exn := Exn ValueError "Invalid analysis structure".

(** [# Validate structure], then the [logger.info] line, whose f-string
    evaluates [len(analysis['chapters'])] and [len(analysis['key_notes'])]. *)
Definition validate_structure (analysis : json) : result json :=
  match Py.contains "chapters" analysis with
  | Raise ex => Raise ex
  | Ok false => Raise invalid_structure
  | Ok true =>
      match Py.contains "key_notes" analysis with
      | Raise ex => Raise ex
      | Ok false => Raise invalid_structure
      | Ok true =>
          match Py.getitem analysis "chapters" with
          | Raise ex => Raise ex
          | Ok chapters =>
              match Py.len chapters with
              | Raise ex => Raise ex
              | Ok _ =>
                  match Py.getitem analysis "key_notes" with
                  | Raise ex => Raise ex
                  | Ok key_notes =>
                      match Py.len key_notes with
                      | Raise ex => Raise ex
                      | Ok _ => Ok analysis
                      end
                  end
              end
          end
      end
  end.

(** The body of the [try] of [generate_analysis]: whether [response_text]
    was assigned before the block ended, and how the block ended. *)
Definition analysis_try (e : env) (prompt : string) : bool * result json :=
  match generate_content e model_name prompt with
  | Raise ex => (false, Raise ex)
  | Ok None =>
      (false, Raise (Exn AttributeError "'NoneType' object has no attribute 'strip'"))
  | Ok (Some response_text) =>
      let response_text := clean_code_blocks (Str.strip response_text) in
      match json_loads e (Str.strip response_text) with
      | Raise ex => (true, Raise ex)
      | Ok analysis => (true, validate_structure analysis)
      end
  end.

(** The fallback structure of the [except json.JSONDecodeError] handler. *)
Definition fallback : json :=
  JObj [ ("chapters", JArr [ JObj [ ("timestamp", JStr "0:00"); ("title", JStr "Full Video") ] ]);
         ("key_notes", JArr [ JObj [ ("time", JStr "0:00"); ("note", JStr "Analysis unavailable") ] ]) ].

Definition unbound_response_text : exn :=
  Exn (OtherException "UnboundLocalError")
      "cannot access local variable 'response_text' where it is not associated with a value".

(** [AIService.generate_analysis]: the [try] block, then its handlers.
    [except json.JSONDecodeError] logs [response_text[:500]] and returns the
    fallback; [except Exception] logs and raises the exception again. *)
Definition generate_analysis (e : env) (transcript : list segment) : result json :=
  let full_text := _combine_transcript_with_timestamps transcript in
  let prompt := analysis_prompt full_text in
  match analysis_try e prompt with
  | (_, Ok analysis) => Ok analysis
  | (assigned, Raise ex) =>
      match exn_cls ex with
      | JSONDecodeError => if assigned then Ok fallback else Raise unbound_response_text
      | _ => Raise ex
      end
  end.

(** [AIService._combine_transcript] *)
Definition _combine_transcript (transcript : list segment) : string :=
  Str.join " " (map text transcript).

(** The f-string [prompt] of [generate_summary]. *)
Definition summary_prompt (full_text : string) : string :=
  Str.join Str.nl [
    "You are an expert at summarizing video content. ";
    "Analyze the following video transcript and provide a concise, well-structured summary ";
    "that captures the main ideas, key points, and overall message.";
    "";
    "**Instructions:**";
    "- Write in clear, professional language";
    "- Highlight the most important information";
    "- Keep it between 150-300 words";
    "- Use bullet points for key takeaways if appropriate";
    "";
    "**Transcript:**";
    full_text;
    "";
    "**Summary:**"
  ].

(** [AIService.generate_summary]; its [except Exception] handler logs and
    raises the exception again. *)
Definition generate_summary (e : env) (transcript : list segment) : result string :=
  let full_text := _combine_transcript transcript in
  let prompt := summary_prompt full_text in
  match generate_content e model_name prompt with
  | Raise ex => Raise ex
  | Ok None => Raise (Exn AttributeError "'NoneType' object has no attribute 'strip'")
  | Ok (Some response_text) => Ok (Str.strip response_text)
  end.

(** [genai.Client(api_key=...)] returns a client or raises; of the client
    the service uses [client.models.generate_content]. *)
Definition client : Type := string -> string -> result (option string).

Definition api_key_not_found : exn :=
  Exn ValueError "GEMINI_API_KEY not found in environment variables".

(** [get_ai_service()].  [_ai_service] is the module variable, [None] until
    a service has been built; [getenv_GEMINI_API_KEY] is
    [os.getenv("GEMINI_API_KEY")] at the time of the call, and [loads] the
    [json.loads] the service will use.  The value is how the call ends and
    the module variable after it. *)
Definition get_ai_service (getenv_GEMINI_API_KEY : option string)
    (genai_Client : string -> result client) (loads : string -> result json)
    (_ai_service : option env) : result env * option env :=
  match _ai_service with
  | Some service => (Ok service, _ai_service)
  | None =>
      match getenv_GEMINI_API_KEY with
      | None => (Raise api_key_not_found, None)
      | Some api_key =>
          if String.eqb api_key "" then (Raise api_key_not_found, None)
          else
            match genai_Client api_key with
            | Ok c => let service := Env c loads in (Ok service, Some service)
            | Raise ex => (Raise ex, None)
            end
      end
  end.

End AIService.

(** ** backend/services/translation_service.py *)

Module TranslationService.

(** The dictionary [LANGUAGES]. *)
Definition LANGUAGES : gmap string string := list_to_map [
    ("af", "afrikaans"); ("sq", "albanian"); ("am", "amharic"); ("ar", "arabic");
    ("hy", "armenian"); ("az", "azerbaijani"); ("eu", "basque"); ("be", "belarusian");
    ("bn", "bengali"); ("bs", "bosnian"); ("bg", "bulgarian"); ("ca", "catalan");
    ("ceb", "cebuano"); ("ny", "chichewa"); ("zh-cn", "chinese (simplified)");
    ("zh-tw", "chinese (traditional)"); ("co", "corsican"); ("hr", "croatian");
    ("cs", "czech"); ("da", "danish"); ("nl", "dutch"); ("en", "english");
    ("eo", "esperanto"); ("et", "estonian"); ("tl", "filipino"); ("fi", "finnish");
    ("fr", "french"); ("fy", "frisian"); ("gl", "galician"); ("ka", "georgian");
    ("de", "german"); ("el", "greek"); ("gu", "gujarati"); ("ht", "haitian creole");
    ("ha", "hausa"); ("haw", "hawaiian"); ("iw", "hebrew"); ("he", "hebrew");
    ("hi", "hindi"); ("hmn", "hmong"); ("hu", "hungarian"); ("is", "icelandic");
    ("ig", "igbo"); ("id", "indonesian"); ("ga", "irish"); ("it", "italian");
    ("ja", "japanese"); ("jw", "javanese"); ("kn", "kannada"); ("kk", "kazakh");
    ("km", "khmer"); ("ko", "korean"); ("ku", "kurdish (kurmanji)"); ("ky", "kyrgyz");
    ("lo", "lao"); ("la", "latin"); ("lv", "latvian"); ("lt", "lithuanian");
    ("lb", "luxembourgish"); ("mk", "macedonian"); ("mg", "malagasy"); ("ms", "malay");
    ("ml", "malayalam"); ("mt", "maltese"); ("mi", "maori"); ("mr", "marathi");
    ("mn", "mongolian"); ("my", "myanmar (burmese)"); ("ne", "nepali");
    ("no", "norwegian"); ("or", "odia"); ("ps", "pashto"); ("fa", "persian");
    ("pl", "polish"); ("pt", "portuguese"); ("pa", "punjabi"); ("ro", "romanian");
    ("ru", "russian"); ("sm", "samoan"); ("gd", "scots gaelic"); ("sr", "serbian");
    ("st", "sesotho"); ("sn", "shona"); ("sd", "sindhi"); ("si", "sinhala");
    ("sk", "slovak"); ("sl", "slovenian"); ("so", "somali"); ("es", "spanish");
    ("su", "sundanese"); ("sw", "swahili"); ("sv", "swedish"); ("tg", "tajik");
    ("ta", "tamil"); ("te", "telugu"); ("th", "thai"); ("tr", "turkish");
    ("uk", "ukrainian"); ("ur", "urdu"); ("ug", "uyghur"); ("uz", "uzbek");
    ("vi", "vietnamese"); ("cy", "welsh"); ("xh", "xhosa"); ("yi", "yiddish");
    ("yo", "yoruba"); ("zu", "zulu")
  ].

(** [TranslationService.validate_language] *)
Definition validate_language (lang_code : string) : bool :=
  bool_decide (is_Some (LANGUAGES !! Str.lower lang_code)).

(** What the service does outside its own process, in the order it does it:
    it builds a googletrans client, awaits a [translate] call on a list of
    texts or on one text (which returns or raises), sleeps, and leaves the
    [async with] block. *)
Inductive event : Type :=
| NewTranslator
| Translate (texts : list string) (dest : string) (returned : bool)
| TranslateText (text : string) (dest : string) (returned : bool)
| Sleep (millis : Z)
| CloseTranslator.

(** googletrans: how [await self.translator.translate(texts, dest=...)] ends,
    which may depend on everything that happened before the call.  On
    success the value is the list [[res.text for res in results]]; a result
    that cannot be read that way raises inside the same [try]. *)
Definition translator : Type :=
  list event -> list string -> string -> result (list string).

(** googletrans on a single text, [await self.translator.translate(text,
    src='auto', dest=...)]: [Some t] is an answer whose [text] is [t], and
    [None] an answer that is empty. *)
Definition text_translator : Type :=
  list event -> string -> string -> result (option string).

(** The loop [for attempt in range(max_retries)] of [translate_text], from
    [attempt] on, with [remaining] turns to go. *)
Fixpoint translate_text_loop (tr : text_translator) (text target_lang : string)
    (max_retries remaining attempt : nat) (log : list event) : string * list event :=
  match remaining with
  | O => (text, log)
  | S remaining' =>
      match tr log text target_lang with
      | Ok answer =>
          let log := log ++ [TranslateText text target_lang true] in
          match answer with
          | Some t => if String.eqb t "" then (text, log) else (t, log)
          | None => (text, log)
          end
      | Raise _ =>
          let log := log ++ [TranslateText text target_lang false] in
          if Nat.ltb attempt (max_retries - 1)
          then translate_text_loop tr text target_lang max_retries remaining' (S attempt)
                 (log ++ [Sleep 1000; NewTranslator])
          else (text, log)
      end
  end.

(** [TranslationService.translate_text] *)
Definition translate_text (tr : text_translator) (text target_lang : string)
    (max_retries : nat) (log : list event) : string * list event :=
  if String.eqb text "" || String.eqb (Str.strip text) "" then (text, log)
  else translate_text_loop tr text target_lang max_retries max_retries 0 log.

(** [self.batch_size], set once in [__init__]. *)
Definition batch_size : nat := 15.

(** [TranslationService.translate_batch] *)
Definition translate_batch (tr : translator) (texts : list string)
    (target_lang : string) (log : list event) : list string * list event :=
  match texts with
  | [] => ([], log)
  | _ =>
      match tr log texts target_lang with
      | Ok results => (results, log ++ [Translate texts target_lang true])
      | Raise _ => (texts, log ++ [Translate texts target_lang false])
      end
  end.

(** [range(0, stop, step)] for a positive [step]. *)
Definition range (stop step : nat) : list nat :=
  map (fun k => k * step)%nat (seq 0 (Nat.div (stop + step - 1) step)).

(** The loop [for j, segment in enumerate(batch)], which appends one
    dictionary per segment of the batch and reads [translated_texts[j]]. *)
Fixpoint append_batch (batch : list segment) (j : nat) (translated_texts : list string)
    (translated : list segment) : result (list segment) :=
  match batch with
  | [] => Ok translated
  | segment :: rest =>
      match translated_texts !! j with
      | None => Raise (Exn IndexError "list index out of range")
      | Some t =>
          append_batch rest (S j) translated_texts
            (translated ++ [ {| text := t;
                                start := start segment;
                                duration := duration segment;
                                original := Some (default (text segment) (original segment)) |} ])
      end
  end.

(** One turn of the loop [for i in range(0, len(transcript), self.batch_size)]. *)
Definition batch_step (tr : translator) (transcript : list segment) (target_lang : string)
    (i : nat) (translated : list segment) (log : list event)
    : result (list segment) * list event :=
  let batch := take batch_size (drop i transcript) in
  let batch_texts := map text batch in
  let '(translated_texts, log) := translate_batch tr batch_texts target_lang log in
  match append_batch batch 0 translated_texts translated with
  | Raise ex => (Raise ex, log)
  | Ok translated =>
      if Nat.ltb (i + batch_size) (length transcript)
      then (Ok translated, log ++ [Sleep 500])
      else (Ok translated, log)
  end.

Fixpoint batch_loop (tr : translator) (transcript : list segment) (target_lang : string)
    (starts : list nat) (translated : list segment) (log : list event)
    : result (list segment) * list event :=
  match starts with
  | [] => (Ok translated, log)
  | i :: rest =>
      match batch_step tr transcript target_lang i translated log with
      | (Raise ex, log) => (Raise ex, log)
      | (Ok translated, log) => batch_loop tr transcript target_lang rest translated log
      end
  end.

(** [TranslationService.translate_transcript]; the [async with] block closes
    the client however its body ends. *)
Definition translate_transcript (tr : translator) (transcript : list segment)
    (target_lang : string) (log : list event) : result (list segment) * list event :=
  let log := log ++ [NewTranslator] in
  let '(r, log) :=
    batch_loop tr transcript target_lang (range (length transcript) batch_size) [] log in
  (r, log ++ [CloseTranslator]).

(** [TranslationService.get_supported_languages]: a copy of the table. *)
Definition get_supported_languages : gmap string string := LANGUAGES.

(** What [detect_language] reads of the answer of googletrans, and the
    dictionary it returns; [C] is the type of the confidence. *)
Record detected (C : Type) : Type := Detected {
  detected_lang : string;
  detected_confidence : C
}.
Arguments Detected {C} detected_lang detected_confidence.
Arguments detected_lang {C} d.
Arguments detected_confidence {C} d.

Record detection (C : Type) : Type := Detection {
  lang : string;
  confidence : C;
  language_name : string
}.
Arguments Detection {C} lang confidence language_name.
Arguments lang {C} d.
Arguments confidence {C} d.
Arguments language_name {C} d.

(** [TranslationService.detect_language]; [detect] is how
    [await self.translator.detect(text)] ends.  [None] is Python's [None]. *)
Definition detect_language {C : Type} (detect : string -> result (detected C))
    (text : string) : option (detection C) :=
  if String.eqb text "" || String.eqb (Str.strip text) "" then None
  else
    match detect text with
    | Ok d =>
        Some (Detection (detected_lang d) (detected_confidence d)
                        (default "Unknown" (LANGUAGES !! detected_lang d)))
    | Raise _ => None
    end.

End TranslationService.

(** ** backend/services/transcript_service.py *)

Module TranscriptService.

(** The world outside the process: the paths that exist in the file system,
    and whatever else ([X]) the libraries depend on. *)
Record world (X : Type) : Type := World {
  files : gset string;
  ext : X
}.
Arguments World {X} files ext.
Arguments files {X} w.
Arguments ext {X} w.

(** A call into a library: it returns or raises, and may change the world. *)
Definition call (X A : Type) : Type := world X -> result A * world X.

(** A record of an official transcript: a dictionary that may lack keys. *)
Record raw_segment : Type := RawSegment {
  raw_text : option string;
  raw_start : option Q;
  raw_duration : option Q
}.

(** A segment of [result["segments"]] as whisper returns it. *)
Record whisper_segment : Type := WhisperSegment {
  w_text : string;
  w_start : Q;
  w_end : Q
}.

(** [get_transcript(video_id, languages=...)] in its three places; the
    value is [None] or a list of records. *)
Definition fetch (X : Type) : Type :=
  string -> option (list string) -> call X (option (list raw_segment)).

(** The class [YouTubeTranscriptApi]: its attribute [get_transcript] when it
    has one, and [YT()], which gives the [get_transcript] of the instance
    when the instance has one. *)
Record yt_class (X : Type) : Type := YtClass {
  cls_get_transcript : option (fetch X);
  cls_new : call X (option (fetch X))
}.
Arguments cls_get_transcript {X} y.
Arguments cls_new {X} y.

(** What the service calls outside the repository. *)
Record env (X Model : Type) : Type := Env {
  (* importlib.import_module('youtube_transcript_api') *)
  yta_get_transcript : option (fetch X);
  yta_YouTubeTranscriptApi : option (yt_class X);
  (* os *)
  getenv_TEMP_DIR : option string;
  makedirs : string -> call X unit;
  (* yt_dlp.YoutubeDL(ydl_opts).download([url]), by the output template and url *)
  ydl_download : string -> string -> call X unit;
  (* whisper *)
  load_model : string -> call X Model;
  transcribe : Model -> string -> call X (list whisper_segment);
  (* subtraction of two floats *)
  float_sub : Q -> Q -> Q
}.
Arguments yta_get_transcript {X Model} e.
Arguments yta_YouTubeTranscriptApi {X Model} e.
Arguments getenv_TEMP_DIR {X Model} e.
Arguments makedirs {X Model} e.
Arguments ydl_download {X Model} e.
Arguments load_model {X Model} e.
Arguments transcribe {X Model} e.
Arguments float_sub {X Model} e.

(** The methods the service enters, in order (a ghost record). *)
Inductive entered : Type :=
| EnterFetch (video_id : string)
| EnterWhisper (video_id : string)
| EnterDownload (video_id : string).

(** The service object and the world it runs in. *)
Record state (X Model : Type) : Type := State {
  w : world X;
  whisper_model_size : string;
  whisper_model : option Model;
  trace : list entered
}.
Arguments State {X Model} w whisper_model_size whisper_model trace.
Arguments w {X Model} s.
Arguments whisper_model_size {X Model} s.
Arguments whisper_model {X Model} s.
Arguments trace {X Model} s.

(** Code of the service: a state transformer that returns or raises. *)
Definition M (X Model A : Type) : Type := state X Model -> result A * state X Model.

Section Monad.

Context {X Model : Type}.

Definition ret {A} (a : A) : M X Model A := fun s => (Ok a, s).

Definition raise {A} (ex : exn) : M X Model A := fun s => (Raise ex, s).

Definition bind {A B} (c : M X Model A) (k : A -> M X Model B) : M X Model B :=
  fun s =>
    match c s with
    | (Ok a, s') => k a s'
    | (Raise ex, s') => (Raise ex, s')
    end.

(** [try: c  except Exception as e: handler(e)] *)
Definition try_except {A} (c : M X Model A) (handler : exn -> M X Model A) : M X Model A :=
  fun s =>
    match c s with
    | (Ok a, s') => (Ok a, s')
    | (Raise ex, s') => handler ex s'
    end.

(** [try: c  finally: cleanup] *)
Definition try_finally {A} (c : M X Model A) (cleanup : M X Model unit) : M X Model A :=
  fun s =>
    match c s with
    | (r, s') =>
        match cleanup s' with
        | (Ok _, s'') => (r, s'')
        | (Raise ex, s'') => (Raise ex, s'')
        end
    end.

(** A call into a library. *)
Definition lift {A} (c : call X A) : M X Model A :=
  fun s =>
    match c (w s) with
    | (r, w') => (r, State w' (whisper_model_size s) (whisper_model s) (trace s))
    end.

Definition enter (e : entered) : M X Model unit :=
  fun s => (Ok tt, State (w s) (whisper_model_size s) (whisper_model s) (trace s ++ [e])).

Definition get {A} (f : state X Model -> A) : M X Model A := fun s => (Ok (f s), s).

Definition set_whisper_model (m : Model) : M X Model unit :=
  fun s => (Ok tt, State (w s) (whisper_model_size s) (Some m) (trace s)).

(** [os.path.exists(path)] *)
Definition path_exists (path : string) : M X Model bool :=
  fun s => (Ok (bool_decide (path ∈ files (w s))), s).

(** [os.remove(path)] *)
Definition os_remove (path : string) : M X Model unit :=
  fun s =>
    if bool_decide (path ∈ files (w s))
    then (Ok tt, State (World (files (w s) ∖ {[ path ]}) (ext (w s)))
                       (whisper_model_size s) (whisper_model s) (trace s))
    else (Raise (Exn FileNotFoundError ("No such file or directory: " +:+ path)), s).

End Monad.

Notation "'let*' x ':=' c1 'in' c2" := (bind c1 (fun x => c2))
  (at level 10, x name, c1 at level 100, c2 at level 200, only parsing).

Section Service.

Context {X Model : Type}.
Variable e : env X Model.

(** A library call under [try: ... except Exception: transcript_list = None]. *)
Definition attempt (c : M X Model (option (list raw_segment)))
    : M X Model (option (list raw_segment)) :=
  try_except c (fun _ => ret None).

(** [# Normalize format] of [_fetch_youtube_transcript]. *)
Fixpoint normalize (transcript_list : list raw_segment) (normalized : list segment)
    : result (list segment) :=
  match transcript_list with
  | [] => Ok normalized
  | sg :: rest =>
      match raw_text sg, raw_start sg with
      | None, _ => Raise (Exn KeyError "'text'")
      | Some _, None => Raise (Exn KeyError "'start'")
      | Some t, Some st =>
          normalize rest
            (normalized ++ [ Segment t st (default 0%Q (raw_duration sg)) None ])
      end
  end.

(** [TranscriptService._fetch_youtube_transcript] *)
Definition _fetch_youtube_transcript (video_id : string) : M X Model (list segment) :=
  let* _ := enter (EnterFetch video_id) in
  (* 1) module-level helper *)
  let* transcript_list :=
    attempt (match yta_get_transcript e with
             | Some get_transcript => lift (get_transcript video_id (Some ["en"]))
             | None => ret None
             end) in
  (* 2) class method or callable on YouTubeTranscriptApi *)
  let* transcript_list :=
    match transcript_list with
    | Some _ => ret transcript_list
    | None =>
        attempt (match yta_YouTubeTranscriptApi e with
                 | None => raise (Exn TypeError "'NoneType' object is not callable")
                 | Some YT =>
                     match cls_get_transcript YT with
                     | Some get_transcript => lift (get_transcript video_id (Some ["en"]))
                     | None =>
                         let* instance := lift (cls_new YT) in
                         match instance with
                         | Some get_transcript => lift (get_transcript video_id (Some ["en"]))
                         | None => ret transcript_list
                         end
                     end
                 end)
    end in
  (* 3) without language constraints *)
  let* transcript_list :=
    match transcript_list with
    | Some _ => ret transcript_list
    | None =>
        attempt (match yta_get_transcript e with
                 | Some get_transcript => lift (get_transcript video_id None)
                 | None => ret transcript_list
                 end)
    end in
  match transcript_list with
  | None => raise (Exn RuntimeError "Unable to obtain transcript via youtube_transcript_api")
  | Some transcript_list =>
      match normalize transcript_list [] with
      | Ok normalized => ret normalized
      | Raise ex => raise ex
      end
  end.

(** [os.path.join(a, b)] on a POSIX system. *)
Definition path_join (a b : string) : string :=
  if Str.startswith b "/" then b
  else if String.eqb a "" || Str.endswith a "/" then a +:+ b
  else a +:+ "/" +:+ b.

(** [TranscriptService._download_audio] *)
Definition _download_audio (video_id : string) : M X Model string :=
  let* _ := enter (EnterDownload video_id) in
  let temp_dir := default "./temp_audio" (getenv_TEMP_DIR e) in
  let* _ := lift (makedirs e temp_dir) in
  let output_path := path_join temp_dir (video_id +:+ ".mp3") in
  let outtmpl := path_join temp_dir (video_id +:+ ".%(ext)s") in
  let url := "https://www.youtube.com/watch?v=" +:+ video_id in
  let* _ := lift (ydl_download e outtmpl url) in
  let* found := path_exists output_path in
  if found then ret output_path
  else raise (Exn FileNotFoundError ("Audio file not found after download: " +:+ output_path)).

(** [# Step 4: Format output] of [_transcribe_with_whisper]. *)
Definition format_output (segments : list whisper_segment) : list segment :=
  map (fun sg => Segment (Str.strip (w_text sg)) (w_start sg)
                         (float_sub e (w_end sg) (w_start sg)) None)
      segments.

(** [TranscriptService._transcribe_with_whisper] *)
Definition _transcribe_with_whisper (video_id : string) : M X Model (list segment) :=
  let* _ := enter (EnterWhisper video_id) in
  let* audio_path := _download_audio video_id in
  try_finally
    ( let* loaded := get whisper_model in
      let* model := match loaded with
              | Some model => ret model
              | None =>
                  let* size := get whisper_model_size in
                  let* model := lift (load_model e size) in
                  let* _ := set_whisper_model model in
                  ret model
              end in
      let* result := lift (transcribe e model audio_path) in
      ret (format_output result) )
    ( let* found := path_exists audio_path in
      if found then os_remove audio_path else ret tt ).

(** The dictionary [get_transcript] returns. *)
Record acquisition : Type := Acquisition {
  transcript : list segment;
  source : string;
  success : bool;
  error : option string          (* None: the dictionary has no such key *)
}.

(** [TranscriptService.get_transcript] *)
Definition get_transcript (video_id : string) : M X Model acquisition :=
  let* primary :=
    try_except
      ( let* transcript := _fetch_youtube_transcript video_id in
        ret (Some (Acquisition transcript "youtube_api" true None)) )
      (fun _ => ret None) in
  match primary with
  | Some answer => ret answer
  | None =>
      try_except
        ( let* transcript := _transcribe_with_whisper video_id in
          ret (Acquisition transcript "whisper" true None) )
        (fun ex => ret (Acquisition [] "error" false (Some (exn_str ex))))
  end.

End Service.

(** [get_transcript_service()].  [created] tells whether the module variable
    [_transcript_service] is set.  The first call builds the service, with
    the model size [os.getenv("WHISPER_MODEL", "base")] and no model
    loaded; the later calls return the service as it is. *)
Definition get_transcript_service {X Model : Type} (getenv_WHISPER_MODEL : option string)
    (created : bool) (s : state X Model) : bool * state X Model :=
  if created then (true, s)
  else (true, State (w s) (default "base" getenv_WHISPER_MODEL) None (trace s)).

End TranscriptService.

(** ** backend/main.py *)

Module Main.

Import Re.

(** The class [[a-zA-Z0-9_-]]. *)
Definition id_char (c : ascii) : bool :=
  let n := Str.ord c in
  (Nat.leb 97 n && Nat.leb n 122) || (Nat.leb 65 n && Nat.leb n 90)
  || (Nat.leb 48 n && Nat.leb n 57) || Nat.eqb n 95 || Nat.eqb n 45.

(** [(?:youtube\.com\/watch\?v=|youtu\.be\/)([a-zA-Z0-9_-]{11})] *)
Definition url_pattern : regex :=
  Seq (Alt (Lit "youtube.com/watch?v=") (Lit "youtu.be/"))
      (Grp (Rep 11 (Cls id_char))).

(** [^([a-zA-Z0-9_-]{11})$] *)
Definition id_pattern : regex :=
  Seq Bol (Seq (Grp (Rep 11 (Cls id_char))) Eol).

Definition patterns : list regex := [url_pattern; id_pattern].

(** The loop [for pattern in patterns] of [extract_video_id]. *)
Fixpoint first_match (ps : list regex) (v : string) : result (option string) :=
  match ps with
  | [] => Raise (Exn ValueError "Invalid YouTube URL or video ID")
  | pattern :: ps' =>
      match search pattern v with
      | Some mt => Ok (group1 mt)
      | None => first_match ps' v
      end
  end.

(** [VideoRequest.extract_video_id(cls, v)]; the value is [match.group(1)],
    which Python types as an optional string. *)
Definition extract_video_id (v : string) : result (option string) :=
  first_match patterns v.

(** The request and response models of [/api/translate]. *)
Record TranslationRequest : Type := {
  transcript : list segment;
  target_lang : string
}.

Record TranslationResponse : Type := {
  translated_transcript : list segment;
  success : bool
}.

(** How an endpoint ends: with its response model, or with
    [HTTPException(status_code, detail)]. *)
Inductive http (A : Type) : Type :=
| Respond (a : A)
| HTTPException (status_code : Z) (detail : string).
Arguments Respond {A} a.
Arguments HTTPException {A} status_code detail.

(** [get_translation_service()]: the first call builds the singleton, whose
    [__init__] builds a googletrans client.  [created] tells whether the
    module variable [_translation_service] is set. *)
Definition get_translation_service (created : bool) (log : list TranslationService.event)
    : bool * list TranslationService.event :=
  if created then (true, log) else (true, log ++ [TranslationService.NewTranslator]).

(** The endpoint [translate_transcript] of [/api/translate]. *)
Definition translate_transcript (tr : TranslationService.translator)
    (request : TranslationRequest) (created : bool) (log : list TranslationService.event)
    : http TranslationResponse * bool * list TranslationService.event :=
  match transcript request with
  | [] => (HTTPException 500 "Transcript cannot be empty", created, log)
  | _ =>
      let '(created, log) := get_translation_service created log in
      match TranslationService.translate_transcript tr (transcript request)
              (target_lang request) log with
      | (Ok translated, log) =>
          (Respond {| translated_transcript := translated; success := true |}, created, log)
      | (Raise ex, log) => (HTTPException 500 (exn_str ex), created, log)
      end
  end.

(** The endpoint [get_transcript] of [/api/transcript].  The request has
    passed the validator: [video_url] holds what [extract_video_id]
    returned. *)
Module TranscriptEndpoint.

Record TranscriptResponse : Type := {
  video_id : string;
  transcript : list segment;
  source : string;
  success : bool;
  error : option string
}.

Definition get_transcript {X Model : Type} (e : TranscriptService.env X Model)
    (getenv_WHISPER_MODEL : option string) (video_url : string)
    (created : bool) (s : TranscriptService.state X Model)
    : http TranscriptResponse * bool * TranscriptService.state X Model :=
  let video_id := video_url in
  let '(created, s) :=
    TranscriptService.get_transcript_service getenv_WHISPER_MODEL created s in
  match TranscriptService.get_transcript e video_id s with
  | (Ok result, s) =>
      (Respond {| video_id := video_id;
                  transcript := TranscriptService.transcript result;
                  source := TranscriptService.source result;
                  success := TranscriptService.success result;
                  error := TranscriptService.error result |},
       created, s)
  | (Raise ex, s) => (HTTPException 500 (exn_str ex), created, s)
  end.

End TranscriptEndpoint.

(** The endpoint [generate_summary] of [/api/summary].  The request model
    has the one field [transcript]; [_ai_service] is the module variable of
    [ai_service.py], and the other arguments are those of
    [AIService.get_ai_service]. *)
Module SummaryEndpoint.

Record SummaryResponse : Type := {
  summary : string;
  success : bool
}.

Definition generate_summary (getenv_GEMINI_API_KEY : option string)
    (genai_Client : string -> result AIService.client) (loads : string -> result json)
    (transcript : list segment) (_ai_service : option AIService.env)
    : http SummaryResponse * option AIService.env :=
  match transcript with
  | [] => (HTTPException 500 "Transcript cannot be empty", _ai_service)
  | _ =>
      match AIService.get_ai_service getenv_GEMINI_API_KEY genai_Client loads _ai_service with
      | (Raise ex, _ai_service) => (HTTPException 500 (exn_str ex), _ai_service)
      | (Ok ai_service, _ai_service) =>
          match AIService.generate_summary ai_service transcript with
          | Ok summary => (Respond {| summary := summary; success := true |}, _ai_service)
          | Raise ex => (HTTPException 500 (exn_str ex), _ai_service)
          end
      end
  end.

End SummaryEndpoint.

End Main.

(** * The vocabulary of the statements

    The definitions below are not part of the services: they name the
    properties the theorems state, and the sample worlds the examples run
    in. *)

Section Runs.

Import Str Re.

(** The text has [n] characters of the class [p] at its front. *)
Fixpoint has_run (n : nat) (p : ascii -> bool) (s : string) : bool :=
  match n with
  | O => true
  | S n' =>
      match s with
      | EmptyString => false
      | String c s' => p c && has_run n' p s'
      end
  end.

End Runs.

Section IdentifierVocabulary.

Import Str Re Main.

(** The literal texts of the first pattern. *)
Definition watch_prefix : string := "youtube.com/watch?v=".
Definition short_prefix : string := "youtu.be/".

(** The two texts after which the first pattern reads an identifier. *)
Definition locator (l : string) : Prop := l = watch_prefix \/ l = short_prefix.

(** Eleven characters of [[A-Za-z0-9_-]]. *)
Definition is_token (t : string) : Prop :=
  String.length t = 11%nat /\ all id_char t = true.

(** [s] starts with a locator followed by the token [tok]. *)
Definition occurs_at (s tok : string) : Prop :=
  exists l rest, locator l /\ is_token tok /\ s = l +:+ tok +:+ rest.

(** [v] has a locator followed by a token somewhere. *)
Definition occurs_in (v : string) : Prop :=
  exists pre suf tok, v = pre +:+ suf /\ occurs_at suf tok.

(** [v] is a token, possibly followed by one newline (what [^...$] allows). *)
Definition bare (v : string) : Prop :=
  is_token v \/ exists t, is_token t /\ v = t +:+ nl.

(** No character of [pre] is a [y], the first character of both locators. *)
Definition y_free (pre : string) : Prop :=
  all (fun c => negb (Ascii.eqb c "y")) pre = true.

(** No locator followed by a token starts inside [pre], in the text
    [pre +:+ suf]: an occurrence at the start of [suf] is the leftmost. *)
Definition leftmost (pre suf : string) : Prop :=
  forall p1 p2 tok, pre = p1 +:+ p2 -> p2 <> "" -> ~ occurs_at (p2 +:+ suf) tok.

(** The exception of the validator. *)
Definition invalid : exn := Exn ValueError "Invalid YouTube URL or video ID".

(** What the first pattern does at one position. *)
Definition url_at (pos : nat) (l s : string) : option re_match :=
  match strip_prefix l s with
  | Some s' =>
      if has_run 11 id_char s'
      then Some (Match pos (pos + String.length l + 11) (Some (take 11 s')))
      else None
  | None => None
  end.

End IdentifierVocabulary.

Section TimestampVocabulary.

Import Str AIService.

(** The decimal digit [d], and the two digits of a number below 100. *)
Definition digit (d : Z) : ascii := chr (48 + Z.to_nat d).

Definition two_digits (n : Z) : string :=
  String (digit (n / 10)) (String (digit (n mod 10)) "").

End TimestampVocabulary.

Section AnalysisVocabulary.

Import Str AIService.

(** The text [generate_analysis] hands to [json.loads] for a response. *)
Definition cleaned (response_text : string) : string :=
  strip (clean_code_blocks (strip response_text)).

(** [payload] between an opening fence with a language tag and a closing
    fence, each on a line of its own. *)
Definition fenced (tag payload : string) : string :=
  "```" +:+ tag +:+ nl +:+ payload +:+ nl +:+ "```".

(** The trimmed text neither starts nor ends with a fence.  Every JSON text
    is such a text: it starts and ends with a brace, a bracket, a quote, a
    digit or a letter. *)
Definition fence_free (payload : string) : Prop :=
  startswith (strip payload) "```" = false /\ endswith (strip payload) "```" = false.

(** The last character of a text. *)
Fixpoint last_char (s : string) : option ascii :=
  match s with
  | EmptyString => None
  | String c EmptyString => Some c
  | String _ s' => last_char s'
  end.

(** A client that answers every prompt with the same text. *)
Definition answering (text : string) : string -> string -> result (option string) :=
  fun _ _ => Ok (Some text).

(** The text of a well-formed analysis without chapters or notes. *)
Definition empty_analysis_text : string :=
  "{" +:+ quoted "chapters" +:+ ": [], " +:+ quoted "key_notes" +:+ ": []}".

Definition empty_analysis : json := JObj [("chapters", JArr []); ("key_notes", JArr [])].

(** [json.loads] cut down to the texts the examples use: the two JSON texts
    parse to what [json.loads] builds, and every other text is rejected, as
    [json.loads] rejects the other texts of the examples (none is JSON). *)
Definition sample_loads (s : string) : result json :=
  if String.eqb s empty_analysis_text then Ok empty_analysis
  else if String.eqb s "{}" then Ok (JObj [])
  else Raise (Exn JSONDecodeError "Expecting value: line 1 column 1 (char 0)").

End AnalysisVocabulary.

Section TranslationVocabulary.

Import TranslationService.

Local Open Scope nat_scope.

(** googletrans answers a list of texts with one translation per text (it
    may not return fewer). *)
Definition well_sized (tr : translator) : Prop :=
  forall log texts dest results,
    tr log texts dest = Ok results -> length texts <= length results.

(** The dictionary [translate_transcript] appends for a segment. *)
Definition emit (sg : segment) (t : string) : segment :=
  {| text := t;
     start := start sg;
     duration := duration sg;
     original := Some (default (text sg) (original sg)) |}.

(** The batches [transcript[i:i + batch_size]] of the loop, in order. *)
Definition batches (transcript : list segment) : list (list segment) :=
  map (fun i => take batch_size (drop i transcript)) (range (length transcript) batch_size).

(** A bulk [translate] call; a bulk call or a half-second pause. *)
Definition is_translate (ev : event) : bool :=
  match ev with Translate _ _ _ => true | _ => false end.

Definition call_or_pause (ev : event) : bool :=
  match ev with Translate _ _ _ => true | Sleep 500%Z => true | _ => false end.

(** The [translate] calls of a log, in order. *)
Definition translate_calls (log : list event) : list event := filter is_translate log.

(** What one batch contributes: the appended chunk keeps the frame of the
    batch, and its texts when the call failed. *)
Definition chunk_of (batch chunk : list segment) (returned : bool) : Prop :=
  map start chunk = map start batch /\
  map duration chunk = map duration batch /\
  map original chunk = map (fun sg => Some (default (text sg) (original sg))) batch /\
  (returned = false -> map text chunk = map text batch).

(** One row per batch: the batch, the chunk appended for it, and whether
    its call returned. *)
Definition row : Type := list segment * list segment * bool.
Definition row_batch (r : row) : list segment := fst (fst r).
Definition row_chunk (r : row) : list segment := snd (fst r).
Definition row_returned (r : row) : bool := snd r.

Definition row_ok (tr : translator) (lang : string) (r : row) : Prop :=
  chunk_of (row_batch r) (row_chunk r) (row_returned r) /\
  (row_returned r = true ->
   exists log results, tr log (map text (row_batch r)) lang = Ok results).

Definition row_call (lang : string) (r : row) : event :=
  Translate (map text (row_batch r)) lang (row_returned r).

(** The output keeps the frame of the transcript: same length, and position
    by position the same [start] and [duration], with [original] set to the
    input's [original] when it has one and to the input's text otherwise. *)
Definition same_frame (out transcript : list segment) : Prop :=
  length out = length transcript /\
  map start out = map start transcript /\
  map duration out = map duration transcript /\
  map original out = map (fun sg => Some (default (text sg) (original sg))) transcript.

(** A translator that puts every text between angle brackets, one that
    always fails, and one that fails on its first call only. *)
Definition sample_translator : translator :=
  fun _ texts _ => Ok (map (fun t => "<" +:+ t +:+ ">") texts).

Definition failing_translator : translator :=
  fun _ _ _ => Raise (Exn (OtherException "ConnectError") "All connection attempts failed").

Definition failing_once_translator : translator :=
  fun log texts dest =>
    if forallb (fun ev => negb (is_translate ev)) log
    then failing_translator log texts dest
    else sample_translator log texts dest.

(** A translator that returns, but with no translation at all. *)
Definition silent_translator : translator := fun _ _ _ => Ok [].

(** Two segments: a fresh one, and one that went through a pass before. *)
Definition hello : segment := Segment "hello" 0 (3 # 2) None.
Definition again : segment := Segment "hola" (3 # 2) 2 (Some "hello again").

(** The exception of [translated_texts[j]] past the end of the list. *)
Definition index_error : exn := Exn IndexError "list index out of range".

(** What the specification describes for a batch whose call fails three
    times: three attempts, a second of sleep and a fresh client before each
    retry. *)
Definition spec_retry_trace (texts : list string) (lang : string) : list event :=
  [ Translate texts lang false; Sleep 1000%Z; NewTranslator;
    Translate texts lang false; Sleep 1000%Z; NewTranslator;
    Translate texts lang false ].

(** Every call of a run is made with the target language of the run. *)
Definition sent_to (lang : string) (ev : event) : Prop :=
  match ev with
  | Translate _ dest _ => dest = lang
  | _ => True
  end.

(** A translator of single texts that always fails. *)
Definition failing_text_translator : text_translator :=
  fun _ _ _ => Raise (Exn (OtherException "ConnectError") "All connection attempts failed").

End TranslationVocabulary.

Section TranscriptVocabulary.

Import TranscriptService.

Local Open Scope nat_scope.

Context {X Model : Type}.

(** Code that enters no method of the service leaves the trace alone. *)
Definition silent {A : Type} (c : M X Model A) : Prop :=
  forall s, trace (snd (c s)) = trace s.

(** The [finally] block of [_transcribe_with_whisper]. *)
Definition cleanup (audio_path : string) : M X Model unit :=
  let* found := path_exists audio_path in
  if found then os_remove audio_path else ret tt.

(** The state in which [_transcribe_with_whisper] starts the download. *)
Definition entered_whisper (video_id : string) (s : state X Model) : state X Model :=
  snd (enter (EnterWhisper video_id) s).

(** How often a trace enters the offline path. *)
Definition is_whisper (ev : entered) : bool :=
  match ev with EnterWhisper _ => true | _ => false end.

Definition whisper_attempts (t : list entered) : nat := length (filter is_whisper t).

End TranscriptVocabulary.

Section TranscriptSamples.

Import TranscriptService.

(** A world for the examples: no official transcript can be fetched, the
    download writes the audio file, and the transcription hears one segment
    or, with [broken] set, raises. *)
Definition sample_env (broken : bool) : env unit unit :=
  {| yta_get_transcript := None;
     yta_YouTubeTranscriptApi := None;
     getenv_TEMP_DIR := None;
     makedirs := fun dir wd => (Ok tt, World (files wd ∪ {[ dir ]}) (ext wd));
     ydl_download := fun _ _ wd =>
       (Ok tt, World (files wd ∪ {[ "./temp_audio/abc12345678.mp3" ]}) (ext wd));
     load_model := fun _ wd => (Ok tt, wd);
     transcribe := fun _ _ wd =>
       if broken then (Raise (Exn RuntimeError "ffmpeg was not found"), wd)
       else (Ok [WhisperSegment " hello " 0 (3 # 2)], wd);
     float_sub := Qminus |}.

Definition fresh : state unit unit := State (World ∅ tt) "base" None [].

(** A world in which the module-level helper of the official API answers. *)
Definition official_env : env unit unit :=
  {| yta_get_transcript :=
       Some (fun _ _ wd => (Ok (Some [RawSegment (Some "hi") (Some 0%Q) None]), wd));
     yta_YouTubeTranscriptApi := None;
     getenv_TEMP_DIR := None;
     makedirs := fun _ wd => (Ok tt, wd);
     ydl_download := fun _ _ wd => (Ok tt, wd);
     load_model := fun _ wd => (Ok tt, wd);
     transcribe := fun _ _ wd => (Ok [], wd);
     float_sub := Qminus |}.

End TranscriptSamples.

Section ServiceVocabulary.

Import TranscriptService.

Local Open Scope nat_scope.

Context {X Model : Type}.

(** Code that leaves the service object alone: the size of the model and
    the model that is loaded. *)
Definition keeps_service {A : Type} (c : M X Model A) : Prop :=
  forall s, whisper_model_size (snd (c s)) = whisper_model_size s /\
            whisper_model (snd (c s)) = whisper_model s.

(** The [try] block of [_transcribe_with_whisper]. *)
Definition transcription (e : env X Model) (audio_path : string) : M X Model (list segment) :=
  let* loaded := get whisper_model in
  let* model := match loaded with
          | Some model => ret model
          | None =>
              let* size := get whisper_model_size in
              let* model := lift (load_model e size) in
              let* _ := set_whisper_model model in
              ret model
          end in
  let* result := lift (transcribe e model audio_path) in
  ret (format_output e result).

(** The service [e] with another [whisper.load_model]. *)
Definition with_load_model (e : env X Model) (load : string -> call X Model) : env X Model :=
  {| yta_get_transcript := yta_get_transcript e;
     yta_YouTubeTranscriptApi := yta_YouTubeTranscriptApi e;
     getenv_TEMP_DIR := getenv_TEMP_DIR e;
     makedirs := makedirs e;
     ydl_download := ydl_download e;
     load_model := load;
     transcribe := transcribe e;
     float_sub := float_sub e |}.

End ServiceVocabulary.

Section OfficialVocabulary.

Import TranscriptService.

Local Open Scope nat_scope.

Context {X Model : Type}.

(** A record of an official transcript that has a [text] and a [start]. *)
Definition complete (r : raw_segment) : Prop :=
  is_Some (raw_text r) /\ is_Some (raw_start r).

(** The segment the normalisation makes of a complete record. *)
Definition normal (r : raw_segment) : segment :=
  Segment (default "" (raw_text r)) (default 0%Q (raw_start r))
          (default 0%Q (raw_duration r)) None.

(** The exceptions of [_fetch_youtube_transcript]. *)
Definition fetch_failed : exn :=
  Exn RuntimeError "Unable to obtain transcript via youtube_transcript_api".

Definition fetch_error (ex : exn) : Prop :=
  ex = fetch_failed \/ ex = Exn KeyError "'text'" \/ ex = Exn KeyError "'start'".

(** The segment made of a record: the text and the start of the record,
    its duration or 0, and no [original]. *)
Definition normal_of (r : raw_segment) (sg : segment) : Prop :=
  raw_text r = Some (text sg) /\ raw_start r = Some (start sg) /\
  duration sg = default 0%Q (raw_duration r) /\ original sg = None.

(** The functions [get_transcript] of the library that the service may
    call: the module-level helper, the attribute of the class
    [YouTubeTranscriptApi], or the method of an instance [YT()]. *)
Definition entry_point (e : env X Model) (g : fetch X) : Prop :=
  yta_get_transcript e = Some g \/
  exists YT, yta_YouTubeTranscriptApi e = Some YT /\
    (cls_get_transcript YT = Some g \/
     exists w0 w1, cls_new YT w0 = (Ok (Some g), w1)).

(** [raw] is a list the library returned for [video_id], asked for English
    or for any language. *)
Definition answered (e : env X Model) (video_id : string) (raw : list raw_segment) : Prop :=
  exists g langs w0 w1,
    entry_point e g /\ (langs = Some ["en"] \/ langs = None) /\
    g video_id langs w0 = (Ok (Some raw), w1).

(** How [_fetch_youtube_transcript] may end. *)
Definition fetch_end (e : env X Model) (video_id : string) (r : result (list segment))
    : Prop :=
  match r with
  | Ok out => exists raw, answered e video_id raw /\ Forall2 normal_of raw out
  | Raise ex => fetch_error ex
  end.

(** Code that ends as [post] says, whatever the state it starts in. *)
Definition ends {A : Type} (post : result A -> Prop) (c : M X Model A) : Prop :=
  forall s, post (fst (c s)).

(** Code that returns no list but one the library returned for
    [video_id]. *)
Definition offers (e : env X Model) (video_id : string)
    (c : M X Model (option (list raw_segment))) : Prop :=
  forall s raw s', c s = (Ok (Some raw), s') -> answered e video_id raw.

(** The model the [try] block of [_transcribe_with_whisper] uses in the
    state [s], and the world in which it transcribes: the model that is
    loaded, or the one [whisper.load_model] returns for the size of the
    service. *)
Definition model_for (e : env X Model) (s : state X Model) (m : Model) (wa : world X)
    : Prop :=
  (whisper_model s = Some m /\ wa = w s) \/
  (whisper_model s = None /\ load_model e (whisper_model_size s) (w s) = (Ok m, wa)).

(** The segment made of a segment whisper heard: the text stripped, the
    start kept, the difference of end and start as duration, and no
    [original]. *)
Definition heard_of (e : env X Model) (sg : whisper_segment) (out : segment) : Prop :=
  text out = Str.strip (w_text sg) /\ start out = w_start sg /\
  duration out = float_sub e (w_end sg) (w_start sg) /\ original out = None.

End OfficialVocabulary.

Section DownloadVocabulary.

Import Str TranscriptService.

Local Open Scope nat_scope.

Context {X Model : Type}.

(** [os.getenv("TEMP_DIR", "./temp_audio")] *)
Definition temp_dir (e : env X Model) : string :=
  default "./temp_audio" (getenv_TEMP_DIR e).

End DownloadVocabulary.

Section ServiceSamples.

Import TranscriptService.

Local Open Scope nat_scope.

(** A service whose model is loaded, in an empty world. *)
Definition loaded : state unit unit := State (World ∅ tt) "base" (Some tt) [].

(** A [whisper.load_model] that fails. *)
Definition failing_load : string -> call unit unit :=
  fun _ wd => (Raise (Exn RuntimeError "model file not found"), wd).

(** The module-level helper of [official_env], and the list it returns. *)
Definition official_helper : fetch unit :=
  fun _ _ wd => (Ok (Some [RawSegment (Some "hi") (Some 0%Q) None]), wd).

End ServiceSamples.

Section TextVocabulary.

Import TranslationService.

Local Open Scope nat_scope.

(** A [translate] call on a single text; the pause before a retry. *)
Definition is_text_call (ev : event) : bool :=
  match ev with TranslateText _ _ _ => true | _ => false end.

Definition is_retry_pause (ev : event) : bool :=
  match ev with Sleep 1000%Z => true | _ => false end.

Definition is_new_client (ev : event) : bool :=
  match ev with NewTranslator => true | _ => false end.

(** [not text or not text.strip()] *)
Definition blank (text : string) : bool :=
  String.eqb text "" || String.eqb (Str.strip text) "".

(** The text [translate_text] may return: the input, or a translation
    that is not empty and that the translator gave for it. *)
Definition text_or_translation (tr : text_translator) (text lang out : string) : Prop :=
  out = text \/ (out <> "" /\ exists log, tr log text lang = Ok (Some out)).

(** A translator of single texts that fails once and then answers. *)
Definition failing_once_text_translator : text_translator :=
  fun log text _ =>
    match log with
    | [] => Raise (Exn (OtherException "ConnectError") "All connection attempts failed")
    | _ => Ok (Some ("<" +:+ text +:+ ">"))
    end.

End TextVocabulary.

Section PacingVocabulary.

Import TranslationService.

Local Open Scope nat_scope.

(** The calls of a run with half a second of sleep between two of them. *)
Fixpoint paced (calls : list event) : list event :=
  match calls with
  | [] => []
  | call :: rest =>
      match rest with
      | [] => [call]
      | _ :: _ => call :: Sleep 500%Z :: paced rest
      end
  end.

Definition is_pause (ev : event) : bool :=
  match ev with Sleep _ => true | _ => false end.

(** A bulk call to [lang]. *)
Definition call_to (lang : string) (ev : event) : Prop :=
  exists texts returned, ev = Translate texts lang returned.

(** The number of batches of a transcript of [n] segments. *)
Definition batch_count (n : nat) : nat := (n + batch_size - 1) / batch_size.

End PacingVocabulary.

Section LanguageVocabulary.

Import TranslationService.

Local Open Scope nat_scope.

(** A row of the table with its code in lower case and a name other than
    [Unknown]. *)
Definition tidy_row (row : string * string) : bool :=
  String.eqb (Str.lower (fst row)) (fst row) && negb (String.eqb (snd row) "Unknown").

End LanguageVocabulary.

Section SummaryVocabulary.

Import Str AIService.

Local Open Scope nat_scope.

(** The exception of [response.text.strip()] on a response without text. *)
Definition no_text : exn :=
  Exn AttributeError "'NoneType' object has no attribute 'strip'".

End SummaryVocabulary.

Section ShapeVocabulary.

Import Str AIService.

Local Open Scope nat_scope.

(** A value that has a length: a list, a dictionary or a string. *)
Definition sized (v : json) : Prop :=
  match v with
  | JArr _ | JObj _ | JStr _ => True
  | _ => False
  end.

(** A dictionary with sized values under [chapters] and [key_notes]. *)
Definition analysis_shaped (a : json) : Prop :=
  exists items chapters key_notes,
    a = JObj items /\
    Py.getitem a "chapters" = Ok chapters /\
    Py.getitem a "key_notes" = Ok key_notes /\
    sized chapters /\ sized key_notes.

End ShapeVocabulary.

Section KeyVocabulary.

Import Str AIService.

Local Open Scope nat_scope.

(** An API key that [get_ai_service] takes for missing. *)
Definition no_key (getenv : option string) : Prop := getenv = None \/ getenv = Some "".

(** A client factory that answers every prompt with the same text. *)
Definition sample_client (api_key : string) : result client :=
  Ok (answering "  A summary.  ").

End KeyVocabulary.

Section ClockVocabulary.

Import Str AIService.

(** A decimal digit. *)
Definition is_digit (c : ascii) : bool :=
  Nat.leb 48 (ord c) && Nat.leb (ord c) 57.

(** The hours, minutes and seconds of a number of whole seconds. *)
Definition clock (s : Z) : Z * Z * Z := (s / 3600, (s mod 3600) / 60, s mod 60).

End ClockVocabulary.

(** * Facts about strings *)

(** stdpp keeps [simpl] from unfolding [String.append]; the proofs below
    compute with it. *)
#[global] Arguments String.append !s1 s2 : simpl nomatch.

Section StrFacts.

Import Str.

Lemma str_app_nil_r (s : string) : s +:+ "" = s.
Proof. induction s as [|c s IH]; cbn; [reflexivity | now f_equal]. Qed.

Lemma str_app_assoc (a b c : string) : (a +:+ b) +:+ c = a +:+ b +:+ c.
Proof. induction a as [|x a IH]; cbn; [reflexivity | now f_equal]. Qed.

Lemma str_length_app (a b : string) :
  String.length (a +:+ b) = (String.length a + String.length b)%nat.
Proof. induction a as [|x a IH]; cbn; [reflexivity | now f_equal]. Qed.

Lemma strip_prefix_app (p s : string) : strip_prefix p (p +:+ s) = Some s.
Proof.
  induction p as [|c p IH]; simpl; [reflexivity|].
  now rewrite Ascii.eqb_refl.
Qed.

Lemma strip_prefix_Some (p s r : string) : strip_prefix p s = Some r -> s = p +:+ r.
Proof.
  revert s; induction p as [|c p IH]; intros s; simpl.
  - now intros [= ->].
  - destruct s as [|d s]; [discriminate|].
    destruct (Ascii.eqb_spec c d) as [->|]; [|discriminate].
    intros H; apply IH in H; now subst.
Qed.

Lemma str_take_app_length (t s : string) : take (String.length t) (t +:+ s) = t.
Proof. induction t as [|c t IH]; simpl; [now destruct s | now rewrite IH]. Qed.

Lemma str_drop_app_length (t s : string) : drop (String.length t) (t +:+ s) = s.
Proof. induction t as [|c t IH]; simpl; [reflexivity | exact IH]. Qed.

Lemma str_take_drop (n : nat) (s : string) : take n s +:+ drop n s = s.
Proof.
  revert s; induction n as [|n IH]; intros [|c s]; simpl; try reflexivity.
  now rewrite IH.
Qed.

Lemma str_length_take (n : nat) (s : string) :
  (n <= String.length s)%nat -> String.length (take n s) = n.
Proof.
  revert s; induction n as [|n IH]; intros [|c s]; simpl; intros H; try lia.
  rewrite IH by lia; reflexivity.
Qed.

Lemma str_all_app (p : ascii -> bool) (a b : string) : all p (a +:+ b) = all p a && all p b.
Proof.
  induction a as [|c a IH]; simpl; [reflexivity|].
  now rewrite IH, andb_assoc.
Qed.

Lemma str_all_take (p : ascii -> bool) (n : nat) (s : string) :
  all p s = true -> all p (take n s) = true.
Proof.
  revert s; induction n as [|n IH]; intros [|c s]; simpl; try reflexivity.
  intros [Hc Hs]%andb_prop. now rewrite Hc, IH.
Qed.

End StrFacts.

(** * Facts about the matcher *)

Section ReFacts.

Import Str Re.

Lemma has_run_spec (n : nat) (p : ascii -> bool) (s : string) :
  has_run n p s = true <->
  exists t rest, s = t +:+ rest /\ String.length t = n /\ all p t = true.
Proof.
  revert s; induction n as [|n IH]; intros s; simpl.
  - split; [intros _; exists "", s; auto|auto].
  - destruct s as [|c s].
    + split; [discriminate|]. intros (t & rest & E & L & _).
      destruct t; simpl in *; discriminate.
    + rewrite andb_true_iff, IH. split.
      * intros (Hc & t & rest & -> & L & A).
        exists (String c t), rest. simpl. rewrite Hc, A, L. auto.
      * intros (t & rest & E & L & A). destruct t as [|d t]; [discriminate|].
        simpl in *. injection E as -> ->. apply andb_prop in A as [Hc A].
        split; [exact Hc|]. exists t, rest. repeat split; auto.
Qed.

Lemma has_run_take (n : nat) (p : ascii -> bool) (s : string) :
  has_run n p s = true ->
  String.length (take n s) = n /\ all p (take n s) = true.
Proof.
  intros (t & rest & -> & <- & A)%has_run_spec.
  now rewrite str_take_app_length.
Qed.

Lemma iter_cls {R : Type} (n : nat) (p : ascii -> bool) (pos : nat) (s : string)
    (cap : option string) (k : @cont R) :
  iter n (m (Cls p)) pos s cap k =
  if has_run n p s then k (pos + n)%nat (drop n s) cap else None.
Proof.
  revert pos s; induction n as [|n IH]; intros pos s; simpl.
  - now rewrite Nat.add_0_r.
  - destruct s as [|c s]; [reflexivity|].
    destruct (p c); simpl; [|reflexivity].
    rewrite IH. now replace (S pos + n)%nat with (pos + S n)%nat by lia.
Qed.

(** A capturing group around a run of [n] characters of a class. *)
Lemma m_group_run {R : Type} (n : nat) (p : ascii -> bool) (pos : nat) (s : string)
    (cap : option string) (k : @cont R) :
  m (Grp (Rep n (Cls p))) pos s cap k =
  if has_run n p s then k (pos + n)%nat (drop n s) (Some (take n s)) else None.
Proof.
  change (m (Grp (Rep n (Cls p))) pos s cap k)
    with (iter n (m (Cls p)) pos s cap
            (fun pos' s' _ => k pos' s' (Some (take (pos' - pos) s)))).
  rewrite iter_cls.
  destruct (has_run n p s); [|reflexivity].
  now replace (pos + n - pos)%nat with n by lia.
Qed.

(** [re.search] finds nothing exactly when no position has a match. *)
Lemma search_from_None (r : regex) (pos : nat) (s : string) :
  search_from r pos s = None <->
  forall pre suf, s = pre +:+ suf -> match_at r (pos + String.length pre) suf = None.
Proof.
  revert pos; induction s as [|c s IH]; intros pos; simpl.
  - destruct (match_at r pos "") eqn:E.
    + split; [discriminate|]. intros H. specialize (H "" "" eq_refl).
      simpl in H. rewrite Nat.add_0_r in H. congruence.
    + split; [|reflexivity]. intros _ pre suf Hs.
      destruct pre; [|discriminate]. simpl in Hs; subst suf.
      simpl. now rewrite Nat.add_0_r.
  - destruct (match_at r pos (String c s)) eqn:E.
    + split; [discriminate|]. intros H. specialize (H "" (String c s) eq_refl).
      simpl in H. rewrite Nat.add_0_r in H. congruence.
    + rewrite IH. split.
      * intros H pre suf Hs. destruct pre as [|d pre]; simpl in *.
        -- subst suf. now rewrite Nat.add_0_r.
        -- injection Hs as -> ->.
           replace (pos + S (String.length pre))%nat with (S pos + String.length pre)%nat by lia.
           now apply H.
      * intros H pre suf ->.
        replace (S pos + String.length pre)%nat with (pos + String.length (String c pre))%nat
          by (simpl; lia).
        now apply H.
Qed.

(** [re.search] returns the match at the first position that has one. *)
Lemma search_from_Some (r : regex) (pos : nat) (pre suf : string) (mt : re_match) :
  (forall p1 p2, pre = p1 +:+ p2 -> p2 <> "" ->
     match_at r (pos + String.length p1) (p2 +:+ suf) = None) ->
  match_at r (pos + String.length pre) suf = Some mt ->
  search_from r pos (pre +:+ suf) = Some mt.
Proof.
  revert pos; induction pre as [|c pre IH]; intros pos Hfirst Hm; simpl in *.
  - rewrite Nat.add_0_r in Hm. destruct suf; simpl; now rewrite Hm.
  - pose proof (Hfirst "" (String c pre) eq_refl ltac:(discriminate)) as H0.
    simpl in H0. rewrite Nat.add_0_r in H0. rewrite H0.
    apply IH.
    + intros p1 p2 -> Hp2.
      replace (S pos + String.length p1)%nat
        with (pos + String.length (String c p1))%nat by (simpl; lia).
      now apply Hfirst.
    + now replace (S pos + String.length pre)%nat with (pos + S (String.length pre))%nat by lia.
Qed.

Lemma search_from_Some_inv (r : regex) (pos : nat) (s : string) (mt : re_match) :
  search_from r pos s = Some mt ->
  exists pre suf, s = pre +:+ suf /\
    match_at r (pos + String.length pre) suf = Some mt /\
    (forall p1 p2, pre = p1 +:+ p2 -> p2 <> "" ->
       match_at r (pos + String.length p1) (p2 +:+ suf) = None).
Proof.
  revert pos; induction s as [|c s IH]; intros pos; simpl.
  - destruct (match_at r pos "") eqn:E; [|discriminate]. intros [= ->].
    exists "", "". simpl. rewrite Nat.add_0_r. repeat split; auto.
    intros p1 p2 H. destruct p1, p2; simpl in H; congruence.
  - destruct (match_at r pos (String c s)) eqn:E.
    + intros [= ->]. exists "", (String c s). simpl. rewrite Nat.add_0_r.
      repeat split; auto. intros p1 p2 H. destruct p1, p2; simpl in H; congruence.
    + intros (pre & suf & -> & Hm & Hfirst)%IH.
      exists (String c pre), suf. simpl. split; [reflexivity|]. split.
      * now replace (pos + S (String.length pre))%nat with (S pos + String.length pre)%nat by lia.
      * intros p1 p2 H Hp2. destruct p1 as [|d p1]; simpl in *.
        -- subst p2. now rewrite Nat.add_0_r.
        -- injection H as -> ->.
           replace (pos + S (String.length p1))%nat with (S pos + String.length p1)%nat by lia.
           now apply Hfirst.
Qed.

End ReFacts.


(** * [VideoRequest.extract_video_id] *)

Section ExtractVideoId.

Import Str Re Main.

Lemma m_seq {R} r1 r2 pos s cap (k : @cont R) :
  m (Seq r1 r2) pos s cap k = m r1 pos s cap (fun pos' s' cap' => m r2 pos' s' cap' k).
Proof. reflexivity. Qed.

Lemma m_alt {R} r1 r2 pos s cap (k : @cont R) :
  m (Alt r1 r2) pos s cap k =
  match m r1 pos s cap k with Some x => Some x | None => m r2 pos s cap k end.
Proof. reflexivity. Qed.

Lemma m_lit {R} l pos s cap (k : @cont R) :
  m (Lit l) pos s cap k =
  match strip_prefix l s with
  | Some s' => k (pos + String.length l)%nat s' cap
  | None => None
  end.
Proof. reflexivity. Qed.

Lemma match_at_url (pos : nat) (s : string) :
  match_at url_pattern pos s =
  match url_at pos watch_prefix s with
  | Some mt => Some mt
  | None => url_at pos short_prefix s
  end.
Proof.
  unfold match_at, url_pattern, url_at.
  rewrite m_seq, m_alt, !m_lit.
  destruct (strip_prefix watch_prefix s) as [s1|] eqn:E1;
    destruct (strip_prefix short_prefix s) as [s2|] eqn:E2;
    fold watch_prefix short_prefix; rewrite ?E1, ?E2, ?m_group_run;
    repeat match goal with |- context [has_run ?n ?p ?x] => destruct (has_run n p x) end;
    reflexivity.
Qed.

Lemma url_at_Some pos l s mt :
  locator l -> url_at pos l s = Some mt ->
  exists tok, group1 mt = Some tok /\ occurs_at s tok.
Proof.
  unfold url_at. intros Hl.
  destruct (strip_prefix l s) as [s'|] eqn:E; [|discriminate].
  destruct (has_run 11 id_char s') eqn:Hr; [|discriminate].
  intros [= <-]. exists (take 11 s'). split; [reflexivity|].
  apply strip_prefix_Some in E. apply has_run_take in Hr as [HL HA].
  exists l, (drop 11 s'). repeat split; auto.
  now rewrite str_take_drop.
Qed.

Lemma url_at_occurs pos l tok rest :
  is_token tok ->
  url_at pos l (l +:+ tok +:+ rest) =
  Some (Match pos (pos + String.length l + 11) (Some tok)).
Proof.
  intros [HL HA]. unfold url_at. rewrite strip_prefix_app.
  assert (Hr : has_run 11 id_char (tok +:+ rest) = true)
    by (apply has_run_spec; exists tok, rest; auto).
  rewrite Hr. now rewrite <- HL, str_take_app_length.
Qed.

Lemma match_at_url_Some pos s mt :
  match_at url_pattern pos s = Some mt ->
  exists tok, group1 mt = Some tok /\ occurs_at s tok.
Proof.
  rewrite match_at_url.
  destruct (url_at pos watch_prefix s) eqn:E1.
  - intros [= <-]. eapply url_at_Some; [|exact E1]. now left.
  - intros E2. eapply url_at_Some; [|exact E2]. now right.
Qed.

Lemma match_at_url_occurs pos s tok :
  occurs_at s tok ->
  exists mt, match_at url_pattern pos s = Some mt /\ group1 mt = Some tok.
Proof.
  intros (l & rest & [-> | ->] & Htok & ->); rewrite match_at_url.
  - rewrite url_at_occurs by assumption. eauto.
  - replace (url_at pos watch_prefix (short_prefix +:+ tok +:+ rest)) with (@None re_match)
      by reflexivity.
    rewrite url_at_occurs by assumption. eauto.
Qed.

Lemma match_at_url_None pos s :
  match_at url_pattern pos s = None <-> forall tok, ~ occurs_at s tok.
Proof.
  split.
  - intros HN tok Ho. apply (match_at_url_occurs pos) in Ho as (mt & Hm & _). congruence.
  - intros H. destruct (match_at url_pattern pos s) eqn:E; [|reflexivity].
    apply match_at_url_Some in E as (tok & _ & Ho). now apply H in Ho.
Qed.

Lemma search_url_None v : search url_pattern v = None <-> ~ occurs_in v.
Proof.
  unfold search. rewrite search_from_None. split.
  - intros H (pre & suf & tok & Hv & Ho).
    specialize (H pre suf Hv). rewrite match_at_url_None in H. now apply H in Ho.
  - intros H pre suf Hv. apply match_at_url_None. intros tok Ho.
    apply H. now exists pre, suf, tok.
Qed.

(** The identifier the first pattern finds stands after the leftmost
    locator that a token follows. *)
Lemma search_url_leftmost pre suf tok :
  leftmost pre suf ->
  occurs_at suf tok ->
  exists mt, search url_pattern (pre +:+ suf) = Some mt /\ group1 mt = Some tok.
Proof.
  intros Hfirst Ho.
  destruct (match_at_url_occurs (0 + String.length pre) _ _ Ho) as (mt & Hm & Hg).
  exists mt. split; [|exact Hg].
  apply search_from_Some; [|exact Hm].
  intros p1 p2 Hp Hne. apply match_at_url_None. intros tok'.
  now apply (Hfirst p1 p2 tok').
Qed.

Lemma search_url_Some v mt :
  search url_pattern v = Some mt ->
  exists pre suf tok, v = pre +:+ suf /\ group1 mt = Some tok /\ occurs_at suf tok /\
    leftmost pre suf.
Proof.
  intros (pre & suf & -> & Hm & Hfirst)%search_from_Some_inv.
  apply match_at_url_Some in Hm as (tok & Hg & Ho).
  exists pre, suf, tok. repeat split; auto.
  intros p1 p2 tok' Hp Hne.
  apply (proj1 (match_at_url_None (0 + String.length p1) (p2 +:+ suf))).
  now apply Hfirst.
Qed.

(** What the second pattern does: only position 0 can match. *)
Lemma match_at_id (pos : nat) (s : string) :
  match_at id_pattern pos s =
  if Nat.eqb pos 0 then
    if has_run 11 id_char s then
      match drop 11 s with
      | EmptyString => Some (Match pos (pos + 11) (Some (take 11 s)))
      | String c EmptyString =>
          if Ascii.eqb c newline then Some (Match pos (pos + 11) (Some (take 11 s)))
          else None
      | String _ (String _ _) => None
      end
    else None
  else None.
Proof.
  unfold match_at, id_pattern. rewrite m_seq.
  change (m Bol pos s None ?k) with (if Nat.eqb pos 0 then k pos s None else None).
  destruct (Nat.eqb pos 0); [|reflexivity].
  rewrite m_seq, m_group_run.
  destruct (has_run 11 id_char s); reflexivity.
Qed.

Lemma search_from_id_later (pos : nat) (s : string) :
  search_from id_pattern (S pos) s = None.
Proof.
  revert pos; induction s as [|c s IH]; intros pos; cbn [search_from];
    rewrite match_at_id; cbn [Nat.eqb]; auto.
Qed.

Lemma search_id v : search id_pattern v = match_at id_pattern 0 v.
Proof.
  unfold search. destruct v as [|c v]; cbn [search_from];
    destruct (match_at id_pattern 0 _); try reflexivity.
  apply search_from_id_later.
Qed.

Lemma match_at_id_bare v :
  bare v -> match_at id_pattern 0 v = Some (Match 0 11 (Some (take 11 v))).
Proof.
  intros Hb. rewrite match_at_id. simpl Nat.eqb. cbv iota.
  assert (exists t rest, v = t +:+ rest /\ is_token t /\ (rest = "" \/ rest = nl))
    as (t & rest & -> & [HL HA] & Hrest).
  { destruct Hb as [Ht | (t & Ht & ->)].
    - exists v, "". rewrite str_app_nil_r. auto.
    - exists t, nl. auto. }
  assert (Hr : has_run 11 id_char (t +:+ rest) = true)
    by (apply has_run_spec; exists t, rest; auto).
  rewrite Hr, <- HL, str_drop_app_length, str_take_app_length.
  destruct Hrest as [-> | ->]; reflexivity.
Qed.

Lemma match_at_id_Some v mt :
  match_at id_pattern 0 v = Some mt -> bare v /\ group1 mt = Some (take 11 v).
Proof.
  rewrite match_at_id. simpl Nat.eqb. cbv iota.
  destruct (has_run 11 id_char v) eqn:Hr; [|discriminate].
  apply has_run_take in Hr as [HL HA].
  pose proof (str_take_drop 11 v) as Hv.
  destruct (drop 11 v) as [|c [|d rest]]; [| |discriminate].
  - intros [= <-]. split; [|reflexivity]. left. rewrite str_app_nil_r in Hv.
    rewrite <- Hv. now split.
  - destruct (Ascii.eqb_spec c newline) as [->|]; [|discriminate].
    intros [= <-]. split; [|reflexivity]. right. exists (take 11 v). now split.
Qed.

Lemma extract_video_id_unfold v :
  extract_video_id v =
  match search url_pattern v with
  | Some mt => Ok (group1 mt)
  | None =>
      match search id_pattern v with
      | Some mt => Ok (group1 mt)
      | None => Raise invalid
      end
  end.
Proof. reflexivity. Qed.

Lemma locator_not_id l : locator l -> all id_char l = false.
Proof. now intros [-> | ->]. Qed.

(** A text of identifier characters holds no locator. *)
Lemma all_id_no_locator v : all id_char v = true -> ~ occurs_in v.
Proof.
  intros HA (pre & suf & tok & -> & l & rest & Hl & _ & ->).
  rewrite !str_all_app, (locator_not_id l Hl) in HA.
  destruct (all id_char pre); discriminate.
Qed.

Lemma y_free_leftmost pre suf : y_free pre -> leftmost pre suf.
Proof.
  intros Hy p1 p2 tok' -> Hne (l' & rest & Hl & _ & E).
  unfold y_free in Hy. rewrite str_all_app in Hy. apply andb_prop in Hy as [_ Hy].
  destruct p2 as [|c p2]; [congruence|]. simpl in Hy, E.
  apply andb_prop in Hy as [Hc _].
  destruct Hl as [-> | ->]; simpl in E; injection E as -> _; discriminate.
Qed.

Lemma run_occurs l run suf :
  locator l -> all id_char run = true -> (11 <= String.length run)%nat ->
  occurs_at (l +:+ run +:+ suf) (take 11 run).
Proof.
  intros Hl HA HL. exists l, (drop 11 run +:+ suf). repeat split; auto.
  - now apply str_length_take.
  - now apply str_all_take.
  - now rewrite <- (str_app_assoc (take 11 run)), str_take_drop.
Qed.

Lemma extract_leftmost pre suf tok :
  leftmost pre suf -> occurs_at suf tok -> extract_video_id (pre +:+ suf) = Ok (Some tok).
Proof.
  intros Hfirst Ho. rewrite extract_video_id_unfold.
  destruct (search_url_leftmost pre suf tok Hfirst Ho) as (mt & -> & ->). reflexivity.
Qed.

Lemma extract_occurs v :
  occurs_in v ->
  exists pre suf tok, v = pre +:+ suf /\ occurs_at suf tok /\ leftmost pre suf /\
    extract_video_id v = Ok (Some tok).
Proof.
  intros Hin. rewrite extract_video_id_unfold.
  destruct (search url_pattern v) as [mt|] eqn:E.
  - apply search_url_Some in E as (pre & suf & tok & -> & -> & Ho & Hfirst).
    now exists pre, suf, tok.
  - now apply search_url_None in E.
Qed.

Lemma extract_bare v : bare v -> exists t, is_token t /\ extract_video_id v = Ok (Some t).
Proof.
  intros Hb. rewrite extract_video_id_unfold.
  destruct (search url_pattern v) as [mt|] eqn:E.
  - apply search_url_Some in E as (pre & suf & tok & -> & -> & (l & rest & _ & Ht & _) & _).
    now exists tok.
  - rewrite search_id, (match_at_id_bare v Hb). cbn [group1].
    exists (take 11 v). split; [|reflexivity].
    destruct Hb as [[HL HA] | (t & [HL HA] & ->)].
    + split; [apply str_length_take; lia | now apply str_all_take].
    + rewrite <- HL, str_take_app_length. now split.
Qed.

Lemma extract_token t : is_token t -> extract_video_id t = Ok (Some t).
Proof.
  intros [HL HA]. rewrite extract_video_id_unfold.
  rewrite (proj2 (search_url_None t) (all_id_no_locator t HA)).
  rewrite search_id, (match_at_id_bare t (or_introl (conj HL HA))). cbn [group1].
  pose proof (str_take_app_length t "") as H. rewrite str_app_nil_r in H.
  now rewrite <- HL, H.
Qed.

(** C6 (amended).  For every token of eleven characters of
    [[A-Za-z0-9_-]], the validator returns that token from a text in which
    the literal [youtube.com/watch?v=] (a watch URL, host in lower case,
    whose first parameter is [v=]) or the literal [youtu.be/] (a short URL)
    is directly followed by the token -- whatever stands before the
    literal, as long as it holds no [y], and whatever follows the token --
    and from the bare token.  Every text that matches neither pattern -- it
    holds no such literal followed by a token and is no bare token -- is
    rejected with the [ValueError] of the validator; and every text that
    matches one is accepted with a token, so these are exactly the rejected
    texts. *)
Theorem extract_video_id_accepts_the_three_forms_only :
  (forall t, is_token t ->
     (forall pre suf, y_free pre ->
        extract_video_id (pre +:+ watch_prefix +:+ t +:+ suf) = Ok (Some t) /\
        extract_video_id (pre +:+ short_prefix +:+ t +:+ suf) = Ok (Some t)) /\
     extract_video_id t = Ok (Some t)) /\
  (forall v, ~ occurs_in v -> ~ bare v -> extract_video_id v = Raise invalid) /\
  (forall v, occurs_in v \/ bare v ->
     exists t, is_token t /\ extract_video_id v = Ok (Some t)).
Proof.
  split; [|split].
  - intros t Ht. split; [|now apply extract_token].
    intros pre suf Hy. split; apply extract_leftmost;
      try (now apply y_free_leftmost);
      eexists _, suf; (split; [|split; [exact Ht | reflexivity]]);
      [now left | now right].
  - intros v Hin Hb. rewrite extract_video_id_unfold.
    rewrite (proj2 (search_url_None v) Hin), search_id.
    destruct (match_at id_pattern 0 v) as [mt|] eqn:E; [|reflexivity].
    now apply match_at_id_Some in E as [Hb' _].
  - intros v [Hin | Hb].
    + destruct (extract_occurs v Hin) as (pre & suf & tok & _ & (l & rest & _ & Ht & _) & _ & E).
      now exists tok.
    + now apply extract_bare.
Qed.

Lemma token_abc : is_token "abc12345678".
Proof. split; reflexivity. Defined.

Lemma hello_no_locator : ~ occurs_in "hello".
Proof. now apply all_id_no_locator. Qed.

Lemma hello_not_bare : ~ bare "hello".
Proof.
  intros [[HL _] | (t & [HL _] & E)]; [discriminate HL|].
  apply (f_equal String.length) in E. rewrite str_length_app, HL in E. discriminate E.
Qed.

Lemma extract_video_id_accepts_the_three_forms_only_witness :
  (extract_video_id "https://www.youtube.com/watch?v=abc12345678" = Ok (Some "abc12345678") /\
   extract_video_id "https://youtu.be/abc12345678" = Ok (Some "abc12345678") /\
   extract_video_id "abc12345678" = Ok (Some "abc12345678")) /\
  extract_video_id "hello" = Raise invalid /\
  (exists t, is_token t /\ extract_video_id "abc12345678" = Ok (Some t)).
Proof.
  destruct extract_video_id_accepts_the_three_forms_only as (Hforms & Hreject & Haccept).
  destruct (Hforms "abc12345678" token_abc) as [Hurl Hbare].
  destruct (Hurl "https://www." "" eq_refl) as [Hwatch _].
  destruct (Hurl "https://" "" eq_refl) as [_ Hshort].
  exact (conj (conj Hwatch (conj Hshort Hbare))
           (conj (Hreject "hello" hello_no_locator hello_not_bare)
                 (Haccept "abc12345678" (or_intror (or_introl token_abc))))).
Defined.

(** C6 as stated fails: a watch URL that carries the token as its [v=]
    parameter is rejected when another parameter comes first, and when the
    host is written with capitals. *)
Lemma extract_video_id_watch_url_counterexample :
  is_token "abc12345678" /\
  extract_video_id "https://www.youtube.com/watch?app=desktop&v=abc12345678"
  = Raise invalid /\
  extract_video_id "https://www.YouTube.com/watch?v=abc12345678" = Raise invalid /\
  extract_video_id "https://www.youtube.com/watch?app=desktop&v=abc12345678"
  <> Ok (Some "abc12345678").
Proof.
  split; [split; reflexivity|].
  split; [vm_compute; reflexivity|].
  split; [vm_compute; reflexivity | vm_compute; discriminate].
Qed.

(** C10.  The first pattern is searched for, not matched against the whole
    text: whenever the text holds a locator followed by eleven or more
    identifier characters, the validator succeeds, and what it returns are
    the eleven characters after the leftmost locator that a token follows,
    whatever surrounds them.  When the given occurrence is that leftmost one
    (in particular when no [y] stands before it), the value is the first
    eleven characters of the run. *)
Theorem extract_video_id_substring_capture :
  forall pre l run suf,
    locator l -> all id_char run = true -> (11 <= String.length run)%nat ->
    (exists pre' suf' tok,
        pre +:+ l +:+ run +:+ suf = pre' +:+ suf' /\ occurs_at suf' tok /\
        leftmost pre' suf' /\
        extract_video_id (pre +:+ l +:+ run +:+ suf) = Ok (Some tok)) /\
    (leftmost pre (l +:+ run +:+ suf) ->
       extract_video_id (pre +:+ l +:+ run +:+ suf) = Ok (Some (take 11 run))) /\
    (y_free pre ->
       extract_video_id (pre +:+ l +:+ run +:+ suf) = Ok (Some (take 11 run))).
Proof.
  intros pre l run suf Hl HA HL.
  pose proof (run_occurs l run suf Hl HA HL) as Ho.
  split; [|split].
  - apply extract_occurs. now exists pre, (l +:+ run +:+ suf), (take 11 run).
  - intros Hfirst. now apply extract_leftmost.
  - intros Hy. apply extract_leftmost; [now apply y_free_leftmost | exact Ho].
Qed.

Lemma extract_video_id_substring_capture_witness :
  extract_video_id "see https://www.youtube.com/watch?v=abc12345678XYZ&t=42 now"
  = Ok (Some "abc12345678").
Proof.
  exact (proj2 (proj2 (extract_video_id_substring_capture
                  "see https://www." watch_prefix "abc12345678XYZ" "&t=42 now"
                  (or_introl eq_refl) eq_refl
                  (le_S_n _ _ (le_S_n _ _ (le_n_S _ _ (le_n_S _ _ (Nat.le_add_r 11 3)))))))
               eq_refl).
Defined.

(** With two occurrences the leftmost one wins, also when the second locator
    is made of the characters the first capture reads. *)
Example extract_video_id_two_occurrences :
  extract_video_id "youtu.be/AAAAAAAAAAA youtu.be/BBBBBBBBBBB" = Ok (Some "AAAAAAAAAAA") /\
  extract_video_id "youtu.be/ABCDyoutube.com/watch?v=XXXXXXXXXXX" = Ok (Some "ABCDyoutube").
Proof. split; reflexivity. Qed.

(** [$] also matches before a newline that ends the text; a text of twelve
    identifier characters matches nothing. *)
Example extract_video_id_trailing_newline :
  extract_video_id ("abc12345678" +:+ nl) = Ok (Some "abc12345678") /\
  extract_video_id "abc123456789" = Raise invalid.
Proof. split; reflexivity. Qed.

(** The first pattern wants [v=] right after [watch?]: a watch URL with
    another parameter first holds no locator and is rejected. *)
Example extract_video_id_other_parameter_first :
  extract_video_id "https://www.youtube.com/watch?list=PL1&v=abc12345678" = Raise invalid.
Proof. reflexivity. Qed.

End ExtractVideoId.


(** * [AIService._format_timestamp] *)

Section FormatTimestamp.

Import Str AIService.

Lemma format_02d_two_digits (n : Z) : 0 <= n < 100 -> format_02d n = two_digits n.
Proof.
  intros H. rewrite <- (Z2Nat.id n) by lia.
  assert (Hk : (Z.to_nat n < 100)%nat) by lia.
  generalize dependent (Z.to_nat n). clear. intros k Hk.
  do 100 (destruct k as [|k]; [vm_compute; reflexivity|]). lia.
Qed.

(** [str(n)] is read back as [n]: it is the decimal numeral of [n]. *)
Lemma of_int_reads_back (n : Z) :
  option_map Z.of_int (NilZero.int_of_string (of_int n)) = Some n.
Proof.
  unfold of_int. rewrite NilZero.isi.
  - simpl. now rewrite DecimalZ.of_to.
  - destruct n; simpl; try discriminate.
    intros [= H]. now apply DecimalPos.Unsigned.to_uint_nonnil in H.
  - destruct n; simpl; try discriminate.
    intros [= H]. now apply DecimalPos.Unsigned.to_uint_nonnil in H.
Qed.

Lemma int_of_float_floor (x : Q) :
  (0 <= x)%Q ->
  0 <= int_of_float x /\ (inject_Z (int_of_float x) <= x)%Q /\
  (x < inject_Z (int_of_float x + 1))%Q.
Proof.
  destruct x as [num den]. unfold Qle, Qlt, int_of_float. simpl.
  intros H. rewrite Z.mul_1_r in *.
  rewrite Z.quot_div_nonneg by lia.
  pose proof (Z.div_mod num (Z.pos den) ltac:(lia)) as Hd.
  pose proof (Z.mod_pos_bound num (Z.pos den) ltac:(lia)) as Hm.
  assert (0 <= num / Z.pos den) by (apply Z.div_pos; lia).
  repeat split; nia.
Qed.

(** C8.  For every non-negative number of seconds, [_format_timestamp]
    works on the integer part [s] (the number truncated), splits it into
    hours [s // 3600], minutes [(s % 3600) // 60] and seconds [s % 60]
    (so minutes and seconds are below 60), and emits [H:MM:SS] when there is
    at least one hour, and [M:SS] otherwise: hours (or minutes, in the short
    form) as a plain decimal numeral, the other fields as exactly two
    digits.  In particular 0, 65 and 3661 seconds give 0:00, 1:05 and
    1:01:01. *)
Theorem format_timestamp_rule :
  (forall seconds : Q, (0 <= seconds)%Q ->
     let s := int_of_float seconds in
     let hours := s / 3600 in
     let minutes := (s mod 3600) / 60 in
     let secs := s mod 60 in
     (0 <= s /\ (inject_Z s <= seconds)%Q /\ (seconds < inject_Z (s + 1))%Q) /\
     (0 <= hours /\ 0 <= minutes < 60 /\ 0 <= secs < 60 /\
      s = 3600 * hours + 60 * minutes + secs) /\
     _format_timestamp seconds =
       if 0 <? hours
       then of_int hours +:+ ":" +:+ two_digits minutes +:+ ":" +:+ two_digits secs
       else of_int minutes +:+ ":" +:+ two_digits secs) /\
  _format_timestamp 0 = "0:00" /\
  _format_timestamp 65 = "1:05" /\
  _format_timestamp 3661 = "1:01:01".
Proof.
  split; [|repeat split; vm_compute; reflexivity].
  intros seconds Hpos s hours minutes secs.
  pose proof (int_of_float_floor seconds Hpos) as Hfloor. fold s in Hfloor.
  assert (Hh : 0 <= hours) by (apply Z.div_pos; lia).
  assert (Hm : 0 <= minutes < 60).
  { pose proof (Z.mod_pos_bound s 3600 ltac:(lia)).
    split; [apply Z.div_pos; lia | apply Z.div_lt_upper_bound; lia]. }
  assert (Hs : 0 <= secs < 60) by (apply Z.mod_pos_bound; lia).
  assert (Hsum : s = 3600 * hours + 60 * minutes + secs).
  { subst hours minutes secs.
    pose proof (Z.div_mod s 3600 ltac:(lia)).
    pose proof (Z.div_mod (s mod 3600) 60 ltac:(lia)).
    assert ((s mod 3600) mod 60 = s mod 60).
    { apply Z.mod_mod_divide. exists 60; lia. }
    lia. }
  split; [exact Hfloor|]. split; [auto|].
  unfold _format_timestamp. fold s hours minutes secs.
  rewrite !format_02d_two_digits by lia. reflexivity.
Qed.

Lemma format_timestamp_rule_witness :
  _format_timestamp (7325 # 2) = "1:01:02".
Proof.
  destruct (proj1 format_timestamp_rule (7325 # 2) ltac:(discriminate)) as (_ & _ & E).
  exact E.
Defined.

End FormatTimestamp.


(** * [AIService.generate_analysis] *)

Section Strip.

Import Str.

Lemma rstrip_app_nl (a : string) : rstrip (a +:+ nl) = rstrip a.
Proof.
  induction a as [|c a IH]; [reflexivity|].
  cbn [String.append rstrip]. now rewrite IH.
Qed.

Lemma strip_between_newlines (p : string) : strip (nl +:+ p +:+ nl) = strip p.
Proof.
  unfold strip. change (lstrip (nl +:+ p +:+ nl)) with (lstrip (p +:+ nl)).
  induction p as [|c p IH]; [reflexivity|].
  cbn [String.append lstrip]. destruct (isspace c); [exact IH|].
  apply (rstrip_app_nl (String c p)).
Qed.

Lemma rstrip_idem (s : string) : rstrip (rstrip s) = rstrip s.
Proof.
  induction s as [|c s IH]; [reflexivity|].
  cbn [rstrip]. destruct (rstrip s) as [|d r] eqn:E.
  - destruct (isspace c) eqn:Hc; [reflexivity|]. cbn [rstrip]. now rewrite Hc.
  - cbn [rstrip] in *. now rewrite IH.
Qed.

Lemma rstrip_head (c : ascii) (s : string) :
  isspace c = false -> exists r, rstrip (String c s) = String c r.
Proof.
  intros Hc. cbn [rstrip]. destruct (rstrip s); rewrite ?Hc; eauto.
Qed.

Lemma lstrip_head (s : string) :
  lstrip s = "" \/ exists c r, lstrip s = String c r /\ isspace c = false.
Proof.
  induction s as [|c s IH]; [now left|].
  cbn [lstrip]. destruct (isspace c) eqn:Hc; [exact IH|].
  right. now exists c, s.
Qed.

Lemma strip_idem (s : string) : strip (strip s) = strip s.
Proof.
  unfold strip. destruct (lstrip_head s) as [-> | (c & r & -> & Hc)]; [reflexivity|].
  destruct (rstrip_head c r Hc) as (r' & E). rewrite E.
  cbn [lstrip]. rewrite Hc, <- E. apply rstrip_idem.
Qed.

(** A text that starts and ends with characters that are no spaces is
    its own [strip]. *)
Lemma rstrip_app_nonspace (a : string) (c : ascii) :
  isspace c = false -> rstrip (a +:+ String c "") = a +:+ String c "".
Proof.
  intros Hc. induction a as [|d a IH]; cbn [String.append rstrip].
  - now rewrite Hc.
  - rewrite IH. now destruct a.
Qed.

Lemma endswith_app (a p : string) : endswith (a +:+ p) p = true.
Proof.
  induction a as [|c a IH]; cbn [String.append].
  - destruct p; cbn [endswith]; now rewrite String.eqb_refl.
  - cbn [endswith]. rewrite IH. apply orb_true_r.
Qed.

Lemma startswith_app (s p q : string) :
  startswith s (p +:+ q) = true -> startswith s p = true.
Proof.
  unfold startswith. revert s; induction p as [|c p IH]; intros s; [reflexivity|].
  cbn [String.append strip_prefix]. destruct s as [|d s]; [discriminate|].
  destruct (Ascii.eqb c d); [apply IH | discriminate].
Qed.

End Strip.

Section Analysis.

Import Str AIService.

Lemma cleaned_fence_free (payload : string) :
  fence_free payload -> cleaned payload = strip payload.
Proof.
  intros [Hs He]. unfold cleaned, clean_code_blocks.
  assert (Hj : startswith (strip payload) "```json" = false).
  { destruct (startswith (strip payload) "```json") eqn:E; [|reflexivity].
    apply (startswith_app _ "```" "json") in E. congruence. }
  rewrite Hj, Hs, He. apply strip_idem.
Qed.

Lemma strip_fenced (tag payload : string) : strip (fenced tag payload) = fenced tag payload.
Proof.
  unfold strip, fenced. cbn [String.append lstrip]. 
  change (isspace "`") with false. cbv iota.
  change (String "`" (String "`" (String "`" (tag +:+ nl +:+ payload +:+ nl +:+ "```"))))
    with ("```" +:+ tag +:+ nl +:+ payload +:+ nl +:+ "``" +:+ "`").
  rewrite <- !str_app_assoc. rewrite rstrip_app_nonspace by reflexivity. reflexivity.
Qed.

Lemma drop_last_fence (a : string) :
  take (String.length (a +:+ "```") - 3) (a +:+ "```") = a.
Proof.
  rewrite str_length_app. cbn [String.length].
  replace (String.length a + 3 - 3)%nat with (String.length a) by lia.
  apply str_take_app_length.
Qed.

Lemma cleaned_fenced (tag payload : string) :
  tag = "json" \/ tag = "" -> cleaned (fenced tag payload) = strip payload.
Proof.
  intros Htag. unfold cleaned. rewrite strip_fenced. unfold clean_code_blocks.
  assert (E : (if startswith
                 (if startswith (fenced tag payload) "```json"
                  then drop 7 (fenced tag payload) else fenced tag payload) "```"
               then drop 3 (if startswith (fenced tag payload) "```json"
                            then drop 7 (fenced tag payload) else fenced tag payload)
               else (if startswith (fenced tag payload) "```json"
                     then drop 7 (fenced tag payload) else fenced tag payload))
              = (nl +:+ payload +:+ nl) +:+ "```").
  { destruct Htag as [-> | ->]; unfold fenced; rewrite !str_app_assoc; reflexivity. }
  rewrite E, endswith_app, drop_last_fence. apply strip_between_newlines.
Qed.

Lemma last_char_app (a : string) (c : ascii) : last_char (a +:+ String c "") = Some c.
Proof.
  induction a as [|d a IH]; [reflexivity|].
  cbn [String.append last_char]. rewrite IH. now destruct a.
Qed.

Lemma endswith_inv (s p : string) : endswith s p = true -> exists a, s = a +:+ p.
Proof.
  induction s as [|c s IH]; cbn [endswith].
  - rewrite orb_false_r. intros ->%String.eqb_eq. now exists "".
  - intros [->%String.eqb_eq | (a & ->)%IH]%orb_prop; [now exists "" |].
    now exists (String c a).
Qed.

(** A JSON object text, from its opening to its closing brace, is free of
    fences at both ends, whatever stands between the braces. *)
Lemma fence_free_object (body : string) : fence_free ("{" +:+ body +:+ "}").
Proof.
  assert (Hstrip : strip ("{" +:+ body +:+ "}") = "{" +:+ body +:+ "}").
  { unfold strip. change (lstrip ("{" +:+ body +:+ "}")) with ("{" +:+ body +:+ "}").
    rewrite <- str_app_assoc. now apply rstrip_app_nonspace. }
  unfold fence_free. rewrite Hstrip. split; [reflexivity|].
  destruct (endswith ("{" +:+ body +:+ "}") "```") eqn:E; [|reflexivity].
  apply endswith_inv in E as [a E]. apply (f_equal last_char) in E.
  rewrite <- str_app_assoc, last_char_app in E.
  change "```" with ("``" +:+ "`") in E.
  rewrite <- str_app_assoc, last_char_app in E. discriminate E.
Qed.

Lemma contains_key (key : string) (items : list (string * json)) :
  existsb (fun kv => String.eqb (fst kv) key) items = true <->
  exists v, Py.assoc key items = Some v.
Proof.
  induction items as [|[k v] items IH]; simpl.
  - split; [discriminate | now intros [? ?]].
  - destruct (String.eqb k key); simpl; [|exact IH]. split; eauto.
Qed.

Lemma lacks_key (key : string) (items : list (string * json)) :
  Py.assoc key items = None ->
  existsb (fun kv => String.eqb (fst kv) key) items = false.
Proof.
  intros H. destruct (existsb _ items) eqn:E; [|reflexivity].
  apply contains_key in E as [v E]. congruence.
Qed.

Lemma validate_structure_lacking (items : list (string * json)) :
  Py.assoc "chapters" items = None \/ Py.assoc "key_notes" items = None ->
  validate_structure (JObj items) = Raise invalid_structure.
Proof.
  intros H. unfold validate_structure. cbn [Py.contains].
  destruct (existsb (fun kv => String.eqb (fst kv) "chapters") items) eqn:E1;
    [|reflexivity].
  destruct H as [H | H]; rewrite (lacks_key _ _ H) in *; [discriminate | reflexivity].
Qed.

Lemma generate_analysis_response (e : env) (transcript : list segment) (text : string) :
  generate_content e model_name
    (analysis_prompt (_combine_transcript_with_timestamps transcript)) = Ok (Some text) ->
  generate_analysis e transcript =
  match json_loads e (cleaned text) with
  | Ok analysis =>
      match validate_structure analysis with
      | Ok a => Ok a
      | Raise ex =>
          match exn_cls ex with JSONDecodeError => Ok fallback | _ => Raise ex end
      end
  | Raise ex =>
      match exn_cls ex with JSONDecodeError => Ok fallback | _ => Raise ex end
  end.
Proof.
  intros Hgen. unfold generate_analysis, analysis_try. rewrite Hgen.
  fold (cleaned text). destruct (json_loads e (cleaned text)); reflexivity.
Qed.

(** C2 (amended).  Given a response with a text: when [json.loads] rejects
    the cleaned text with [JSONDecodeError], [generate_analysis] returns the
    fixed fallback and raises nothing; when the text parses to an object
    that lacks [chapters] or [key_notes], [generate_analysis] raises the
    [ValueError] of its structure check. *)
Theorem generate_analysis_fallback_on_parse_failure_only :
  forall (e : env) (transcript : list segment) (text : string),
    generate_content e model_name
      (analysis_prompt (_combine_transcript_with_timestamps transcript)) = Ok (Some text) ->
    (forall msg, json_loads e (cleaned text) = Raise (Exn JSONDecodeError msg) ->
       generate_analysis e transcript = Ok fallback) /\
    (forall items, json_loads e (cleaned text) = Ok (JObj items) ->
       Py.assoc "chapters" items = None \/ Py.assoc "key_notes" items = None ->
       generate_analysis e transcript = Raise invalid_structure).
Proof.
  intros e transcript text Hgen.
  rewrite (generate_analysis_response e transcript text Hgen). split.
  - intros msg ->. reflexivity.
  - intros items -> Hlack. now rewrite validate_structure_lacking.
Qed.

Lemma generate_analysis_fallback_on_parse_failure_only_witness :
  generate_analysis (Env (answering "not json") sample_loads) [] = Ok fallback /\
  generate_analysis (Env (answering "{}") sample_loads) [] = Raise invalid_structure.
Proof.
  split.
  - exact (proj1 (generate_analysis_fallback_on_parse_failure_only
                    (Env (answering "not json") sample_loads) [] "not json" eq_refl)
                 _ eq_refl).
  - exact (proj2 (generate_analysis_fallback_on_parse_failure_only
                    (Env (answering "{}") sample_loads) [] "{}" eq_refl)
                 [] eq_refl (or_introl eq_refl)).
Defined.

(** C2 as stated fails: the response [{}] parses as JSON and lacks both
    keys, and [generate_analysis] raises instead of returning the fallback. *)
Lemma generate_analysis_missing_keys_counterexample :
  sample_loads (cleaned "{}") = Ok (JObj []) /\
  generate_analysis (Env (answering "{}") sample_loads) [] = Raise invalid_structure /\
  generate_analysis (Env (answering "{}") sample_loads) [] <> Ok fallback.
Proof.
  split; [vm_compute; reflexivity|].
  split; [vm_compute; reflexivity | vm_compute; discriminate].
Qed.

(** C9 (amended).  For the language tag [json] (or no tag) and every payload
    whose trimmed text neither starts nor ends with a fence, as every JSON
    text does, [generate_analysis] gives the same result for the payload
    between fences as for the payload alone, whatever [json.loads] makes
    of it. *)
Theorem generate_analysis_json_fence_transparent :
  forall (e e' : env) (transcript : list segment) (tag payload : string),
    json_loads e = json_loads e' ->
    generate_content e model_name
      (analysis_prompt (_combine_transcript_with_timestamps transcript))
      = Ok (Some (fenced tag payload)) ->
    generate_content e' model_name
      (analysis_prompt (_combine_transcript_with_timestamps transcript))
      = Ok (Some payload) ->
    tag = "json" \/ tag = "" ->
    fence_free payload ->
    generate_analysis e transcript = generate_analysis e' transcript.
Proof.
  intros e e' transcript tag payload Hloads Hgen Hgen' Htag Hfree.
  rewrite (generate_analysis_response e transcript _ Hgen).
  rewrite (generate_analysis_response e' transcript _ Hgen').
  now rewrite (cleaned_fenced tag payload Htag), (cleaned_fence_free payload Hfree), Hloads.
Qed.

Lemma generate_analysis_json_fence_transparent_witness :
  generate_analysis (Env (answering (fenced "json" empty_analysis_text)) sample_loads) []
  = generate_analysis (Env (answering empty_analysis_text) sample_loads) [].
Proof.
  exact (generate_analysis_json_fence_transparent
           (Env (answering (fenced "json" empty_analysis_text)) sample_loads)
           (Env (answering empty_analysis_text) sample_loads)
           [] "json" empty_analysis_text eq_refl eq_refl eq_refl
           (or_introl eq_refl) (conj eq_refl eq_refl)).
Defined.

(** C9 as stated fails for other tags: between [javascript] fences the same
    payload is not parsed, and the fallback is returned. *)
Lemma generate_analysis_other_fence_counterexample :
  generate_analysis (Env (answering empty_analysis_text) sample_loads) []
    = Ok empty_analysis /\
  generate_analysis (Env (answering (fenced "javascript" empty_analysis_text)) sample_loads) []
    = Ok fallback /\
  generate_analysis (Env (answering (fenced "javascript" empty_analysis_text)) sample_loads) []
    <> generate_analysis (Env (answering empty_analysis_text) sample_loads) [].
Proof.
  split; [vm_compute; reflexivity|].
  split; [vm_compute; reflexivity | vm_compute; discriminate].
Qed.

End Analysis.


(** * [TranslationService] *)

Section Translation.

Import TranslationService.

Local Open Scope nat_scope.

Lemma append_batch_ok (batch : list segment) (j : nat) (tt : list string)
    (acc : list segment) :
  j + length batch <= length tt ->
  append_batch batch j tt acc = Ok (acc ++ zip_with emit batch (drop j tt)).
Proof.
  revert j acc; induction batch as [|sg rest IH]; intros j acc Hlen; simpl in *.
  - now rewrite app_nil_r.
  - destruct (lookup_lt_is_Some_2 tt j ltac:(lia)) as [t Ht].
    rewrite Ht, IH by lia. rewrite (drop_S _ _ _ Ht). simpl.
    now rewrite <- app_assoc.
Qed.

Lemma emit_frame (batch : list segment) (tt : list string) :
  length batch <= length tt ->
  map start (zip_with emit batch tt) = map start batch /\
  map duration (zip_with emit batch tt) = map duration batch /\
  map original (zip_with emit batch tt)
    = map (fun sg => Some (default (text sg) (original sg))) batch.
Proof.
  revert tt; induction batch as [|sg rest IH]; intros tt Hlen; [now destruct tt|].
  destruct tt as [|t tt]; simpl in *; [lia|].
  destruct (IH tt ltac:(lia)) as (-> & -> & ->). auto.
Qed.

Lemma emit_passthrough (batch : list segment) :
  map text (zip_with emit batch (map text batch)) = map text batch.
Proof. induction batch as [|sg rest IH]; simpl; [reflexivity | now rewrite IH]. Qed.

Lemma batch_step_ok (tr : translator) (transcript : list segment) (lang : string)
    (i : nat) (acc : list segment) (log : list event) :
  well_sized tr -> i < length transcript ->
  let batch := take batch_size (drop i transcript) in
  exists chunk returned new,
    batch_step tr transcript lang i acc log = (Ok (acc ++ chunk), log ++ new) /\
    chunk_of batch chunk returned /\
    (returned = true -> exists log' results, tr log' (map text batch) lang = Ok results) /\
    translate_calls new = [Translate (map text batch) lang returned] /\
    forallb call_or_pause new = true.
Proof.
  intros Hws Hi batch. unfold batch_step. fold batch.
  assert (Hne : map text batch <> []).
  { unfold batch, batch_size. destruct (drop i transcript) eqn:E; [|discriminate].
    apply (f_equal length) in E. rewrite length_drop in E. simpl in E. lia. }
  unfold translate_batch.
  destruct (map text batch) as [|t0 ts] eqn:Etexts; [congruence|]. rewrite <- Etexts.
  clear Hne.
  destruct (tr log (map text batch) lang) as [results|ex] eqn:Etr.
  - pose proof Etr as Etr0. apply Hws in Etr. rewrite length_map in Etr.
    rewrite append_batch_ok by (simpl; lia). rewrite drop_0.
    exists (zip_with emit batch results), true.
    destruct (emit_frame batch results Etr) as (Hs & Hd & Ho).
    destruct (Nat.ltb (i + batch_size) (length transcript)).
    + exists [Translate (map text batch) lang true; Sleep 500%Z].
      rewrite <- app_assoc. repeat split; eauto. discriminate.
    + exists [Translate (map text batch) lang true].
      repeat split; eauto. discriminate.
  - rewrite append_batch_ok by (simpl; rewrite length_map; lia). rewrite drop_0.
    exists (zip_with emit batch (map text batch)), false.
    destruct (emit_frame batch (map text batch) ltac:(rewrite length_map; lia))
      as (Hs & Hd & Ho).
    pose proof (emit_passthrough batch) as Hp.
    destruct (Nat.ltb (i + batch_size) (length transcript)).
    + exists [Translate (map text batch) lang false; Sleep 500%Z].
      rewrite <- app_assoc. repeat split; auto; discriminate.
    + exists [Translate (map text batch) lang false].
      repeat split; auto; discriminate.
Qed.

Lemma translate_calls_app (l1 l2 : list event) :
  translate_calls (l1 ++ l2) = translate_calls l1 ++ translate_calls l2.
Proof. apply filter_app. Qed.

Lemma batch_loop_ok (tr : translator) (transcript : list segment) (lang : string)
    (starts : list nat) :
  well_sized tr -> Forall (fun i => i < length transcript) starts ->
  forall acc log,
  exists (rows : list row) (new : list event),
    batch_loop tr transcript lang starts acc log
      = (Ok (acc ++ concat (map row_chunk rows)), log ++ new) /\
    map row_batch rows = map (fun i => take batch_size (drop i transcript)) starts /\
    Forall (row_ok tr lang) rows /\
    translate_calls new = map (row_call lang) rows /\
    forallb call_or_pause new = true.
Proof.
  intros Hws Hstarts. induction Hstarts as [|i starts Hi _ IH]; intros acc log.
  - exists [], []. simpl. rewrite !app_nil_r. repeat split; auto.
  - destruct (batch_step_ok tr transcript lang i acc log Hws Hi)
      as (chunk & returned & new1 & Hstep & Hchunk & Hret & Hcalls1 & Hpace1).
    destruct (IH (acc ++ chunk) (log ++ new1))
      as (rows & new2 & Hloop & Hbatches & Hrows & Hcalls2 & Hpace2).
    exists ((take batch_size (drop i transcript), chunk, returned) :: rows), (new1 ++ new2).
    cbn [batch_loop]. rewrite Hstep, Hloop. simpl.
    rewrite <- !app_assoc, Hbatches, translate_calls_app, Hcalls1, Hcalls2.
    rewrite forallb_app, Hpace1, Hpace2. repeat split; auto.
    constructor; [split; assumption | assumption].
Qed.

(** [range] lists the multiples of the step below the stop. *)
Lemma range_spec (n step i : nat) :
  0 < step -> In i (range n step) <-> i < n /\ exists k, i = k * step.
Proof.
  intros Hstep. unfold range. rewrite in_map_iff. split.
  - intros (k & <- & Hk%in_seq). split; [|now exists k].
    assert (k * step + step <= ((n + step - 1) / step) * step) by nia.
    pose proof (Nat.Div0.mul_div_le (n + step - 1) step). nia.
  - intros (Hi & k & ->). exists k. split; [reflexivity|]. apply in_seq.
    split; [lia|]. simpl. apply Nat.div_le_lower_bound; nia.
Qed.

Lemma range_bound (n step : nat) : 0 < step -> Forall (fun i => i < n) (range n step).
Proof.
  intros Hstep. unfold range. rewrite Forall_map. apply Forall_forall.
  intros k Hk%list_elem_of_In%in_seq. simpl.
  assert (k < (n + step - 1) / step) as Hlt by lia.
  assert (k * step + step <= ((n + step - 1) / step) * step) by nia.
  pose proof (Nat.Div0.mul_div_le (n + step - 1) step). nia.
Qed.

Lemma concat_chunks (c : nat) (l : list segment) :
  length l <= batch_size * c ->
  concat (map (fun k => take batch_size (drop (k * batch_size) l)) (seq 0 c)) = l.
Proof.
  revert l; induction c as [|c IH]; intros l Hlen.
  - simpl in *. destruct l; [reflexivity | simpl in Hlen; lia].
  - cbn [seq map concat]. rewrite <- seq_shift, map_map.
    rewrite (map_ext _ (fun k => take batch_size (drop (k * batch_size) (drop batch_size l)))).
    + simpl drop at 1. rewrite IH; [apply take_drop|]. rewrite length_drop. unfold batch_size in *. lia.
    + intros k. rewrite drop_drop. reflexivity.
Qed.

Lemma concat_batches (transcript : list segment) : concat (batches transcript) = transcript.
Proof.
  unfold batches, range. rewrite map_map. apply concat_chunks.
  unfold batch_size.
  pose proof (Nat.div_mod_eq (length transcript + 15 - 1) 15).
  pose proof (Nat.mod_upper_bound (length transcript + 15 - 1) 15). lia.
Qed.

(** The whole of [translate_transcript], for a translator that answers
    with one translation per text. *)
Lemma translate_transcript_rows (tr : translator) (transcript : list segment)
    (lang : string) (log : list event) :
  well_sized tr ->
  exists (rows : list row) (new : list event),
    translate_transcript tr transcript lang log
      = (Ok (concat (map row_chunk rows)),
         log ++ [NewTranslator] ++ new ++ [CloseTranslator]) /\
    map row_batch rows = batches transcript /\
    Forall (row_ok tr lang) rows /\
    translate_calls new = map (row_call lang) rows /\
    forallb call_or_pause new = true.
Proof.
  intros Hws. unfold translate_transcript.
  assert (Hpos : 0 < batch_size) by (unfold batch_size; lia).
  destruct (batch_loop_ok tr transcript lang (range (length transcript) batch_size)
              Hws (range_bound (length transcript) batch_size Hpos)
              [] (log ++ [NewTranslator]))
    as (rows & new & Hloop & Hbatches & Hrows & Hcalls & Hpace).
  exists rows, new. rewrite Hloop. simpl. rewrite <- !app_assoc. simpl.
  repeat split; auto.
Qed.

Lemma batches_sizes (transcript : list segment) :
  Forall (fun batch => 0 < length batch <= batch_size) (batches transcript).
Proof.
  assert (Hpos : 0 < batch_size) by (unfold batch_size; lia).
  unfold batches. rewrite Forall_map.
  eapply Forall_impl; [exact (range_bound (length transcript) batch_size Hpos)|].
  intros i Hi. cbv beta in *. rewrite length_take, length_drop. unfold batch_size. lia.
Qed.

Lemma rows_field {B : Type} (f g : segment -> B) (rows : list row) :
  Forall (fun r => map f (row_chunk r) = map g (row_batch r)) rows ->
  map f (concat (map row_chunk rows)) = map g (concat (map row_batch rows)).
Proof.
  induction 1 as [|r rows Hr _ IH]; [reflexivity|].
  simpl. now rewrite !map_app, Hr, IH.
Qed.

Lemma append_batch_inv (batch : list segment) (j : nat) (tt : list string)
    (acc out : list segment) :
  append_batch batch j tt acc = Ok out ->
  out = acc ++ zip_with emit batch (drop j tt) /\ length batch <= length (drop j tt).
Proof.
  revert j acc; induction batch as [|sg rest IH]; intros j acc; simpl.
  - intros [= <-]. rewrite app_nil_r. split; [reflexivity | lia].
  - destruct (tt !! j) as [t|] eqn:Ht; [|discriminate].
    intros [-> Hlen]%IH. rewrite (drop_S _ _ _ Ht). simpl.
    rewrite <- app_assoc. split; [reflexivity | lia].
Qed.

Lemma batch_step_inv (tr : translator) (transcript : list segment) (lang : string)
    (i : nat) (acc out : list segment) (log log' : list event) :
  batch_step tr transcript lang i acc log = (Ok out, log') ->
  exists chunk,
    out = acc ++ chunk /\ chunk_of (take batch_size (drop i transcript)) chunk true.
Proof.
  unfold batch_step.
  destruct (translate_batch tr _ lang log) as [tt log1].
  destruct (append_batch _ 0 tt acc) as [out1|ex] eqn:Happ; [|discriminate].
  apply append_batch_inv in Happ as [-> Hlen]. rewrite drop_0 in *.
  intros Hout.
  assert (out = acc ++ zip_with emit (take batch_size (drop i transcript)) tt) as ->
    by (destruct (Nat.ltb _ _); now injection Hout).
  eexists. split; [reflexivity|].
  destruct (emit_frame _ tt Hlen) as (Hs & Hd & Ho). repeat split; auto. discriminate.
Qed.

Lemma batch_loop_inv (tr : translator) (transcript : list segment) (lang : string)
    (starts : list nat) :
  forall acc log out log',
    batch_loop tr transcript lang starts acc log = (Ok out, log') ->
    exists rows : list row,
      out = acc ++ concat (map row_chunk rows) /\
      map row_batch rows = map (fun i => take batch_size (drop i transcript)) starts /\
      Forall (fun r => chunk_of (row_batch r) (row_chunk r) true) rows.
Proof.
  induction starts as [|i starts IH]; intros acc log out log'; cbn [batch_loop].
  - intros [= <- <-]. exists []. simpl. rewrite app_nil_r. auto.
  - destruct (batch_step tr transcript lang i acc log) as [[acc1|ex] log1] eqn:Hstep;
      [|discriminate].
    apply batch_step_inv in Hstep as (chunk & -> & Hchunk).
    intros (rows & -> & Hbatches & Hrows)%IH.
    exists ((take batch_size (drop i transcript), chunk, true) :: rows). simpl.
    rewrite <- app_assoc, Hbatches. repeat split; auto.
Qed.

Lemma rows_same_frame (rows : list row) (transcript : list segment) :
  map row_batch rows = batches transcript ->
  Forall (fun r => chunk_of (row_batch r) (row_chunk r) true) rows ->
  same_frame (concat (map row_chunk rows)) transcript.
Proof.
  intros Hbatches Hrows.
  assert (Hs : map start (concat (map row_chunk rows)) = map start transcript).
  { rewrite (rows_field start start), Hbatches, concat_batches; [reflexivity|].
    eapply Forall_impl; [exact Hrows|]. now intros r (? & ? & ? & ?). }
  split; [|split; [exact Hs|split]].
  - apply (f_equal length) in Hs. now rewrite !length_map in Hs.
  - rewrite (rows_field duration duration), Hbatches, concat_batches; [reflexivity|].
    eapply Forall_impl; [exact Hrows|]. now intros r (? & ? & ? & ?).
  - rewrite (rows_field original (fun sg => Some (default (text sg) (original sg)))),
      Hbatches, concat_batches; [reflexivity|].
    eapply Forall_impl; [exact Hrows|]. now intros r (? & ? & ? & ?).
Qed.

Lemma translate_transcript_returns_frame (tr : translator) (transcript : list segment)
    (lang : string) (log : list event) (out : list segment) (log' : list event) :
  translate_transcript tr transcript lang log = (Ok out, log') ->
  same_frame out transcript.
Proof.
  unfold translate_transcript.
  destruct (batch_loop _ _ _ _ _ _) as [r log1] eqn:Hloop. intros [= -> <-].
  apply batch_loop_inv in Hloop as (rows & -> & Hbatches & Hrows).
  now apply rows_same_frame.
Qed.

(** C4.  For every transcript and target language, [translate_transcript]
    returns a list of the same length in the same order: position by
    position the output keeps [start] and [duration], and its [original] is
    the input's [original] when the input has one and the input's text
    otherwise.  It returns whenever the translator answers with one
    translation per text, as googletrans does; and whatever the translator
    does, a list it returns has that frame. *)
Theorem translate_transcript_frame :
  forall (tr : translator) (transcript : list segment) (lang : string) (log : list event),
    (well_sized tr ->
     exists out log',
       translate_transcript tr transcript lang log = (Ok out, log') /\
       same_frame out transcript) /\
    (forall out log',
       translate_transcript tr transcript lang log = (Ok out, log') ->
       same_frame out transcript).
Proof.
  intros tr transcript lang log. split.
  - intros Hws.
    destruct (translate_transcript_rows tr transcript lang log Hws)
      as (rows & new & Hrun & Hbatches & Hrows & _ & _).
    eexists _, _. split; [exact Hrun|].
    apply rows_same_frame; [exact Hbatches|].
    eapply Forall_impl; [exact Hrows|].
    intros r [(? & ? & ? & ?) _]. repeat split; auto. discriminate.
  - intros out log'. apply translate_transcript_returns_frame.
Qed.

Lemma sample_translator_well_sized : well_sized sample_translator.
Proof. intros log texts dest results [= <-]. now rewrite length_map. Defined.

Lemma failing_translator_well_sized : well_sized failing_translator.
Proof. intros log texts dest results H. discriminate H. Defined.

Lemma failing_once_translator_well_sized : well_sized failing_once_translator.
Proof.
  intros log texts dest results. unfold failing_once_translator.
  destruct (forallb _ log); [discriminate|]. intros [= <-]. now rewrite length_map.
Defined.

Lemma translate_transcript_frame_witness :
  (exists out log',
      translate_transcript sample_translator [hello; again] "vi" [] = (Ok out, log') /\
      length out = 2 /\
      map start out = [0%Q; (3 # 2)%Q] /\
      map duration out = [(3 # 2)%Q; 2%Q] /\
      map original out = [Some "hello"; Some "hello again"]) /\
  same_frame [emit hello "<hello>"; emit again "<hola>"] [hello; again].
Proof.
  split.
  - exact (proj1 (translate_transcript_frame sample_translator [hello; again] "vi" [])
             sample_translator_well_sized).
  - exact (proj2 (translate_transcript_frame sample_translator [hello; again] "vi" [])
             _ _ eq_refl).
Defined.

Lemma append_batch_raises (batch : list segment) (j : nat) (tt : list string)
    (acc : list segment) (ex : exn) :
  append_batch batch j tt acc = Raise ex -> ex = index_error.
Proof.
  revert j acc; induction batch as [|sg rest IH]; intros j acc; simpl; [discriminate|].
  destruct (tt !! j); [apply IH | now intros [= <-]].
Qed.

(** One turn of the loop raises only after a call that returned. *)
Lemma batch_step_raises (tr : translator) (transcript : list segment) (lang : string)
    (i : nat) (acc : list segment) (log log' : list event) (ex : exn) :
  batch_step tr transcript lang i acc log = (Raise ex, log') ->
  ex = index_error /\
  log' = log ++ [Translate (map text (take batch_size (drop i transcript))) lang true].
Proof.
  unfold batch_step, translate_batch.
  set (batch := take batch_size (drop i transcript)).
  destruct (map text batch) as [|t0 ts] eqn:Etexts.
  - destruct batch; [|discriminate]. simpl. destruct (Nat.ltb _ _); discriminate.
  - rewrite <- Etexts. destruct (tr log (map text batch) lang) as [results|ex0].
    + destruct (append_batch batch 0 results acc) eqn:Happ.
      * destruct (Nat.ltb _ _); discriminate.
      * intros [= <- <-]. split; [|reflexivity]. now apply append_batch_raises in Happ.
    + rewrite append_batch_ok by (simpl; rewrite length_map; lia).
      destruct (Nat.ltb _ _); discriminate.
Qed.

Lemma batch_loop_raises (tr : translator) (transcript : list segment) (lang : string)
    (starts : list nat) :
  forall acc log ex log',
    batch_loop tr transcript lang starts acc log = (Raise ex, log') ->
    ex = index_error /\ exists before texts, log' = before ++ [Translate texts lang true].
Proof.
  induction starts as [|i starts IH]; intros acc log ex log'; cbn [batch_loop];
    [discriminate|].
  destruct (batch_step tr transcript lang i acc log) as [[acc1|ex1] log1] eqn:Hstep.
  - apply IH.
  - intros [= <- <-]. apply batch_step_raises in Hstep as [-> ->]. eauto.
Qed.

(** C1 (amended).  The transcript is cut into batches of at most 15
    segments, and each batch gets exactly one [translate] call: between the
    first and the last event of the run nothing happens but these calls and
    the half-second pauses, so a failed call is not retried, nothing sleeps
    a second, and no client is built again.  For a translator that answers
    with one translation per text the run returns: the output is the
    concatenation of one chunk per batch, as long as the batch, and the
    chunk of a batch whose call failed carries the texts of the batch
    unchanged.  Whatever the translator does, a failed call never aborts
    the run: if the run raises, it raises the [IndexError] of reading a
    translation that is missing, right after a call that returned. *)
Theorem translate_transcript_failed_batch_passes_through :
  forall (tr : translator) (transcript : list segment) (lang : string) (log : list event),
    (well_sized tr ->
     exists (rows : list row) (new : list event),
       translate_transcript tr transcript lang log
         = (Ok (concat (map row_chunk rows)),
            log ++ [NewTranslator] ++ new ++ [CloseTranslator]) /\
       map row_batch rows = batches transcript /\
       concat (map row_batch rows) = transcript /\
       Forall (fun r => 0 < length (row_batch r) <= 15) rows /\
       translate_calls new = map (row_call lang) rows /\
       forallb call_or_pause new = true /\
       Forall (fun r =>
                 length (row_chunk r) = length (row_batch r) /\
                 (row_returned r = false ->
                  map text (row_chunk r) = map text (row_batch r)) /\
                 (row_returned r = true ->
                  exists log' results,
                    tr log' (map text (row_batch r)) lang = Ok results)) rows) /\
    (forall ex log',
       translate_transcript tr transcript lang log = (Raise ex, log') ->
       ex = index_error /\
       exists before texts,
         log' = before ++ [Translate texts lang true; CloseTranslator]).
Proof.
  intros tr transcript lang log. split.
  - intros Hws.
    destruct (translate_transcript_rows tr transcript lang log Hws)
      as (rows & new & Hrun & Hbatches & Hrows & Hcalls & Hpace).
    exists rows, new. split; [exact Hrun|]. split; [exact Hbatches|].
    split; [rewrite Hbatches; apply concat_batches|].
    split; [|split; [exact Hcalls|split; [exact Hpace|]]].
    + pose proof (batches_sizes transcript) as Hsz. rewrite <- Hbatches in Hsz.
      now rewrite Forall_map in Hsz.
    + eapply Forall_impl; [exact Hrows|].
      intros r [(Hs & _ & _ & Hp) Hprov]. split; [|split; assumption].
      apply (f_equal length) in Hs. now rewrite !length_map in Hs.
  - intros ex log'. unfold translate_transcript.
    destruct (batch_loop _ _ _ _ _ _) as [r log1] eqn:Hloop. intros [= -> <-].
    apply batch_loop_raises in Hloop as (-> & before & texts & ->).
    split; [reflexivity|]. exists before, texts. now rewrite <- app_assoc.
Qed.

Lemma translate_transcript_failed_batch_passes_through_witness :
  (exists (rows : list row) (new : list event),
      translate_transcript failing_once_translator [hello; again] "vi" []
        = (Ok (concat (map row_chunk rows)),
           [] ++ [NewTranslator] ++ new ++ [CloseTranslator]) /\
      map row_batch rows = batches [hello; again] /\
      concat (map row_batch rows) = [hello; again] /\
      Forall (fun r => 0 < length (row_batch r) <= 15) rows /\
      translate_calls new = map (row_call "vi") rows /\
      forallb call_or_pause new = true /\
      Forall (fun r =>
                length (row_chunk r) = length (row_batch r) /\
                (row_returned r = false ->
                 map text (row_chunk r) = map text (row_batch r)) /\
                (row_returned r = true ->
                 exists log' results,
                   failing_once_translator log' (map text (row_batch r)) "vi" = Ok results))
             rows) /\
  (Exn IndexError "list index out of range" = index_error /\
   exists before texts,
     [NewTranslator; Translate ["hello"] "vi" true; CloseTranslator]
     = before ++ [Translate texts "vi" true; CloseTranslator]).
Proof.
  split.
  - exact (proj1 (translate_transcript_failed_batch_passes_through
                    failing_once_translator [hello; again] "vi" [])
             failing_once_translator_well_sized).
  - exact (proj2 (translate_transcript_failed_batch_passes_through
                    silent_translator [hello] "vi" [])
             _ _ eq_refl).
Defined.

(** C1 as stated fails: a batch whose call fails is tried once.  With a
    translator that always fails the run is three events long and holds no
    retry; with one that fails on its first call only, the text passes
    through although a second attempt would have translated it. *)
Lemma translate_transcript_retry_counterexample :
  translate_transcript failing_translator [hello] "vi" []
    = (Ok [emit hello "hello"],
       [NewTranslator; Translate ["hello"] "vi" false; CloseTranslator]) /\
  ~ (exists before after,
       snd (translate_transcript failing_translator [hello] "vi" [])
       = before ++ spec_retry_trace ["hello"] "vi" ++ after) /\
  translate_transcript failing_once_translator [hello] "vi" []
    = (Ok [emit hello "hello"],
       [NewTranslator; Translate ["hello"] "vi" false; CloseTranslator]).
Proof.
  split; [vm_compute; reflexivity|]. split; [|vm_compute; reflexivity].
  intros (before & after & H).
  assert (E : snd (translate_transcript failing_translator [hello] "vi" [])
              = [NewTranslator; Translate ["hello"] "vi" false; CloseTranslator])
    by (vm_compute; reflexivity).
  rewrite E in H. apply (f_equal length) in H.
  rewrite !length_app in H. simpl in H. lia.
Qed.

(** When every call fails, every text passes through. *)
Lemma translate_transcript_all_calls_fail
    (tr : translator) (transcript : list segment) (lang : string) (log : list event) :
  (forall log' texts dest, exists ex, tr log' texts dest = Raise ex) ->
  exists out log',
    translate_transcript tr transcript lang log = (Ok out, log') /\
    map text out = map text transcript.
Proof.
  intros Hfail.
  assert (Hws : well_sized tr).
  { intros log' texts dest results H. destruct (Hfail log' texts dest) as [ex E]. congruence. }
  destruct (translate_transcript_rows tr transcript lang log Hws)
    as (rows & new & Hrun & Hbatches & Hrows & _ & _).
  eexists _, _. split; [exact Hrun|].
  rewrite (rows_field text text), Hbatches, concat_batches; [reflexivity|].
  eapply Forall_impl; [exact Hrows|].
  intros r [(_ & _ & _ & Hp) Hprov]. apply Hp.
  destruct (row_returned r); [|reflexivity].
  destruct (Hprov eq_refl) as (log' & results & E).
  destruct (Hfail log' (map text (row_batch r)) lang) as [ex E']. congruence.
Qed.

Lemma batch_step_log (tr : translator) (transcript : list segment) (lang : string)
    (i : nat) (acc : list segment) (log : list event) :
  exists new,
    snd (batch_step tr transcript lang i acc log) = log ++ new /\
    Forall (sent_to lang) new /\
    (take batch_size (drop i transcript) <> [] ->
     exists returned,
       In (Translate (map text (take batch_size (drop i transcript))) lang returned) new).
Proof.
  unfold batch_step, translate_batch.
  set (batch := take batch_size (drop i transcript)).
  destruct (map text batch) as [|t0 ts] eqn:Etexts.
  - destruct batch; [|discriminate]. simpl. 
    destruct (Nat.ltb (i + batch_size) (length transcript)).
    + exists [Sleep 500%Z]. split; [reflexivity|]. split; [repeat constructor | congruence].
    + exists []. rewrite app_nil_r. split; [reflexivity|]. split; [constructor | congruence].
  - rewrite <- Etexts.
    assert (Hcase : forall returned tt,
      exists new,
        snd (match append_batch batch 0 tt acc with
             | Ok translated =>
                 if Nat.ltb (i + batch_size) (length transcript)
                 then (Ok translated, (log ++ [Translate (map text batch) lang returned]) ++ [Sleep 500%Z])
                 else (Ok translated, log ++ [Translate (map text batch) lang returned])
             | Raise ex => (Raise ex, log ++ [Translate (map text batch) lang returned])
             end) = log ++ new /\
        Forall (sent_to lang) new /\
        (batch <> [] -> exists returned', In (Translate (map text batch) lang returned') new)).
    { intros returned tt. destruct (append_batch batch 0 tt acc);
        [destruct (Nat.ltb (i + batch_size) (length transcript))|].
      - exists [Translate (map text batch) lang returned; Sleep 500%Z].
        rewrite <- app_assoc. split; [reflexivity|].
        split; [repeat constructor | intros _; exists returned; now left].
      - exists [Translate (map text batch) lang returned].
        split; [reflexivity|].
        split; [repeat constructor | intros _; exists returned; now left].
      - exists [Translate (map text batch) lang returned].
        split; [reflexivity|].
        split; [repeat constructor | intros _; exists returned; now left]. }
    destruct (tr log (map text batch) lang) as [results|ex]; apply Hcase.
Qed.

Lemma batch_loop_log (tr : translator) (transcript : list segment) (lang : string)
    (starts : list nat) (acc : list segment) (log : list event) :
  exists new,
    snd (batch_loop tr transcript lang starts acc log) = log ++ new /\
    Forall (sent_to lang) new /\
    (forall i rest, starts = i :: rest -> take batch_size (drop i transcript) <> [] ->
     exists returned,
       In (Translate (map text (take batch_size (drop i transcript))) lang returned) new).
Proof.
  revert acc log; induction starts as [|i starts IH]; intros acc log.
  - exists []. simpl. rewrite app_nil_r. split; [reflexivity|]. split; [constructor | discriminate].
  - cbn [batch_loop].
    destruct (batch_step_log tr transcript lang i acc log) as (new1 & Hlog1 & Hto1 & Hin1).
    destruct (batch_step tr transcript lang i acc log) as [[translated|ex] log1] eqn:Hstep;
      simpl in Hlog1; subst log1.
    + destruct (IH translated (log ++ new1)) as (new2 & Hlog2 & Hto2 & _).
      exists (new1 ++ new2). rewrite Hlog2, app_assoc.
      split; [reflexivity|]. split; [now apply Forall_app|].
      intros i' rest [= <- <-] Hne. destruct (Hin1 Hne) as [returned Hin].
      exists returned. apply in_or_app. now left.
    + exists new1. split; [reflexivity|]. split; [assumption|].
      intros i' rest [= <- <-] Hne. exact (Hin1 Hne).
Qed.

Lemma range_head (n : nat) : 0 < n -> exists rest, range n batch_size = 0 :: rest.
Proof.
  intros Hn. unfold range, batch_size.
  destruct ((n + 15 - 1) / 15) as [|c] eqn:E.
  - apply Nat.div_small_iff in E; lia.
  - simpl. eauto.
Qed.

Lemma translate_transcript_log (tr : translator) (transcript : list segment)
    (lang : string) (log : list event) :
  transcript <> [] ->
  exists returned new,
    snd (translate_transcript tr transcript lang log) = log ++ new /\
    In (Translate (map text (take batch_size transcript)) lang returned) new /\
    Forall (sent_to lang) new.
Proof.
  intros Hne. unfold translate_transcript.
  destruct (batch_loop_log tr transcript lang (range (length transcript) batch_size) []
              (log ++ [NewTranslator])) as (new & Hlog & Hto & Hin).
  destruct (batch_loop _ _ _ _ _ _) as [r log1]. simpl in Hlog. subst log1. simpl.
  destruct (range_head (length transcript)) as [rest Hrange].
  { destruct transcript; [congruence | simpl; lia]. }
  destruct (Hin 0 rest Hrange) as [returned Hret].
  { rewrite drop_0. destruct transcript; [congruence | discriminate]. }
  rewrite drop_0 in Hret.
  exists returned, ([NewTranslator] ++ new ++ [CloseTranslator]).
  split; [now rewrite <- !app_assoc|]. split.
  - apply in_or_app; right. apply in_or_app; now left.
  - apply Forall_app; split; [repeat constructor|].
    apply Forall_app; split; [assumption | repeat constructor].
Qed.

(** C7 (amended).  [translate_transcript] does not consult the language
    table: for every target language code, supported or not, and every
    transcript that is not empty, the first batch is sent to the translation
    capability with that code as destination, and so is every other call of
    the run.  The endpoint of [/api/translate] adds no check of its own. *)
Theorem translate_transcript_sends_every_language :
  forall (tr : translator) (transcript : list segment) (lang : string)
         (created : bool) (log : list event),
    transcript <> [] ->
    (exists returned new,
        snd (translate_transcript tr transcript lang log) = log ++ new /\
        In (Translate (map text (take batch_size transcript)) lang returned) new /\
        Forall (sent_to lang) new) /\
    (exists returned new,
        snd (Main.translate_transcript tr
               {| Main.transcript := transcript; Main.target_lang := lang |} created log)
          = log ++ new /\
        In (Translate (map text (take batch_size transcript)) lang returned) new /\
        Forall (sent_to lang) new).
Proof.
  intros tr transcript lang created log Hne.
  split; [now apply translate_transcript_log|].
  unfold Main.translate_transcript, Main.get_translation_service. simpl.
  destruct transcript as [|sg rest]; [congruence|].
  set (log0 := if created then log else log ++ [NewTranslator]).
  replace (if created then (true, log) else (true, log ++ [NewTranslator]))
    with (true, log0) by (unfold log0; now destruct created).
  destruct (translate_transcript_log tr (sg :: rest) lang log0 Hne)
    as (returned & new & Hlog & Hin & Hto).
  destruct (translate_transcript tr (sg :: rest) lang log0) as [[out|ex] log1];
    simpl in Hlog; subst log1; simpl;
    exists returned, ((if created then [] else [NewTranslator]) ++ new);
    (split; [unfold log0; destruct created; simpl; now rewrite <- ?app_assoc|]);
    (split; [apply in_or_app; now right|]);
    (apply Forall_app; split; [destruct created; repeat constructor | assumption]).
Qed.

Lemma translate_transcript_sends_every_language_witness :
  (exists returned new,
      snd (translate_transcript sample_translator [hello] "xx" []) = [] ++ new /\
      In (Translate (map text (take batch_size [hello])) "xx" returned) new /\
      Forall (sent_to "xx") new) /\
  (exists returned new,
      snd (Main.translate_transcript sample_translator
             {| Main.transcript := [hello]; Main.target_lang := "xx" |} false [])
        = [] ++ new /\
      In (Translate (map text (take batch_size [hello])) "xx" returned) new /\
      Forall (sent_to "xx") new).
Proof.
  exact (translate_transcript_sends_every_language sample_translator [hello] "xx" false []
           ltac:(discriminate)).
Defined.

(** C7 as stated fails: [xx] is no key of [LANGUAGES], and both the service
    and the endpoint hand it to the translator and answer with its result. *)
Lemma translate_transcript_unsupported_language_counterexample :
  validate_language "xx" = false /\
  translate_transcript sample_translator [hello] "xx" []
    = (Ok [emit hello "<hello>"],
       [NewTranslator; Translate ["hello"] "xx" true; CloseTranslator]) /\
  Main.translate_transcript sample_translator
    {| Main.transcript := [hello]; Main.target_lang := "xx" |} false []
    = (Main.Respond {| Main.translated_transcript := [emit hello "<hello>"];
                       Main.success := true |},
       true,
       [NewTranslator; NewTranslator; Translate ["hello"] "xx" true; CloseTranslator]).
Proof. repeat split; vm_compute; reflexivity. Qed.

(** X2.  A second pass keeps the [original] of the first: whenever both
    passes return, the [original] fields of the second output are those of
    the first, which trace back to the first source text. *)
Theorem translate_transcript_keeps_first_original :
  forall (tr1 tr2 : translator) (transcript : list segment) (lang1 lang2 : string)
         (log1 log2 log1' log2' : list event) (out1 out2 : list segment),
    translate_transcript tr1 transcript lang1 log1 = (Ok out1, log1') ->
    translate_transcript tr2 out1 lang2 log2 = (Ok out2, log2') ->
    map original out2 = map original out1 /\
    map original out1 = map (fun sg => Some (default (text sg) (original sg))) transcript.
Proof.
  intros tr1 tr2 transcript lang1 lang2 log1 log2 log1' log2' out1 out2 H1 H2.
  apply translate_transcript_returns_frame in H1 as (_ & _ & _ & Ho1).
  apply translate_transcript_returns_frame in H2 as (_ & _ & _ & Ho2).
  split; [|exact Ho1]. rewrite Ho2. clear Ho2.
  revert transcript Ho1. induction out1 as [|sg out1 IH]; intros transcript Ho1.
  - reflexivity.
  - destruct transcript as [|sg0 transcript]; [discriminate|].
    simpl in Ho1. injection Ho1 as Hsg Hrest. simpl. rewrite Hsg. simpl.
    f_equal. now apply (IH transcript).
Qed.

Lemma translate_transcript_keeps_first_original_witness :
  map original
      (match fst (translate_transcript sample_translator
                    (match fst (translate_transcript sample_translator [hello; again] "vi" [])
                     with Ok out1 => out1 | Raise _ => [] end) "fr" [])
       with Ok out2 => out2 | Raise _ => [] end)
  = [Some "hello"; Some "hello again"].
Proof.
  exact (proj1 (translate_transcript_keeps_first_original
                  sample_translator sample_translator [hello; again] "vi" "fr" [] []
                  _ _ _ _ eq_refl eq_refl)).
Defined.

(** X1.  The retry of the specification is the one of [translate_text]: a
    text that is not blank and whose call fails every time is tried three
    times (the default [max_retries]), with a second of sleep and a fresh
    client before each retry, and comes back unchanged. *)
Theorem translate_text_retries_three_times :
  forall (tr : text_translator) (text lang : string) (log : list event),
    String.eqb text "" || String.eqb (Str.strip text) "" = false ->
    (forall log', exists ex, tr log' text lang = Raise ex) ->
    translate_text tr text lang 3 log
    = (text,
       log ++ [ TranslateText text lang false; Sleep 1000%Z; NewTranslator;
                TranslateText text lang false; Sleep 1000%Z; NewTranslator;
                TranslateText text lang false ]).
Proof.
  intros tr text lang log Hblank Hfail. unfold translate_text. rewrite Hblank.
  cbn [translate_text_loop].
  destruct (Hfail log) as [ex1 ->]. cbn [Nat.ltb Nat.leb Nat.sub].
  destruct (Hfail ((log ++ [TranslateText text lang false]) ++ [Sleep 1000%Z; NewTranslator]))
    as [ex2 ->]. cbn [Nat.ltb Nat.leb Nat.sub].
  destruct (Hfail ((((log ++ [TranslateText text lang false]) ++ [Sleep 1000%Z; NewTranslator])
                      ++ [TranslateText text lang false]) ++ [Sleep 1000%Z; NewTranslator]))
    as [ex3 ->]. cbn [Nat.ltb Nat.leb Nat.sub].
  now rewrite <- !app_assoc.
Qed.

Lemma translate_text_retries_three_times_witness :
  translate_text failing_text_translator "hello" "vi" 3 []
  = ("hello",
     [ TranslateText "hello" "vi" false; Sleep 1000%Z; NewTranslator;
       TranslateText "hello" "vi" false; Sleep 1000%Z; NewTranslator;
       TranslateText "hello" "vi" false ]).
Proof.
  exact (translate_text_retries_three_times failing_text_translator "hello" "vi" []
           eq_refl (fun _ => ex_intro _ _ eq_refl)).
Defined.

End Translation.


(** * [TranscriptService] *)

Section Transcript.

Import TranscriptService.

Local Open Scope nat_scope.

Context {X Model : Type}.
Variable e : env X Model.

Lemma silent_ret {A} (a : A) : silent (@ret X Model A a).
Proof. now intros s. Qed.

Lemma silent_raise {A} (ex : exn) : silent (@raise X Model A ex).
Proof. now intros s. Qed.

Lemma silent_lift {A} (c : call X A) : silent (@lift X Model A c).
Proof. intros s. unfold lift. now destruct (c (w s)). Qed.

Lemma silent_get {A} (f : state X Model -> A) : silent (get f).
Proof. now intros s. Qed.

Lemma silent_set_whisper_model (m : Model) : silent (@set_whisper_model X Model m).
Proof. now intros s. Qed.

Lemma silent_path_exists (path : string) : silent (@path_exists X Model path).
Proof. now intros s. Qed.

Lemma silent_os_remove (path : string) : silent (@os_remove X Model path).
Proof. intros s. unfold os_remove. now destruct (bool_decide _). Qed.

Lemma silent_bind {A B} (c : M X Model A) (k : A -> M X Model B) :
  silent c -> (forall a, silent (k a)) -> silent (bind c k).
Proof.
  intros Hc Hk s. unfold bind. specialize (Hc s).
  destruct (c s) as [[a|ex] s1]; simpl in *; [|exact Hc].
  now rewrite Hk.
Qed.

Lemma silent_try_except {A} (c : M X Model A) (h : exn -> M X Model A) :
  silent c -> (forall ex, silent (h ex)) -> silent (try_except c h).
Proof.
  intros Hc Hh s. unfold try_except. specialize (Hc s).
  destruct (c s) as [[a|ex] s1]; simpl in *; [exact Hc|].
  now rewrite Hh.
Qed.

Lemma silent_try_finally {A} (c : M X Model A) (f : M X Model unit) :
  silent c -> silent f -> silent (try_finally c f).
Proof.
  intros Hc Hf s. unfold try_finally. specialize (Hc s).
  destruct (c s) as [r s1]. specialize (Hf s1).
  destruct (f s1) as [[u|ex] s2]; simpl in *; congruence.
Qed.

Ltac silence :=
  repeat first
    [ apply silent_ret | apply silent_raise | apply silent_lift | apply silent_get
    | apply silent_set_whisper_model | apply silent_path_exists | apply silent_os_remove
    | apply silent_bind | apply silent_try_except | apply silent_try_finally
    | progress intros
    | match goal with |- silent (match ?x with _ => _ end) => destruct x end
    | match goal with |- silent (if ?x then _ else _) => destruct x end
    | match goal with |- silent (attempt _) => unfold attempt end ].

Lemma trace_after_enter {A} (ev : entered) (k : M X Model A) :
  silent k -> forall s, trace (snd ((let* _ := enter ev in k) s)) = trace s ++ [ev].
Proof. intros Hk s. unfold bind, enter. now rewrite Hk. Qed.

Lemma trace_fetch (video_id : string) (s : state X Model) :
  trace (snd (_fetch_youtube_transcript e video_id s)) = trace s ++ [EnterFetch video_id].
Proof. apply trace_after_enter. silence. Qed.

(** The rest of [_download_audio] after its entry. *)
Lemma trace_download (video_id : string) (s : state X Model) :
  trace (snd (_download_audio e video_id s)) = trace s ++ [EnterDownload video_id].
Proof. apply trace_after_enter. silence. Qed.

Lemma cleanup_removes (audio_path : string) (s : state X Model) :
  exists s', cleanup audio_path s = (Ok tt, s') /\ (audio_path ∉ files (w s')).
Proof.
  unfold cleanup, bind, path_exists, os_remove, ret. cbv beta iota.
  destruct (bool_decide (audio_path ∈ files (w s))) eqn:E; rewrite ?E.
  - eexists. split; [reflexivity|]. simpl.
    rewrite elem_of_difference, elem_of_singleton. now intros [_ Hn].
  - exists s. split; [reflexivity|]. now apply bool_decide_eq_false in E.
Qed.

Lemma try_finally_cleanup {A} (body : M X Model A) (audio_path : string)
    (s : state X Model) :
  exists s', try_finally body (cleanup audio_path) s = (fst (body s), s') /\
             (audio_path ∉ files (w s')).
Proof.
  unfold try_finally. destruct (body s) as [r s1].
  destruct (cleanup_removes audio_path s1) as (s' & -> & Hgone).
  now exists s'.
Qed.

Lemma silent_cleanup (audio_path : string) : silent (@cleanup X Model audio_path).
Proof. unfold cleanup. silence. Qed.

Lemma whisper_after_download (video_id audio_path : string) (s s2 : state X Model) :
  _download_audio e video_id (entered_whisper video_id s) = (Ok audio_path, s2) ->
  exists s',
    snd (_transcribe_with_whisper e video_id s) = s' /\
    (audio_path ∉ files (w s')) /\
    trace s' = trace s ++ [EnterWhisper video_id; EnterDownload video_id].
Proof.
  intros Hd. unfold _transcribe_with_whisper.
  unfold bind at 1. change (enter (EnterWhisper video_id) s)
    with (Ok tt, entered_whisper video_id s). cbv iota.
  unfold bind at 1. rewrite Hd.
  match goal with |- context [try_finally ?b ?c s2] =>
    change c with (@cleanup X Model audio_path);
    destruct (try_finally_cleanup b audio_path s2) as (s' & Hrun & Hgone);
    pose proof (silent_try_finally b (@cleanup X Model audio_path)) as Hsil
  end.
  rewrite Hrun in *. exists s'. split; [reflexivity|]. split; [exact Hgone|].
  specialize (Hsil ltac:(silence) (silent_cleanup audio_path) s2).
  rewrite Hrun in Hsil. simpl in Hsil. rewrite Hsil.
  pose proof (trace_download video_id (entered_whisper video_id s)) as Ht.
  rewrite Hd in Ht. simpl in Ht. rewrite Ht. now rewrite <- app_assoc.
Qed.

Lemma trace_whisper (video_id : string) (s : state X Model) :
  trace (snd (_transcribe_with_whisper e video_id s))
  = trace s ++ [EnterWhisper video_id; EnterDownload video_id].
Proof.
  unfold _transcribe_with_whisper.
  unfold bind at 1. change (enter (EnterWhisper video_id) s)
    with (Ok tt, entered_whisper video_id s). cbv iota.
  unfold bind at 1.
  pose proof (trace_download video_id (entered_whisper video_id s)) as Ht.
  destruct (_download_audio e video_id (entered_whisper video_id s)) as [[path|ex] s2];
    simpl in Ht.
  - match goal with |- context [try_finally ?b ?c s2] =>
      pose proof (silent_try_finally b c) as Hsil
    end.
    rewrite Hsil; [| silence | silence]. rewrite Ht. now rewrite <- app_assoc.
  - simpl. rewrite Ht. now rewrite <- app_assoc.
Qed.

(** [get_transcript] by the way its primary method ends. *)
Lemma get_transcript_primary_ok (video_id : string) (s s1 : state X Model)
    (found : list segment) :
  _fetch_youtube_transcript e video_id s = (Ok found, s1) ->
  get_transcript e video_id s = (Ok (Acquisition found "youtube_api" true None), s1).
Proof.
  intros Hf. unfold get_transcript, bind, try_except, ret. now rewrite Hf.
Qed.

Lemma get_transcript_fallback (video_id : string) (s s1 : state X Model) (ex : exn) :
  _fetch_youtube_transcript e video_id s = (Raise ex, s1) ->
  get_transcript e video_id s =
  match _transcribe_with_whisper e video_id s1 with
  | (Ok heard, s2) => (Ok (Acquisition heard "whisper" true None), s2)
  | (Raise ex2, s2) => (Ok (Acquisition [] "error" false (Some (exn_str ex2))), s2)
  end.
Proof.
  intros Hf. unfold get_transcript, bind, try_except, ret. rewrite Hf.
  now destruct (_transcribe_with_whisper e video_id s1) as [[heard|ex2] s2].
Qed.

(** C3.  [get_transcript] never raises: it always returns its dictionary,
    and a dictionary with [success = False] has an empty transcript and an
    [error] entry (the text of the exception of the offline path).  When
    the primary fetch raises, the offline path is entered exactly once, and
    the result is the one that single run determines. *)
Theorem get_transcript_falls_back_once_and_never_raises :
  forall (video_id : string) (s : state X Model),
    (exists a s',
        get_transcript e video_id s = (Ok a, s') /\
        (success a = false -> transcript a = [] /\ exists msg, error a = Some msg)) /\
    (forall ex s1,
        _fetch_youtube_transcript e video_id s = (Raise ex, s1) ->
        exists a s',
          get_transcript e video_id s = (Ok a, s') /\
          s' = snd (_transcribe_with_whisper e video_id s1) /\
          a = match fst (_transcribe_with_whisper e video_id s1) with
              | Ok heard => Acquisition heard "whisper" true None
              | Raise ex2 => Acquisition [] "error" false (Some (exn_str ex2))
              end /\
          trace s' = trace s ++ [EnterFetch video_id; EnterWhisper video_id;
                                 EnterDownload video_id] /\
          whisper_attempts (trace s') = whisper_attempts (trace s) + 1).
Proof.
  intros video_id s. split.
  - destruct (_fetch_youtube_transcript e video_id s) as [[found|ex] s1] eqn:Hf.
    + rewrite (get_transcript_primary_ok _ _ _ _ Hf). eexists _, _.
      split; [reflexivity|]. discriminate.
    + rewrite (get_transcript_fallback _ _ _ _ Hf).
      destruct (_transcribe_with_whisper e video_id s1) as [[heard|ex2] s2];
        eexists _, _; (split; [reflexivity|]); simpl; [discriminate | eauto].
  - intros ex s1 Hf. rewrite (get_transcript_fallback _ _ _ _ Hf).
    pose proof (trace_fetch video_id s) as Ht1. rewrite Hf in Ht1. simpl in Ht1.
    pose proof (trace_whisper video_id s1) as Ht2.
    assert (Ht : trace (snd (_transcribe_with_whisper e video_id s1))
                 = trace s ++ [EnterFetch video_id; EnterWhisper video_id;
                               EnterDownload video_id]).
    { rewrite Ht2, Ht1. now rewrite <- app_assoc. }
    assert (Hn : whisper_attempts (trace (snd (_transcribe_with_whisper e video_id s1)))
                 = whisper_attempts (trace s) + 1).
    { rewrite Ht. unfold whisper_attempts. rewrite filter_app, length_app. reflexivity. }
    destruct (_transcribe_with_whisper e video_id s1) as [[heard|ex2] s2];
      eexists _, _; simpl in *; repeat (split; [reflexivity|]); auto.
Qed.

(** C5.  When the primary fetch raises and the download of the offline
    path succeeds with [audio_path], that file does not exist once
    [get_transcript] has returned, whether the transcription returned
    (the answer is a success) or raised (the answer is an error). *)
Theorem get_transcript_removes_scratch_audio :
  forall (video_id : string) (s s1 s2 : state X Model) (ex : exn) (audio_path : string),
    _fetch_youtube_transcript e video_id s = (Raise ex, s1) ->
    _download_audio e video_id (entered_whisper video_id s1) = (Ok audio_path, s2) ->
    exists a s',
      get_transcript e video_id s = (Ok a, s') /\
      (audio_path ∉ files (w s')) /\
      ((exists heard, a = Acquisition heard "whisper" true None) \/
       (exists msg, a = Acquisition [] "error" false (Some msg))).
Proof.
  intros video_id s s1 s2 ex audio_path Hf Hd.
  rewrite (get_transcript_fallback _ _ _ _ Hf).
  destruct (whisper_after_download video_id audio_path s1 s2 Hd) as (s' & Hs' & Hgone & _).
  destruct (_transcribe_with_whisper e video_id s1) as [[heard|ex2] s3];
    simpl in Hs'; subst s3; eexists _, _; (split; [reflexivity|]); (split; [exact Hgone|]);
    [left | right]; eauto.
Qed.

(** X3.  When the primary fetch returns, its transcript is the answer,
    with source [youtube_api], and the offline path is not entered. *)
Theorem get_transcript_prefers_official :
  forall (video_id : string) (s s1 : state X Model) (found : list segment),
    _fetch_youtube_transcript e video_id s = (Ok found, s1) ->
    get_transcript e video_id s = (Ok (Acquisition found "youtube_api" true None), s1) /\
    trace s1 = trace s ++ [EnterFetch video_id] /\
    whisper_attempts (trace s1) = whisper_attempts (trace s).
Proof.
  intros video_id s s1 found Hf.
  split; [now apply get_transcript_primary_ok|].
  pose proof (trace_fetch video_id s) as Ht. rewrite Hf in Ht. simpl in Ht.
  split; [exact Ht|]. rewrite Ht. unfold whisper_attempts.
  rewrite filter_app, length_app. simpl. lia.
Qed.

End Transcript.

Section TranscriptExamples.

Import TranscriptService.

Lemma get_transcript_falls_back_once_and_never_raises_witness :
  (exists a s',
      get_transcript (sample_env true) "abc12345678" fresh = (Ok a, s') /\
      (success a = false -> transcript a = [] /\ exists msg, error a = Some msg)) /\
  (exists a s',
      get_transcript (sample_env true) "abc12345678" fresh = (Ok a, s') /\
      a = Acquisition [] "error" false (Some "ffmpeg was not found") /\
      trace s' = [EnterFetch "abc12345678"; EnterWhisper "abc12345678";
                  EnterDownload "abc12345678"] /\
      whisper_attempts (trace s') = 1%nat).
Proof.
  split.
  - exact (proj1 (get_transcript_falls_back_once_and_never_raises
                    (sample_env true) "abc12345678" fresh)).
  - destruct (proj2 (get_transcript_falls_back_once_and_never_raises
                       (sample_env true) "abc12345678" fresh) _ _ eq_refl)
      as (a & s' & Hrun & _ & Ha & Ht & Hn).
    exists a, s'. exact (conj Hrun (conj Ha (conj Ht Hn))).
Defined.

Lemma get_transcript_removes_scratch_audio_witness :
  (exists a s',
      get_transcript (sample_env false) "abc12345678" fresh = (Ok a, s') /\
      ("./temp_audio/abc12345678.mp3" ∉ files (w s')) /\
      ((exists heard, a = Acquisition heard "whisper" true None) \/
       (exists msg, a = Acquisition [] "error" false (Some msg)))) /\
  (exists a s',
      get_transcript (sample_env true) "abc12345678" fresh = (Ok a, s') /\
      ("./temp_audio/abc12345678.mp3" ∉ files (w s')) /\
      ((exists heard, a = Acquisition heard "whisper" true None) \/
       (exists msg, a = Acquisition [] "error" false (Some msg)))).
Proof.
  split.
  - refine (get_transcript_removes_scratch_audio (sample_env false) "abc12345678"
              fresh _ _ _ "./temp_audio/abc12345678.mp3" _ _);
      vm_compute; reflexivity.
  - refine (get_transcript_removes_scratch_audio (sample_env true) "abc12345678"
              fresh _ _ _ "./temp_audio/abc12345678.mp3" _ _);
      vm_compute; reflexivity.
Defined.

Lemma get_transcript_prefers_official_witness :
  get_transcript official_env "abc12345678" fresh
  = (Ok (Acquisition [Segment "hi" 0 0 None] "youtube_api" true None),
     State (World ∅ tt) "base" None [EnterFetch "abc12345678"]).
Proof.
  exact (proj1 (get_transcript_prefers_official official_env "abc12345678" fresh _ _
                  eq_refl)).
Defined.

(** The scenario of the specification: the identifier is read from a watch
    URL, no official transcript can be fetched, and the offline path answers
    with what it heard. *)
Example end_to_end_offline :
  Main.extract_video_id "https://youtube.com/watch?v=abc12345678" = Ok (Some "abc12345678") /\
  fst (get_transcript (sample_env false) "abc12345678" fresh)
  = Ok (Acquisition [Segment "hello" 0 (3 # 2) None] "whisper" true None) /\
  trace (snd (get_transcript (sample_env false) "abc12345678" fresh))
  = [EnterFetch "abc12345678"; EnterWhisper "abc12345678"; EnterDownload "abc12345678"].
Proof. repeat split; vm_compute; reflexivity. Qed.

End TranscriptExamples.


(** * [TranscriptService]: the scratch file, the model cache, the answers *)

Section ServiceFrame.

Import TranscriptService.

Local Open Scope nat_scope.

Context {X Model : Type}.
Variable e : env X Model.

Lemma keeps_ret {A} (a : A) : keeps_service (@ret X Model A a).
Proof. now intros s. Qed.

Lemma keeps_raise {A} (ex : exn) : keeps_service (@raise X Model A ex).
Proof. now intros s. Qed.

Lemma keeps_lift {A} (c : call X A) : keeps_service (@lift X Model A c).
Proof. intros s. unfold lift. now destruct (c (w s)). Qed.

Lemma keeps_get {A} (f : state X Model -> A) : keeps_service (get f).
Proof. now intros s. Qed.

Lemma keeps_enter (ev : entered) : keeps_service (@enter X Model ev).
Proof. now intros s. Qed.

Lemma keeps_path_exists (path : string) : keeps_service (@path_exists X Model path).
Proof. now intros s. Qed.

Lemma keeps_os_remove (path : string) : keeps_service (@os_remove X Model path).
Proof. intros s. unfold os_remove. now destruct (bool_decide _). Qed.

Lemma keeps_bind {A B} (c : M X Model A) (k : A -> M X Model B) :
  keeps_service c -> (forall a, keeps_service (k a)) -> keeps_service (bind c k).
Proof.
  intros Hc Hk s. unfold bind. specialize (Hc s).
  destruct (c s) as [[a|ex] s1]; simpl in *; [|exact Hc].
  destruct (Hk a s1) as [H1 H2]. destruct Hc as [H3 H4]. split; congruence.
Qed.

Lemma keeps_try_except {A} (c : M X Model A) (h : exn -> M X Model A) :
  keeps_service c -> (forall ex, keeps_service (h ex)) -> keeps_service (try_except c h).
Proof.
  intros Hc Hh s. unfold try_except. specialize (Hc s).
  destruct (c s) as [[a|ex] s1]; simpl in *; [exact Hc|].
  destruct (Hh ex s1) as [H1 H2]. destruct Hc as [H3 H4]. split; congruence.
Qed.

Lemma keeps_try_finally {A} (c : M X Model A) (f : M X Model unit) :
  keeps_service c -> keeps_service f -> keeps_service (try_finally c f).
Proof.
  intros Hc Hf s. unfold try_finally. specialize (Hc s).
  destruct (c s) as [r s1]. specialize (Hf s1).
  destruct (f s1) as [[u|ex] s2]; simpl in *; destruct Hc, Hf; split; congruence.
Qed.

Ltac frame :=
  repeat first
    [ apply keeps_ret | apply keeps_raise | apply keeps_lift | apply keeps_get
    | apply keeps_enter | apply keeps_path_exists | apply keeps_os_remove
    | apply keeps_bind | apply keeps_try_except | apply keeps_try_finally
    | progress intros
    | match goal with |- keeps_service (match ?x with _ => _ end) => destruct x end
    | match goal with |- keeps_service (if ?x then _ else _) => destruct x end
    | match goal with |- keeps_service (attempt _) => unfold attempt end ].

Lemma keeps_fetch (video_id : string) :
  keeps_service (_fetch_youtube_transcript e video_id).
Proof. unfold _fetch_youtube_transcript. frame. Qed.

Lemma keeps_download (video_id : string) : keeps_service (_download_audio e video_id).
Proof. unfold _download_audio. frame. Qed.

Lemma keeps_cleanup (audio_path : string) : keeps_service (@cleanup X Model audio_path).
Proof. unfold cleanup. frame. Qed.

Lemma transcribe_with_whisper_run (e0 : env X Model) (video_id : string)
    (s : state X Model) :
  _transcribe_with_whisper e0 video_id s =
  match _download_audio e0 video_id (entered_whisper video_id s) with
  | (Ok audio_path, s1) => try_finally (transcription e0 audio_path) (cleanup audio_path) s1
  | (Raise ex, s1) => (Raise ex, s1)
  end.
Proof. reflexivity. Qed.

(** The [try] block never changes the size, never drops or replaces a model
    that is loaded, and has a model loaded when it returns. *)
Lemma transcription_cache (audio_path : string) (s : state X Model) :
  whisper_model_size (snd (transcription e audio_path s)) = whisper_model_size s /\
  (forall m, whisper_model s = Some m ->
             whisper_model (snd (transcription e audio_path s)) = Some m) /\
  (forall heard, fst (transcription e audio_path s) = Ok heard ->
                 exists m segments,
                   whisper_model (snd (transcription e audio_path s)) = Some m /\
                   heard = format_output e segments).
Proof.
  unfold transcription, bind, get, lift, set_whisper_model, ret. cbv beta iota.
  destruct (whisper_model s) as [m|] eqn:Hm.
  - destruct (transcribe e m audio_path (w s)) as [[segments|ex] w1]; simpl;
      (split; [reflexivity|]); (split; [intros m' [= <-]; exact Hm|]);
      [intros heard [= <-]; eauto | discriminate].
  - destruct (load_model e (whisper_model_size s) (w s)) as [[m|ex] w1]; simpl.
    + destruct (transcribe e m audio_path w1) as [[segments|ex] w2]; simpl;
        (split; [reflexivity|]); (split; [discriminate|]);
        [intros heard [= <-]; eauto | discriminate].
    + split; [reflexivity|]. split; discriminate.
Qed.

Lemma transcribe_with_whisper_cache (video_id : string) (s : state X Model) :
  whisper_model_size (snd (_transcribe_with_whisper e video_id s)) = whisper_model_size s /\
  (forall m, whisper_model s = Some m ->
             whisper_model (snd (_transcribe_with_whisper e video_id s)) = Some m) /\
  (forall heard, fst (_transcribe_with_whisper e video_id s) = Ok heard ->
                 exists m segments,
                   whisper_model (snd (_transcribe_with_whisper e video_id s)) = Some m /\
                   heard = format_output e segments).
Proof.
  rewrite transcribe_with_whisper_run.
  destruct (keeps_download video_id (entered_whisper video_id s)) as [Hsz Hmd].
  change (whisper_model_size (entered_whisper video_id s)) with (whisper_model_size s) in Hsz.
  change (whisper_model (entered_whisper video_id s)) with (whisper_model s) in Hmd.
  destruct (_download_audio e video_id (entered_whisper video_id s)) as [[audio_path|ex] s1];
    simpl in Hsz, Hmd.
  - unfold try_finally.
    destruct (transcription_cache audio_path s1) as (Hsz2 & Hkeep & Hret).
    destruct (transcription e audio_path s1) as [r s2]. simpl in Hsz2, Hkeep, Hret.
    destruct (keeps_cleanup audio_path s2) as [Hsz3 Hmd3].
    destruct (cleanup_removes audio_path s2) as (s3 & Hc & _).
    rewrite Hc in *. simpl in *.
    split; [congruence|]. split.
    + intros m Hm. rewrite Hmd3. apply Hkeep. congruence.
    + intros heard ->. destruct (Hret heard eq_refl) as (m & segments & Hm2 & ->).
      exists m, segments. split; [congruence | reflexivity].
  - simpl. split; [exact Hsz|]. split; [intros m Hm; congruence | discriminate].
Qed.

Lemma get_transcript_size (video_id : string) (s : state X Model) :
  whisper_model_size (snd (get_transcript e video_id s)) = whisper_model_size s.
Proof.
  destruct (keeps_fetch video_id s) as [Hsz _].
  destruct (_fetch_youtube_transcript e video_id s) as [[found|ex] s1] eqn:Hf;
    simpl in Hsz.
  - now rewrite (get_transcript_primary_ok e _ _ _ _ Hf).
  - rewrite (get_transcript_fallback e _ _ _ _ Hf).
    destruct (transcribe_with_whisper_cache video_id s1) as (Hsz2 & _).
    destruct (_transcribe_with_whisper e video_id s1) as [[heard|ex2] s2];
      simpl in *; congruence.
Qed.

(** X5.  [get_transcript] never changes the size of the Whisper model,
    never drops or replaces a model that is loaded, and leaves a model
    loaded whenever it answers from the offline path: the model is loaded
    lazily, and kept. *)
Theorem get_transcript_keeps_model_cache :
  forall (video_id : string) (s : state X Model),
    whisper_model_size (snd (get_transcript e video_id s)) = whisper_model_size s /\
    (forall m, whisper_model s = Some m ->
               whisper_model (snd (get_transcript e video_id s)) = Some m) /\
    (forall a, fst (get_transcript e video_id s) = Ok a ->
               source a = "whisper" ->
               exists m, whisper_model (snd (get_transcript e video_id s)) = Some m).
Proof.
  intros video_id s.
  destruct (keeps_fetch video_id s) as [Hsz Hmd].
  destruct (_fetch_youtube_transcript e video_id s) as [[found|ex] s1] eqn:Hf;
    simpl in Hsz, Hmd.
  - rewrite (get_transcript_primary_ok e _ _ _ _ Hf). simpl.
    split; [exact Hsz|]. split; [intros m Hm; congruence|].
    intros a [= <-]. discriminate.
  - rewrite (get_transcript_fallback e _ _ _ _ Hf).
    destruct (transcribe_with_whisper_cache video_id s1) as (Hsz2 & Hkeep & Hret).
    destruct (_transcribe_with_whisper e video_id s1) as [[heard|ex2] s2];
      simpl in *.
    + split; [congruence|]. split; [intros m Hm; apply Hkeep; congruence|].
      intros a _ _. destruct (Hret heard eq_refl) as (m & _ & Hm & _). eauto.
    + split; [congruence|]. split; [intros m Hm; apply Hkeep; congruence|].
      intros a [= <-]. discriminate.
Qed.

Lemma transcription_cached (load : string -> call X Model) (audio_path : string)
    (s : state X Model) (m : Model) :
  whisper_model s = Some m ->
  transcription (with_load_model e load) audio_path s = transcription e audio_path s.
Proof.
  intros Hm. unfold transcription, bind, get. cbv beta iota. rewrite Hm. reflexivity.
Qed.

Lemma transcribe_with_whisper_cached (load : string -> call X Model) (video_id : string)
    (s : state X Model) (m : Model) :
  whisper_model s = Some m ->
  _transcribe_with_whisper (with_load_model e load) video_id s
  = _transcribe_with_whisper e video_id s.
Proof.
  intros Hm. rewrite !transcribe_with_whisper_run.
  change (_download_audio (with_load_model e load) video_id)
    with (_download_audio e video_id).
  destruct (keeps_download video_id (entered_whisper video_id s)) as [_ Hmd].
  change (whisper_model (entered_whisper video_id s)) with (whisper_model s) in Hmd.
  destruct (_download_audio e video_id (entered_whisper video_id s)) as [[audio_path|ex] s1];
    [|reflexivity].
  simpl in Hmd. unfold try_finally.
  rewrite (transcription_cached load audio_path s1 m) by congruence. reflexivity.
Qed.

(** X6.  With a model loaded, [get_transcript] does not call
    [whisper.load_model]: whatever that function would do, the answer and
    the state after the call are the same. *)
Theorem get_transcript_cached_model_skips_load :
  forall (load : string -> call X Model) (video_id : string) (s : state X Model) (m : Model),
    whisper_model s = Some m ->
    get_transcript (with_load_model e load) video_id s = get_transcript e video_id s.
Proof.
  intros load video_id s m Hm.
  destruct (keeps_fetch video_id s) as [_ Hmd].
  destruct (_fetch_youtube_transcript e video_id s) as [[found|ex] s1] eqn:Hf;
    simpl in Hmd.
  - rewrite (get_transcript_primary_ok e _ _ _ _ Hf).
    now rewrite (get_transcript_primary_ok (with_load_model e load) _ _ _ _ Hf).
  - rewrite (get_transcript_fallback e _ _ _ _ Hf).
    rewrite (get_transcript_fallback (with_load_model e load) _ _ _ _ Hf).
    rewrite (transcribe_with_whisper_cached load video_id s1 m) by congruence.
    reflexivity.
Qed.

End ServiceFrame.

Section OfficialTranscript.

Import TranscriptService.

Local Open Scope nat_scope.

Context {X Model : Type}.
Variable e : env X Model.

Lemma normalize_complete (l : list raw_segment) (acc : list segment) :
  Forall complete l -> normalize l acc = Ok (acc ++ map normal l).
Proof.
  intros H. revert acc. induction H as [|r l [[t Ht] [st Hst]] _ IH]; intros acc.
  - simpl. now rewrite app_nil_r.
  - cbn [normalize]. rewrite Ht, Hst. rewrite IH, <- app_assoc.
    cbn [map app]. unfold normal. now rewrite Ht, Hst.
Qed.

Lemma normalize_ends (l : list raw_segment) (acc : list segment) :
  match normalize l acc with
  | Ok out => Forall complete l
  | Raise ex => (ex = Exn KeyError "'text'" \/ ex = Exn KeyError "'start'") /\
                ~ Forall complete l
  end.
Proof.
  revert acc. induction l as [|r l IH]; intros acc; [constructor|].
  cbn [normalize].
  destruct (raw_text r) as [t|] eqn:Ht.
  - destruct (raw_start r) as [st|] eqn:Hst.
    + specialize (IH (acc ++ [Segment t st (default 0%Q (raw_duration r)) None])).
      destruct (normalize l _) as [out|ex].
      * constructor; [|exact IH]. split; [rewrite Ht | rewrite Hst]; eauto.
      * destruct IH as [Hex Hn]. split; [exact Hex|].
        intros H. apply Hn. now inversion H.
    + split; [now right|]. intros H. inversion H as [|? ? [_ [? Hs]] _]. congruence.
  - split; [now left|]. intros H. inversion H as [|? ? [[? Hs] _] _]. congruence.
Qed.

Lemma normal_of_normal (raw : list raw_segment) :
  Forall complete raw -> Forall2 normal_of raw (map normal raw).
Proof.
  induction 1 as [|r raw [[t Ht] [st Hst]] _ IH]; [constructor|].
  cbn [map]. constructor; [|exact IH].
  unfold normal_of, normal. rewrite Ht, Hst. simpl. auto.
Qed.

Lemma attempt_returns (c : M X Model (option (list raw_segment))) (s : state X Model) :
  exists r s', attempt c s = (Ok r, s').
Proof.
  unfold attempt, try_except, ret. destruct (c s) as [[r|ex] s1]; eauto.
Qed.

Lemma offers_ret_none (video_id : string) : offers e video_id (ret None).
Proof. intros s raw s'. discriminate. Qed.

Lemma offers_raise (video_id : string) (ex : exn) : offers e video_id (raise ex).
Proof. intros s raw s'. discriminate. Qed.

Lemma offers_lift (video_id : string) (g : fetch X) (langs : option (list string)) :
  entry_point e g -> langs = Some ["en"] \/ langs = None ->
  offers e video_id (lift (g video_id langs)).
Proof.
  intros Hg Hl s raw s'. unfold lift.
  destruct (g video_id langs (w s)) as [r w1] eqn:E. intros [= -> _].
  now exists g, langs, (w s), w1.
Qed.

Lemma offers_attempt (video_id : string) (c : M X Model (option (list raw_segment))) :
  offers e video_id c -> offers e video_id (attempt c).
Proof.
  intros Hc s raw s'. unfold attempt, try_except, ret.
  destruct (c s) as [[r|ex] s1] eqn:E; [|discriminate].
  intros [= -> <-]. exact (Hc s raw s1 E).
Qed.

(** The second call pattern: the attribute of the class, or the method
    of an instance. *)
Lemma offers_class (video_id : string) :
  offers e video_id
    (match yta_YouTubeTranscriptApi e with
     | None => raise (Exn TypeError "'NoneType' object is not callable")
     | Some YT =>
         match cls_get_transcript YT with
         | Some get_transcript => lift (get_transcript video_id (Some ["en"]))
         | None =>
             let* instance := lift (cls_new YT) in
             match instance with
             | Some get_transcript => lift (get_transcript video_id (Some ["en"]))
             | None => ret None
             end
         end
     end).
Proof.
  destruct (yta_YouTubeTranscriptApi e) as [YT|] eqn:HYT; [|apply offers_raise].
  destruct (cls_get_transcript YT) as [g|] eqn:Hg.
  - apply offers_lift; [|now left]. right. exists YT. split; [exact HYT | now left].
  - intros s raw s'. unfold bind, lift.
    destruct (cls_new YT (w s)) as [[[g|]|ex] w1] eqn:Hnew;
      cbn [w whisper_model_size whisper_model trace]; try discriminate.
    destruct (g video_id (Some ["en"]) w1) as [r w2] eqn:E. intros [= -> _].
    exists g, (Some ["en"]), w1, w2. split; [|split; [now left | exact E]].
    right. exists YT. split; [exact HYT|]. right. now exists (w s), w1.
Qed.

Lemma ends_after_offer {A} (post : result A -> Prop) (video_id : string)
    (c : M X Model (option (list raw_segment)))
    (k : option (list raw_segment) -> M X Model A) :
  offers e video_id c ->
  (forall r, (forall raw, r = Some raw -> answered e video_id raw) -> ends post (k r)) ->
  ends post (bind (attempt c) k).
Proof.
  intros Hc Hk s. unfold bind. destruct (attempt_returns c s) as (r & s1 & E).
  rewrite E. apply Hk. intros raw ->.
  exact (offers_attempt video_id c Hc s raw s1 E).
Qed.

Lemma ends_after_ret {A B} (post : result B -> Prop) (a : A) (k : A -> M X Model B) :
  ends post (k a) -> ends post (bind (ret a) k).
Proof. intros Hk s. apply Hk. Qed.

Lemma ends_after_enter {A} (post : result A -> Prop) (ev : entered)
    (k : unit -> M X Model A) :
  ends post (k tt) -> ends post (bind (enter ev) k).
Proof. intros Hk s. apply Hk. Qed.

Lemma fetch_ends (video_id : string) :
  ends (fetch_end e video_id) (_fetch_youtube_transcript e video_id).
Proof.
  unfold _fetch_youtube_transcript.
  apply ends_after_enter.
  assert (Hlast : forall r : option (list raw_segment),
             (forall raw, r = Some raw -> answered e video_id raw) ->
             @ends X Model (list segment) (fetch_end e video_id)
               (match r with
                | None => raise fetch_failed
                | Some transcript_list =>
                    match normalize transcript_list [] with
                    | Ok normalized => ret normalized
                    | Raise ex => raise ex
                    end
                end)).
  { intros [l|] Hr s; [|now left].
    pose proof (normalize_ends l []) as Hn.
    destruct (normalize l []) as [out|ex] eqn:E; simpl.
    - exists l. split; [now apply Hr|]. rewrite (normalize_complete l [] Hn) in E.
      injection E as <-. now apply normal_of_normal.
    - destruct Hn as [[-> | ->] _]; [right; now left | right; now right]. }
  assert (Hthird : forall r : option (list raw_segment),
             (forall raw, r = Some raw -> answered e video_id raw) ->
             @ends X Model (list segment) (fetch_end e video_id)
               (let* transcript_list :=
                  match r with
                  | Some _ => ret r
                  | None =>
                      attempt (match yta_get_transcript e with
                               | Some get_transcript => lift (get_transcript video_id None)
                               | None => ret r
                               end)
                  end in
                match transcript_list with
                | None => raise fetch_failed
                | Some transcript_list =>
                    match normalize transcript_list [] with
                    | Ok normalized => ret normalized
                    | Raise ex => raise ex
                    end
                end)).
  { intros [l|] Hr.
    - apply ends_after_ret. apply (Hlast (Some l) Hr).
    - apply (ends_after_offer _ video_id).
      + destruct (yta_get_transcript e) as [g|] eqn:Hg.
        * apply offers_lift; [now left | now right].
        * apply offers_ret_none.
      + intros r Hr'. apply (Hlast r Hr'). }
  apply (ends_after_offer _ video_id).
  - destruct (yta_get_transcript e) as [g|] eqn:Hg.
    + apply offers_lift; [now left | now left].
    + apply offers_ret_none.
  - intros [l|] H1.
    + apply ends_after_ret. apply (Hthird (Some l) H1).
    + apply (ends_after_offer _ video_id); [apply offers_class|].
      intros r Hr. apply (Hthird r Hr).
Qed.

(** When the module-level helper answers the English request with a list,
    that list is the one normalised, and nothing else is called. *)
Lemma fetch_primary (video_id : string) (s : state X Model) (g : fetch X)
    (raw : list raw_segment) (w1 : world X) :
  yta_get_transcript e = Some g ->
  g video_id (Some ["en"]) (w s) = (Ok (Some raw), w1) ->
  _fetch_youtube_transcript e video_id s
  = (normalize raw [],
     State w1 (whisper_model_size s) (whisper_model s) (trace s ++ [EnterFetch video_id])).
Proof.
  intros Hg Hcall.
  unfold _fetch_youtube_transcript, bind, enter, attempt, try_except, lift, ret, raise.
  cbv beta iota. rewrite Hg. cbn [w whisper_model_size whisper_model trace].
  rewrite Hcall. cbn [w whisper_model_size whisper_model trace].
  now destruct (normalize raw []).
Qed.

(** X7.  [_fetch_youtube_transcript] lets no exception of the library
    through: it raises its own [RuntimeError] when none of its three calls
    gave a list, or the [KeyError] of a record without [text] or [start].
    What it returns is made of a list that one of the [get_transcript]
    functions of the library returned for this video, asked for English or
    for any language: one segment per record, in order, with the text and
    the start of the record, its duration or 0, and no [original].  When
    the module-level helper answers the English request with a list, that
    list decides: the result is its normal form when every record has a
    text and a start, and a [KeyError] otherwise, in the world that call
    left. *)
Theorem fetch_youtube_transcript_ends :
  forall (video_id : string) (s : state X Model),
    (forall ex s', _fetch_youtube_transcript e video_id s = (Raise ex, s') ->
       ex = fetch_failed \/ ex = Exn KeyError "'text'" \/ ex = Exn KeyError "'start'") /\
    (forall out s', _fetch_youtube_transcript e video_id s = (Ok out, s') ->
       exists raw, answered e video_id raw /\ Forall2 normal_of raw out) /\
    (forall g raw w1,
       yta_get_transcript e = Some g ->
       g video_id (Some ["en"]) (w s) = (Ok (Some raw), w1) ->
       let s1 := State w1 (whisper_model_size s) (whisper_model s)
                       (trace s ++ [EnterFetch video_id]) in
       (Forall complete raw ->
        _fetch_youtube_transcript e video_id s = (Ok (map normal raw), s1) /\
        Forall2 normal_of raw (map normal raw)) /\
       (~ Forall complete raw ->
        exists key,
          (key = "'text'" \/ key = "'start'") /\
          _fetch_youtube_transcript e video_id s = (Raise (Exn KeyError key), s1))).
Proof.
  intros video_id s. pose proof (fetch_ends video_id s) as H. split; [|split].
  - intros ex s' E. now rewrite E in H.
  - intros out s' E. now rewrite E in H.
  - intros g raw w1 Hg Hcall s1. rewrite (fetch_primary video_id s g raw w1 Hg Hcall).
    fold s1. pose proof (normalize_ends raw []) as Hn. split.
    + intros Hc. rewrite (normalize_complete raw [] Hc). split; [reflexivity|].
      now apply normal_of_normal.
    + intros Hc. destruct (normalize raw []) as [out|ex]; [contradiction|].
      destruct Hn as [[-> | ->] _]; eexists; (split; [|reflexivity]); auto.
Qed.

Lemma format_output_heard (segments : list whisper_segment) :
  Forall2 (heard_of e) segments (format_output e segments).
Proof.
  unfold format_output. induction segments as [|sg segments IH]; [constructor|].
  cbn [map]. constructor; [|exact IH]. unfold heard_of. simpl. auto.
Qed.

Lemma heard_stripped (segments : list whisper_segment) (out : list segment) :
  Forall2 (heard_of e) segments out ->
  Forall (fun sg => Str.strip (text sg) = text sg /\ original sg = None) out.
Proof.
  induction 1 as [|sg o segments out (Ht & _ & _ & Ho) _ IH]; constructor; [|exact IH].
  split; [|exact Ho]. rewrite Ht. apply strip_idem.
Qed.

(** A run of the [try] block that returns used the model of the service
    on the audio file, and returns what it heard, formatted. *)
Lemma transcription_run (audio_path : string) (s s' : state X Model)
    (heard : list segment) :
  transcription e audio_path s = (Ok heard, s') ->
  exists m wa segments wb,
    model_for e s m wa /\
    transcribe e m audio_path wa = (Ok segments, wb) /\
    heard = format_output e segments.
Proof.
  unfold transcription, bind, get, lift, set_whisper_model, ret. cbv beta iota.
  destruct (whisper_model s) as [m|] eqn:Hm.
  - destruct (transcribe e m audio_path (w s)) as [[segments|ex] w1] eqn:Et;
      [|discriminate].
    intros [= <- _]. exists m, (w s), segments, w1.
    split; [left; now split|]. now split.
  - destruct (load_model e (whisper_model_size s) (w s)) as [[m|ex] w1] eqn:El;
      cbn [w whisper_model_size whisper_model trace]; [|discriminate].
    destruct (transcribe e m audio_path w1) as [[segments|ex] w2] eqn:Et;
      [|discriminate].
    intros [= <- _]. exists m, w1, segments, w2.
    split; [right; now split|]. now split.
Qed.

Lemma whisper_run_ok (video_id : string) (s s' : state X Model) (heard : list segment) :
  _transcribe_with_whisper e video_id s = (Ok heard, s') ->
  exists audio_path s2 m wa segments wb,
    _download_audio e video_id (entered_whisper video_id s) = (Ok audio_path, s2) /\
    model_for e s2 m wa /\
    transcribe e m audio_path wa = (Ok segments, wb) /\
    heard = format_output e segments.
Proof.
  rewrite (transcribe_with_whisper_run e).
  destruct (_download_audio e video_id (entered_whisper video_id s))
    as [[audio_path|ex] s2] eqn:Hd; [|discriminate].
  unfold try_finally.
  destruct (transcription e audio_path s2) as [r s3] eqn:Ht.
  destruct (cleanup_removes audio_path s3) as (s4 & Hc & _). rewrite Hc.
  intros [= -> _].
  destruct (transcription_run audio_path s2 s3 heard Ht) as (m & wa & segments & wb & H).
  now exists audio_path, s2, m, wa, segments, wb.
Qed.

(** X8.  [get_transcript] answers in one of three ways, each tied to what
    the libraries returned.  When the primary fetch returns, the answer is
    its transcript, with source [youtube_api]: the normal form of a list
    the official API returned for this video.  When the primary fetch
    raises and the offline path returns, the answer has source [whisper]
    and is made of the segments that [transcribe] returned for the
    downloaded file, with the model of the service (the one loaded, or the
    one [load_model] returns for its size): one segment per segment heard,
    in order, with the text stripped, the start kept, the difference of end
    and start as duration.  When both raise, the answer is an error
    without segments, with the text of the second exception.  Success and
    an [error] entry exclude each other, and no segment has an
    [original]. *)
Theorem get_transcript_answer_shape :
  forall (video_id : string) (s : state X Model),
    exists a s',
      get_transcript e video_id s = (Ok a, s') /\
      ( (exists found s1 raw,
           _fetch_youtube_transcript e video_id s = (Ok found, s1) /\
           a = Acquisition found "youtube_api" true None /\
           answered e video_id raw /\
           Forall2 normal_of raw found)
        \/ (exists ex s1 audio_path s2 m wa segments wb,
              _fetch_youtube_transcript e video_id s = (Raise ex, s1) /\
              _download_audio e video_id (entered_whisper video_id s1)
              = (Ok audio_path, s2) /\
              model_for e s2 m wa /\
              transcribe e m audio_path wa = (Ok segments, wb) /\
              a = Acquisition (format_output e segments) "whisper" true None /\
              Forall2 (heard_of e) segments (transcript a) /\
              Forall (fun sg => Str.strip (text sg) = text sg) (transcript a))
        \/ (exists ex s1 ex2 s2,
              _fetch_youtube_transcript e video_id s = (Raise ex, s1) /\
              _transcribe_with_whisper e video_id s1 = (Raise ex2, s2) /\
              a = Acquisition [] "error" false (Some (exn_str ex2))) ) /\
      Forall (fun sg => original sg = None) (transcript a).
Proof.
  intros video_id s.
  pose proof (fetch_ends video_id s) as Hf.
  destruct (_fetch_youtube_transcript e video_id s) as [[found|ex] s1] eqn:E.
  - rewrite (get_transcript_primary_ok e _ _ _ _ E).
    destruct Hf as (raw & Hans & Hraw). eexists _, _. split; [reflexivity|]. split.
    + left. now exists found, s1, raw.
    + simpl. clear -Hraw. induction Hraw as [|r sg raw found (_ & _ & _ & Ho) _ IH];
        constructor; assumption.
  - rewrite (get_transcript_fallback e _ _ _ _ E).
    destruct (_transcribe_with_whisper e video_id s1) as [[heard|ex2] s2] eqn:Ew.
    + destruct (whisper_run_ok video_id s1 s2 heard Ew)
        as (audio_path & s3 & m & wa & segments & wb & Hd & Hm & Ht & ->).
      pose proof (format_output_heard segments) as Hheard.
      pose proof (heard_stripped _ _ Hheard) as Hshape.
      eexists _, _. split; [reflexivity|]. split.
      * right; left. exists ex, s1, audio_path, s3, m, wa, segments, wb.
        split; [reflexivity|]. split; [exact Hd|]. split; [exact Hm|].
        split; [exact Ht|]. split; [reflexivity|]. split; [exact Hheard|].
        simpl. eapply Forall_impl; [exact Hshape|]. now intros sg [H _].
      * simpl. eapply Forall_impl; [exact Hshape|]. now intros sg [_ H].
    + eexists _, _. split; [reflexivity|]. split; [|constructor].
      right; right. now exists ex, s1, ex2, s2.
Qed.

End OfficialTranscript.

Section DownloadAudio.

Import Str TranscriptService.

Local Open Scope nat_scope.

Context {X Model : Type}.
Variable e : env X Model.

(** What the validator returns is a token. *)
Lemma validated_token (v : string) (r : option string) :
  Main.extract_video_id v = Ok r -> exists t, r = Some t /\ is_token t.
Proof.
  rewrite extract_video_id_unfold.
  destruct (Re.search Main.url_pattern v) as [mt|] eqn:E.
  - apply search_url_Some in E as (pre & suf & tok & _ & Hg & (l & rest & _ & Ht & _) & _).
    intros [= <-]. now exists tok.
  - rewrite search_id.
    destruct (Re.match_at Main.id_pattern 0 v) as [mt|] eqn:E2; [|discriminate].
    apply match_at_id_Some in E2 as [Hb Hg]. intros [= <-].
    exists (take 11 v). split; [exact Hg|].
    destruct Hb as [[HL HA] | (t & [HL HA] & ->)].
    + split; [apply str_length_take; lia | now apply str_all_take].
    + rewrite <- HL, str_take_app_length. now split.
Qed.

(** A file name that starts with a token is no absolute path. *)
Lemma token_not_absolute (t suffix : string) :
  is_token t -> startswith (t +:+ suffix) "/" = false.
Proof.
  intros [HL HA]. destruct t as [|c t]; [discriminate|].
  simpl in HA. apply andb_prop in HA as [Hc _].
  unfold startswith. cbn [String.append strip_prefix].
  destruct (Ascii.eqb_spec "/" c) as [<-|]; [discriminate | reflexivity].
Qed.

Lemma path_join_token (dir t suffix : string) :
  is_token t ->
  path_join dir (t +:+ suffix) = dir +:+ t +:+ suffix \/
  path_join dir (t +:+ suffix) = dir +:+ "/" +:+ t +:+ suffix.
Proof.
  intros Ht. unfold path_join. rewrite (token_not_absolute t suffix Ht).
  destruct (String.eqb dir "" || endswith dir "/"); [now left | now right].
Qed.

(** [_download_audio] returns the path it looked for, and only when that
    path exists after the download. *)
Lemma download_audio_returns (video_id audio_path : string) (s s' : state X Model) :
  _download_audio e video_id s = (Ok audio_path, s') ->
  audio_path = path_join (temp_dir e) (video_id +:+ ".mp3") /\
  audio_path ∈ files (w s').
Proof.
  unfold _download_audio, bind, enter, lift, path_exists, ret, raise. cbv beta iota.
  fold (temp_dir e). cbn [w whisper_model_size whisper_model trace].
  destruct (makedirs e (temp_dir e) (w s)) as [[u|ex] w1]; [|discriminate].
  cbn [w whisper_model_size whisper_model trace].
  match goal with |- context [ydl_download e ?t ?u w1] =>
    destruct (ydl_download e t u w1) as [[u2|ex] w2]; [|discriminate] end.
  cbn [w whisper_model_size whisper_model trace].
  destruct (bool_decide _) eqn:Hin; [|discriminate].
  intros [= <- <-]. split; [reflexivity|]. now apply bool_decide_eq_true in Hin.
Qed.

(** X4.  The scratch file of a validated identifier lies directly in the
    scratch directory.  Whatever text the validator accepted, the
    identifier it returned is a token, so the file name [video_id.mp3] is
    no absolute path and holds no separator: when [_download_audio]
    returns, its path is the directory, a separator unless the directory
    ends with one (or is empty), and the file name; and that path exists. *)
Theorem download_audio_of_validated_id_stays_in_temp_dir :
  forall (v video_id audio_path : string) (s s' : state X Model),
    Main.extract_video_id v = Ok (Some video_id) ->
    _download_audio e video_id s = (Ok audio_path, s') ->
    is_token video_id /\
    (audio_path = temp_dir e +:+ video_id +:+ ".mp3" \/
     audio_path = temp_dir e +:+ "/" +:+ video_id +:+ ".mp3") /\
    audio_path ∈ files (w s').
Proof.
  intros v video_id audio_path s s' Hv Hd.
  apply validated_token in Hv as (t & [= <-] & Ht).
  apply download_audio_returns in Hd as [-> Hin].
  split; [exact Ht|]. split; [|exact Hin].
  now apply path_join_token.
Qed.

(** Without the validator the directory would not hold: a name that starts
    with a separator replaces it. *)
Example path_join_absolute_name :
  path_join "./temp_audio" ("/tmp/x" +:+ ".mp3") = "/tmp/x.mp3".
Proof. reflexivity. Qed.

End DownloadAudio.

Section TranscriptEndpoint.

Import TranscriptService.

Local Open Scope nat_scope.

Context {X Model : Type}.
Variable e : env X Model.

(** [get_transcript] always returns its dictionary. *)
Lemma get_transcript_returns (video_id : string) (s : state X Model) :
  exists a s',
    get_transcript e video_id s = (Ok a, s') /\
    (success a = true -> error a = None) /\
    (success a = false -> transcript a = [] /\ source a = "error" /\
                          exists msg, error a = Some msg).
Proof.
  destruct (_fetch_youtube_transcript e video_id s) as [[found|ex] s1] eqn:E.
  - rewrite (get_transcript_primary_ok e _ _ _ _ E). eexists _, _.
    split; [reflexivity|]. split; [reflexivity | discriminate].
  - rewrite (get_transcript_fallback e _ _ _ _ E).
    destruct (_transcribe_with_whisper e video_id s1) as [[heard|ex2] s2];
      eexists _, _; (split; [reflexivity|]); simpl;
      (split; [try reflexivity; discriminate|]); [discriminate | eauto].
Qed.

(** X9.  The endpoint of [/api/transcript] answers every validated request
    with its response model, never with an HTTP error: a failure of both
    methods is reported inside the response, with [success] false, no
    segments and the text of the exception as [error].  The response
    carries the identifier of the request and the fields of the answer of
    the service unchanged.  The first request builds the service with the
    model size of the environment ([base] when it names none); later
    requests use the service as it is, whatever the environment says. *)
Theorem transcript_endpoint_always_responds :
  forall (getenv : option string) (video_url : string) (created : bool) (s : state X Model),
    let s0 := snd (get_transcript_service getenv created s) in
    exists a s',
      get_transcript e video_url s0 = (Ok a, s') /\
      Main.TranscriptEndpoint.get_transcript e getenv video_url created s
      = (Main.Respond
           {| Main.TranscriptEndpoint.video_id := video_url;
              Main.TranscriptEndpoint.transcript := transcript a;
              Main.TranscriptEndpoint.source := source a;
              Main.TranscriptEndpoint.success := success a;
              Main.TranscriptEndpoint.error := error a |},
         true, s') /\
      (success a = true -> error a = None) /\
      (success a = false ->
       transcript a = [] /\ source a = "error" /\ exists msg, error a = Some msg) /\
      whisper_model_size s'
      = (if created then whisper_model_size s else default "base" getenv).
Proof.
  intros getenv video_url created s s0.
  destruct (get_transcript_returns video_url s0) as (a & s' & Hrun & Hok & Hfail).
  exists a, s'. split; [exact Hrun|].
  pose proof (get_transcript_size e video_url s0) as Hsz.
  rewrite Hrun in Hsz. simpl in Hsz.
  split; [|split; [exact Hok|split; [exact Hfail|]]].
  - unfold Main.TranscriptEndpoint.get_transcript.
    replace (get_transcript_service getenv created s) with (true, s0)
      by (unfold s0, get_transcript_service; now destruct created).
    now rewrite Hrun.
  - rewrite Hsz. unfold s0, get_transcript_service. now destruct created.
Qed.

End TranscriptEndpoint.

Section ServiceExamples.

Import TranscriptService.

Local Open Scope nat_scope.

Lemma download_audio_of_validated_id_stays_in_temp_dir_witness :
  is_token "abc12345678" /\
  ("./temp_audio/abc12345678.mp3" = temp_dir (sample_env false) +:+ "abc12345678" +:+ ".mp3" \/
   "./temp_audio/abc12345678.mp3"
   = temp_dir (sample_env false) +:+ "/" +:+ "abc12345678" +:+ ".mp3") /\
  "./temp_audio/abc12345678.mp3"
  ∈ files (w (snd (_download_audio (sample_env false) "abc12345678" fresh))).
Proof.
  refine (download_audio_of_validated_id_stays_in_temp_dir (sample_env false)
            "https://youtu.be/abc12345678" "abc12345678" "./temp_audio/abc12345678.mp3"
            fresh (snd (_download_audio (sample_env false) "abc12345678" fresh)) _ _);
    vm_compute; reflexivity.
Defined.

Lemma get_transcript_keeps_model_cache_witness :
  whisper_model_size (snd (get_transcript (sample_env false) "abc12345678" fresh)) = "base" /\
  whisper_model (snd (get_transcript (sample_env false) "abc12345678" loaded)) = Some tt /\
  exists m, whisper_model (snd (get_transcript (sample_env false) "abc12345678" fresh)) = Some m.
Proof.
  split; [|split].
  - exact (proj1 (get_transcript_keeps_model_cache (sample_env false) "abc12345678" fresh)).
  - exact (proj1 (proj2 (get_transcript_keeps_model_cache (sample_env false)
                           "abc12345678" loaded)) tt eq_refl).
  - refine (proj2 (proj2 (get_transcript_keeps_model_cache (sample_env false)
                            "abc12345678" fresh))
                  (Acquisition [Segment "hello" 0 (3 # 2) None] "whisper" true None) _ _);
      vm_compute; reflexivity.
Defined.

Lemma get_transcript_cached_model_skips_load_witness :
  get_transcript (with_load_model (sample_env false) failing_load) "abc12345678" loaded
  = get_transcript (sample_env false) "abc12345678" loaded.
Proof.
  exact (get_transcript_cached_model_skips_load (sample_env false) failing_load
           "abc12345678" loaded tt eq_refl).
Defined.

Lemma fetch_youtube_transcript_ends_witness :
  (Exn RuntimeError "Unable to obtain transcript via youtube_transcript_api" = fetch_failed \/
   Exn RuntimeError "Unable to obtain transcript via youtube_transcript_api"
   = Exn KeyError "'text'" \/
   Exn RuntimeError "Unable to obtain transcript via youtube_transcript_api"
   = Exn KeyError "'start'") /\
  (exists raw,
     answered official_env "abc12345678" raw /\
     Forall2 normal_of raw [Segment "hi" 0 0 None]) /\
  (_fetch_youtube_transcript official_env "abc12345678" fresh
   = (Ok (map normal [RawSegment (Some "hi") (Some 0%Q) None]),
      State (World ∅ tt) "base" None [EnterFetch "abc12345678"]) /\
   Forall2 normal_of [RawSegment (Some "hi") (Some 0%Q) None]
           (map normal [RawSegment (Some "hi") (Some 0%Q) None])).
Proof.
  split; [|split].
  - refine (proj1 (fetch_youtube_transcript_ends (sample_env false) "abc12345678" fresh)
                  _ (snd (_fetch_youtube_transcript (sample_env false) "abc12345678" fresh)) _).
    vm_compute; reflexivity.
  - refine (proj1 (proj2 (fetch_youtube_transcript_ends official_env "abc12345678" fresh))
                  _ (snd (_fetch_youtube_transcript official_env "abc12345678" fresh)) _).
    vm_compute; reflexivity.
  - refine (proj1 (proj2 (proj2 (fetch_youtube_transcript_ends official_env
                                   "abc12345678" fresh))
                         official_helper [RawSegment (Some "hi") (Some 0%Q) None]
                         (World ∅ tt) eq_refl eq_refl) _).
    repeat constructor; eexists; reflexivity.
Defined.

(** The endpoint in the world of the examples: both methods fail, and the
    response says so. *)
Example transcript_endpoint_reports_failure :
  fst (fst (Main.TranscriptEndpoint.get_transcript (sample_env true) (Some "tiny")
              "abc12345678" false fresh))
  = Main.Respond
      {| Main.TranscriptEndpoint.video_id := "abc12345678";
         Main.TranscriptEndpoint.transcript := [];
         Main.TranscriptEndpoint.source := "error";
         Main.TranscriptEndpoint.success := false;
         Main.TranscriptEndpoint.error := Some "ffmpeg was not found" |}.
Proof. vm_compute; reflexivity. Qed.

End ServiceExamples.


(** * [TranslationService]: single texts, pacing, the language table *)

Section TranslateText.

Import TranslationService.

Local Open Scope nat_scope.

Lemma translate_text_loop_bound (tr : text_translator) (text lang : string) (n : nat) :
  forall remaining attempt log,
    attempt + remaining = n ->
    exists new,
      snd (translate_text_loop tr text lang n remaining attempt log) = log ++ new /\
      length (filter is_text_call new) <= remaining /\
      length (filter is_retry_pause new) <= remaining - 1 /\
      length (filter is_new_client new) = length (filter is_retry_pause new) /\
      text_or_translation tr text lang
        (fst (translate_text_loop tr text lang n remaining attempt log)).
Proof.
  induction remaining as [|remaining IH]; intros attempt log Hn; cbn [translate_text_loop].
  - exists []. rewrite app_nil_r. simpl. repeat split; auto. now left.
  - destruct (tr log text lang) as [[t|]|ex] eqn:Etr.
    + exists [TranslateText text lang true].
      destruct (String.eqb_spec t "") as [->|Hne]; simpl;
        (split; [reflexivity|]); (split; [lia|]); (split; [lia|]);
        (split; [reflexivity|]); [now left | right; eauto].
    + exists [TranslateText text lang true]. simpl.
      split; [reflexivity|]. split; [lia|]. split; [lia|]. split; [reflexivity|]. now left.
    + destruct (Nat.ltb_spec attempt (n - 1)) as [Hlt|Hge].
      * destruct (IH (S attempt)
                    ((log ++ [TranslateText text lang false]) ++ [Sleep 1000%Z; NewTranslator])
                    ltac:(lia))
          as (new & Hlog & Hcalls & Hpauses & Hclients & Hout).
        exists ([TranslateText text lang false; Sleep 1000%Z; NewTranslator] ++ new).
        split; [rewrite Hlog; now rewrite <- !app_assoc|].
        rewrite !filter_app, !length_app. simpl.
        split; [lia|]. split; [lia|]. split; [lia | exact Hout].
      * exists [TranslateText text lang false]. simpl.
        split; [reflexivity|]. split; [lia|]. split; [lia|]. split; [reflexivity|]. now left.
Qed.

(** X10.  [translate_text] makes at most [max_retries] calls, sleeps a
    second and builds a fresh client only between two of them (so at most
    [max_retries - 1] times), and makes no call at all for a blank text.
    It never raises and never returns an empty text for a text that is not
    empty: what it returns is the input, or a translation that the
    translator gave for it and that is not empty. *)
Theorem translate_text_bounded_retries :
  forall (tr : text_translator) (text lang : string) (max_retries : nat) (log : list event),
    exists new,
      snd (translate_text tr text lang max_retries log) = log ++ new /\
      length (filter is_text_call new) <= max_retries /\
      length (filter is_retry_pause new) <= max_retries - 1 /\
      length (filter is_new_client new) = length (filter is_retry_pause new) /\
      (blank text = true -> new = []) /\
      text_or_translation tr text lang (fst (translate_text tr text lang max_retries log)).
Proof.
  intros tr text lang n log. unfold translate_text. fold (blank text).
  destruct (blank text) eqn:Hb.
  - exists []. rewrite app_nil_r. simpl. repeat split; auto; try lia. now left.
  - destruct (translate_text_loop_bound tr text lang n n 0 log eq_refl)
      as (new & Hlog & Hcalls & Hpauses & Hclients & Hout).
    exists new. repeat split; auto. discriminate.
Qed.

(** One failure costs one retry: the second call answers. *)
Example translate_text_retry_succeeds :
  translate_text failing_once_text_translator "hello" "vi" 3 []
  = ("<hello>",
     [ TranslateText "hello" "vi" false; Sleep 1000%Z; NewTranslator;
       TranslateText "hello" "vi" true ]).
Proof. vm_compute; reflexivity. Qed.

End TranslateText.

Section Pacing.

Import TranslationService.

Local Open Scope nat_scope.

Lemma paced_cons (call : event) (rest : list event) :
  paced (call :: rest) = call :: (if decide (rest = []) then [] else Sleep 500%Z :: paced rest).
Proof. destruct rest; reflexivity. Qed.

Lemma paced_counts (lang : string) (calls : list event) :
  Forall (call_to lang) calls ->
  translate_calls (paced calls) = calls /\
  length (filter is_pause (paced calls)) = length calls - 1.
Proof.
  induction 1 as [|call rest (texts & returned & ->) Hrest [IH1 IH2]]; [now split|].
  destruct rest as [|call2 rest]; [now split|].
  change (paced (Translate texts lang returned :: call2 :: rest))
    with (Translate texts lang returned :: Sleep 500%Z :: paced (call2 :: rest)).
  unfold translate_calls in *. split.
  - change (filter is_translate (Translate texts lang returned :: Sleep 500%Z :: paced (call2 :: rest)))
      with (Translate texts lang returned :: filter is_translate (paced (call2 :: rest))).
    now rewrite IH1.
  - change (filter is_pause (Translate texts lang returned :: Sleep 500%Z :: paced (call2 :: rest)))
      with (Sleep 500%Z :: filter is_pause (paced (call2 :: rest))).
    simpl length in *. lia.
Qed.

(** One turn that returns: one call, and a pause when a batch follows. *)
Lemma batch_step_trace (tr : translator) (transcript : list segment) (lang : string)
    (i : nat) (acc out : list segment) (log log' : list event) :
  i < length transcript ->
  batch_step tr transcript lang i acc log = (Ok out, log') ->
  exists call,
    call_to lang call /\
    log' = log ++ call :: (if Nat.ltb (i + batch_size) (length transcript)
                           then [Sleep 500%Z] else []).
Proof.
  intros Hi. unfold batch_step, translate_batch.
  set (batch := take batch_size (drop i transcript)).
  assert (Hne : map text batch <> []).
  { unfold batch, batch_size. destruct (drop i transcript) eqn:E; [|discriminate].
    apply (f_equal length) in E. rewrite length_drop in E. simpl in E. lia. }
  destruct (map text batch) as [|t0 ts] eqn:Etexts; [congruence|]. rewrite <- Etexts.
  destruct (tr log (map text batch) lang) as [results|ex];
    match goal with |- context [append_batch ?b ?j ?tt ?a] =>
      destruct (append_batch b j tt a); [|discriminate] end;
    destruct (Nat.ltb (i + batch_size) (length transcript));
    intros [= <- <-]; eexists; (split; [eexists _, _; reflexivity|]);
    now rewrite <- ?app_assoc.
Qed.

Lemma batch_loop_trace (tr : translator) (transcript : list segment) (lang : string) :
  forall (count first : nat) (acc out : list segment) (log log' : list event),
    (count <> 0 -> (first + count - 1) * batch_size < length transcript) ->
    length transcript <= (first + count) * batch_size ->
    batch_loop tr transcript lang (map (fun k => k * batch_size) (seq first count)) acc log
    = (Ok out, log') ->
    exists calls,
      log' = log ++ paced calls /\ length calls = count /\ Forall (call_to lang) calls.
Proof.
  induction count as [|count IH]; intros first acc out log log' Hlast Hend;
    cbn [seq map batch_loop].
  - intros [= <- <-]. exists []. rewrite app_nil_r. now split.
  - destruct (batch_step tr transcript lang (first * batch_size) acc log)
      as [[acc1|ex] log1] eqn:Hstep; [|discriminate].
    assert (Hfirst : first * batch_size < length transcript).
    { specialize (Hlast ltac:(discriminate)). unfold batch_size in *. lia. }
    apply (batch_step_trace _ _ _ _ _ _ _ _ Hfirst) in Hstep as (call & Hcall & ->).
    intros Hloop. apply IH in Hloop as (calls & -> & Hlen & Hcalls).
    + exists (call :: calls). rewrite paced_cons.
      split; [|split; [simpl; now rewrite Hlen | now constructor]].
      rewrite <- app_assoc. f_equal. simpl. f_equal.
      destruct (Nat.ltb_spec (first * batch_size + batch_size) (length transcript))
        as [Hmore|Hdone].
      * destruct calls as [|c calls]; [|reflexivity].
        simpl in Hlen. subst count. unfold batch_size in *. lia.
      * destruct calls as [|c calls]; [reflexivity|].
        simpl in Hlen. subst count. specialize (Hlast ltac:(discriminate)).
        unfold batch_size in *. lia.
    + intros Hcount. specialize (Hlast ltac:(discriminate)).
      replace (S first + count - 1) with (first + S count - 1) by lia. exact Hlast.
    + now replace (S first + count) with (first + S count) by lia.
Qed.

Lemma batch_count_bounds (n : nat) :
  (batch_count n <> 0 -> (batch_count n - 1) * batch_size < n) /\
  n <= batch_count n * batch_size.
Proof.
  unfold batch_count, batch_size. replace (n + 15 - 1) with (n + 14) by lia.
  pose proof (Nat.div_mod_eq (n + 14) 15) as Hd.
  pose proof (Nat.mod_upper_bound (n + 14) 15 ltac:(lia)) as Hm.
  split; [intros Hk|]; lia.
Qed.

(** X11.  A run of [translate_transcript] that returns has made one bulk
    call per batch of 15 segments -- the number of segments divided by 15,
    rounded up -- in one client session, and has slept half a second
    between two consecutive calls: never before the first, never after the
    last.  Nothing else happened. *)
Theorem translate_transcript_pacing :
  forall (tr : translator) (transcript : list segment) (lang : string)
         (log log' : list event) (out : list segment),
    translate_transcript tr transcript lang log = (Ok out, log') ->
    exists calls,
      log' = log ++ [NewTranslator] ++ paced calls ++ [CloseTranslator] /\
      Forall (call_to lang) calls /\
      length calls = batch_count (length transcript) /\
      translate_calls (paced calls) = calls /\
      length (filter is_pause (paced calls)) = length calls - 1.
Proof.
  intros tr transcript lang log log' out. unfold translate_transcript.
  destruct (batch_loop _ _ _ _ _ _) as [r log1] eqn:Hloop. intros [= -> <-].
  destruct (batch_count_bounds (length transcript)) as [Hlast Hend].
  unfold range in Hloop.
  change ((length transcript + batch_size - 1) / batch_size)
    with (batch_count (length transcript)) in Hloop.
  apply (batch_loop_trace tr transcript lang (batch_count (length transcript)) 0) in Hloop
    as (calls & -> & Hlen & Hcalls); [|exact Hlast|exact Hend].
  exists calls. destruct (paced_counts lang calls Hcalls) as [Hc Hp].
  split; [now rewrite <- !app_assoc|]. auto.
Qed.

Lemma translate_transcript_pacing_witness :
  exists calls,
    snd (translate_transcript sample_translator (repeat hello 16) "vi" [])
    = [] ++ [NewTranslator] ++ paced calls ++ [CloseTranslator] /\
    Forall (call_to "vi") calls /\
    length calls = batch_count (length (repeat hello 16)) /\
    translate_calls (paced calls) = calls /\
    length (filter is_pause (paced calls)) = length calls - 1.
Proof.
  refine (translate_transcript_pacing sample_translator (repeat hello 16) "vi" []
            (snd (translate_transcript sample_translator (repeat hello 16) "vi" [])) _ _).
  vm_compute; reflexivity.
Defined.

(** Sixteen segments: two calls, and one pause between them. *)
Example translate_transcript_sixteen_segments :
  map is_translate (snd (translate_transcript sample_translator (repeat hello 16) "vi" []))
  = [false; true; false; true; false] /\
  map is_pause (snd (translate_transcript sample_translator (repeat hello 16) "vi" []))
  = [false; false; true; false; false].
Proof. split; vm_compute; reflexivity. Qed.

End Pacing.

Section TranslateEndpoint.

Import TranslationService.

Local Open Scope nat_scope.

(** X12.  The endpoint of [/api/translate] turns an empty transcript down
    with status 500 before it touches the service: no client is built and
    nothing is sent.  For a transcript that is not empty and a translator
    that answers with one translation per text it responds with [success]
    set and a transcript that keeps the frame of the request.  Every error
    it reports has status 500: the empty transcript, or a translation that
    is missing. *)
Theorem translate_endpoint_answers :
  (forall (tr : translator) (lang : string) (created : bool) (log : list event),
     Main.translate_transcript tr
       {| Main.transcript := []; Main.target_lang := lang |} created log
     = (Main.HTTPException 500 "Transcript cannot be empty", created, log)) /\
  (forall (tr : translator) (request : Main.TranslationRequest) (created : bool)
          (log : list event),
     Main.transcript request <> [] ->
     well_sized tr ->
     exists out log',
       Main.translate_transcript tr request created log
       = (Main.Respond {| Main.translated_transcript := out; Main.success := true |},
          true, log') /\
       same_frame out (Main.transcript request)) /\
  (forall (tr : translator) (request : Main.TranslationRequest) (created created' : bool)
          (log log' : list event) (status_code : Z) (detail : string),
     Main.translate_transcript tr request created log
     = (Main.HTTPException status_code detail, created', log') ->
     status_code = 500%Z /\
     (Main.transcript request = [] /\ detail = "Transcript cannot be empty" \/
      Main.transcript request <> [] /\ detail = "list index out of range")).
Proof.
  split; [reflexivity|]. split.
  - intros tr [transcript lang] created log Hne Hws. simpl in Hne.
    unfold Main.translate_transcript, Main.get_translation_service. cbn [Main.transcript Main.target_lang].
    destruct transcript as [|sg rest]; [congruence|].
    set (log0 := if created then log else log ++ [NewTranslator]).
    replace (if created then (true, log) else (true, log ++ [NewTranslator]))
      with (true, log0) by (unfold log0; now destruct created).
    destruct (translate_transcript_rows tr (sg :: rest) lang log0 Hws)
      as (rows & new & Hrun & _).
    pose proof (translate_transcript_returns_frame _ _ _ _ _ _ Hrun) as Hframe.
    rewrite Hrun. eexists _, _. split; [reflexivity | exact Hframe].
  - intros tr [transcript lang] created created' log log' status_code detail.
    unfold Main.translate_transcript, Main.get_translation_service. cbn [Main.transcript Main.target_lang].
    destruct transcript as [|sg rest].
    + intros [= <- <- _ _]. split; [reflexivity|]. now left.
    + set (log0 := if created then log else log ++ [NewTranslator]).
      replace (if created then (true, log) else (true, log ++ [NewTranslator]))
        with (true, log0) by (unfold log0; now destruct created).
      unfold translate_transcript.
      destruct (batch_loop _ _ _ _ _ _) as [[out|ex] log1] eqn:Hloop; [discriminate|].
      apply batch_loop_raises in Hloop as [-> _].
      intros [= <- <- _ _]. split; [reflexivity|]. right. split; [discriminate | reflexivity].
Qed.

Lemma translate_endpoint_answers_witness :
  exists out log',
    Main.translate_transcript sample_translator
      {| Main.transcript := [hello]; Main.target_lang := "vi" |} false []
    = (Main.Respond {| Main.translated_transcript := out; Main.success := true |},
       true, log') /\
    same_frame out [hello].
Proof.
  exact (proj1 (proj2 translate_endpoint_answers) sample_translator
           {| Main.transcript := [hello]; Main.target_lang := "vi" |} false []
           ltac:(discriminate) sample_translator_well_sized).
Defined.

End TranslateEndpoint.

Section Languages.

Import TranslationService.

Local Open Scope nat_scope.

Lemma lower_char_idem (c : ascii) : Str.lower_char (Str.lower_char c) = Str.lower_char c.
Proof. destruct c as [[] [] [] [] [] [] [] []]; vm_compute; reflexivity. Qed.

Lemma lower_idem (s : string) : Str.lower (Str.lower s) = Str.lower s.
Proof.
  induction s as [|c s IH]; [reflexivity|].
  cbn [Str.lower]. now rewrite lower_char_idem, IH.
Qed.

(** Every code of the table is in lower case, and no language is named
    [Unknown]. *)
Lemma languages_tidy (code name : string) :
  LANGUAGES !! code = Some name -> Str.lower code = code /\ name <> "Unknown".
Proof.
  intros H. unfold LANGUAGES in H. apply elem_of_list_to_map_2 in H.
  apply list_elem_of_In in H.
  match type of H with In _ ?rows =>
    assert (Hall : forallb tidy_row rows = true) by (vm_compute; reflexivity)
  end.
  rewrite forallb_forall in Hall. specialize (Hall _ H).
  unfold tidy_row in Hall. simpl in Hall.
  apply andb_prop in Hall as [Hl Hn].
  apply String.eqb_eq in Hl. split; [exact Hl|].
  intros ->. discriminate.
Qed.

Lemma validate_language_spec (code : string) :
  validate_language code = true <-> exists name, LANGUAGES !! Str.lower code = Some name.
Proof.
  unfold validate_language. rewrite bool_decide_eq_true. reflexivity.
Qed.

(** X13.  [validate_language] ignores the letter case of the code, and
    accepts exactly the codes that are keys of the table once in lower
    case.  Every key of the table that [get_supported_languages] returns
    is in lower case, so every listed code is accepted, however it is
    capitalised. *)
Theorem validate_language_accepts_listed_codes_in_any_case :
  (forall code, validate_language (Str.lower code) = validate_language code) /\
  (forall code,
     validate_language code = true <->
     exists name, get_supported_languages !! Str.lower code = Some name) /\
  (forall listed name,
     get_supported_languages !! listed = Some name ->
     Str.lower listed = listed /\
     forall code, Str.lower code = Str.lower listed -> validate_language code = true).
Proof.
  split; [|split].
  - intros code. unfold validate_language. now rewrite lower_idem.
  - apply validate_language_spec.
  - intros listed name Hin. unfold get_supported_languages in Hin.
    destruct (languages_tidy listed name Hin) as [Hlow _].
    split; [exact Hlow|]. intros code Hcode.
    apply validate_language_spec. exists name. congruence.
Qed.

Lemma validate_language_accepts_listed_codes_in_any_case_witness :
  Str.lower "zh-cn" = "zh-cn" /\ validate_language "Zh-CN" = true.
Proof.
  pose proof (proj2 (proj2 validate_language_accepts_listed_codes_in_any_case)
                "zh-cn" "chinese (simplified)" ltac:(vm_compute; reflexivity)) as [Hl Hc].
  split; [exact Hl | apply Hc; vm_compute; reflexivity].
Defined.

(** X14.  [detect_language] is decided by three cases.  For a blank text
    it answers [None], whatever the detector would say; when the detector
    raises it answers [None]; and when the text is not blank and the
    detector answers, it returns the code and the confidence of the
    detector with the name the table has for that code, spelled as the
    detector spells it: a code that is a key has its name, which is never
    [Unknown], and is a code [validate_language] accepts; any other code
    is named [Unknown]. *)
Theorem detect_language_names_by_the_table :
  forall (C : Type) (detect : string -> result (detected C)) (text : string),
    (blank text = true -> detect_language detect text = None) /\
    (forall ex, detect text = Raise ex -> detect_language detect text = None) /\
    (forall answer,
       blank text = false ->
       detect text = Ok answer ->
       exists name,
         detect_language detect text
         = Some (Detection (detected_lang answer) (detected_confidence answer) name) /\
         ((LANGUAGES !! detected_lang answer = Some name /\
           name <> "Unknown" /\
           validate_language (detected_lang answer) = true)
          \/ (LANGUAGES !! detected_lang answer = None /\ name = "Unknown"))).
Proof.
  intros C detect text. unfold detect_language. fold (blank text).
  split; [now intros ->|]. split.
  - intros ex ->. now destruct (blank text).
  - intros [code conf] Hb Hd. rewrite Hb, Hd.
    cbn [detected_lang detected_confidence].
    destruct (LANGUAGES !! code) as [name|] eqn:E.
    + exists name. split; [reflexivity|]. left.
      destruct (languages_tidy code name E) as [Hlow Hname].
      split; [reflexivity|]. split; [exact Hname|].
      apply validate_language_spec. exists name. congruence.
    + exists "Unknown". split; [reflexivity|]. right. now split.
Qed.

Lemma detect_language_names_by_the_table_witness :
  exists name,
    detect_language (fun _ => Ok (Detected "en" 1%Q)) "hello"
    = Some (Detection "en" 1%Q name) /\
    ((LANGUAGES !! "en" = Some name /\ name <> "Unknown" /\ validate_language "en" = true)
     \/ (LANGUAGES !! "en" = None /\ name = "Unknown")).
Proof.
  exact (proj2 (proj2 (detect_language_names_by_the_table Q
                         (fun _ => Ok (Detected "en" 1%Q)) "hello"))
           (Detected "en" 1%Q) eq_refl eq_refl).
Defined.

(** A code spelled with capitals is accepted by [validate_language] and
    still named [Unknown] by [detect_language]. *)
Example detect_language_capitals :
  validate_language "zh-CN" = true /\
  detect_language (fun _ => Ok (Detected "zh-CN" 1%Q)) "ni hao"
  = Some (Detection "zh-CN" 1%Q "Unknown").
Proof. split; vm_compute; reflexivity. Qed.

End Languages.


(** * [AIService]: summaries, the shape of an analysis, timestamps *)

Section Summary.

Import Str AIService.

Local Open Scope nat_scope.

(** X15.  [generate_summary] sends one prompt, made of the texts of the
    segments joined by single spaces (so two transcripts with the same
    texts get the same summary, whatever their timestamps), and returns the
    answer trimmed of the white space around it.  It has no fallback: an
    exception of the client is raised again as it is, and a response
    without text raises an [AttributeError]. *)
Theorem generate_summary_returns_trimmed_answer :
  forall (e : env) (transcript : list segment),
    let prompt := summary_prompt (join " " (map text transcript)) in
    (forall summary,
       generate_summary e transcript = Ok summary ->
       strip summary = summary /\
       exists answer,
         generate_content e model_name prompt = Ok (Some answer) /\
         summary = strip answer) /\
    (forall ex,
       generate_summary e transcript = Raise ex ->
       generate_content e model_name prompt = Raise ex \/
       (generate_content e model_name prompt = Ok None /\ ex = no_text)) /\
    (forall other,
       map text other = map text transcript ->
       generate_summary e other = generate_summary e transcript).
Proof.
  intros e transcript prompt. unfold generate_summary, _combine_transcript.
  fold prompt. split; [|split].
  - intros summary.
    destruct (generate_content e model_name prompt) as [[answer|]|ex]; try discriminate.
    intros [= <-]. split; [apply strip_idem | eauto].
  - intros ex.
    destruct (generate_content e model_name prompt) as [[answer|]|ex0]; try discriminate.
    + intros [= <-]. right. now split.
    + intros [= <-]. now left.
  - intros other ->. reflexivity.
Qed.

Lemma generate_summary_returns_trimmed_answer_witness :
  strip "A summary." = "A summary." /\
  exists answer,
    generate_content (Env (answering "  A summary.  ") sample_loads) model_name
      (summary_prompt (join " " (map text [hello; again]))) = Ok (Some answer) /\
    "A summary." = strip answer.
Proof.
  refine (proj1 (generate_summary_returns_trimmed_answer
                   (Env (answering "  A summary.  ") sample_loads) [hello; again])
                "A summary." _).
  vm_compute; reflexivity.
Defined.

End Summary.

Section AnalysisShape.

Import Str AIService.

Local Open Scope nat_scope.

Lemma len_sized (v : json) (n : nat) : Py.len v = Ok n -> sized v.
Proof. destruct v; simpl; intros H; try discriminate; exact I. Qed.

Lemma validate_structure_ok (analysis a : json) :
  validate_structure analysis = Ok a -> a = analysis /\ analysis_shaped analysis.
Proof.
  unfold validate_structure.
  destruct (Py.contains "chapters" analysis) as [[|]|]; try discriminate.
  destruct (Py.contains "key_notes" analysis) as [[|]|]; try discriminate.
  destruct (Py.getitem analysis "chapters") as [chapters|] eqn:E1; try discriminate.
  destruct (Py.len chapters) as [n1|] eqn:L1; try discriminate.
  destruct (Py.getitem analysis "key_notes") as [key_notes|] eqn:E2; try discriminate.
  destruct (Py.len key_notes) as [n2|] eqn:L2; try discriminate.
  intros [= <-]. split; [reflexivity|].
  destruct analysis as [| | | | |items]; try discriminate.
  exists items, chapters, key_notes.
  split; [reflexivity|]. split; [exact E1|]. split; [exact E2|].
  split; eapply len_sized; eassumption.
Qed.

Lemma fallback_shaped : analysis_shaped fallback.
Proof.
  unfold analysis_shaped, fallback. eexists _, _, _.
  split; [reflexivity|]. split; [reflexivity|]. split; [reflexivity|]. split; exact I.
Qed.

(** X16.  Whatever [generate_analysis] returns is a dictionary that has
    both [chapters] and [key_notes], each with a value that has a length:
    the check of the structure and the line that logs the two lengths let
    nothing else through.  So the endpoint can read both keys of the
    result, and a result is never the text, the list or the number that
    [json.loads] may well produce. *)
Theorem generate_analysis_result_is_shaped :
  forall (e : env) (transcript : list segment) (a : json),
    generate_analysis e transcript = Ok a ->
    analysis_shaped a /\
    (a = fallback \/
     exists answer,
       generate_content e model_name
         (analysis_prompt (_combine_transcript_with_timestamps transcript))
       = Ok (Some answer) /\
       json_loads e (cleaned answer) = Ok a).
Proof.
  intros e transcript a. unfold generate_analysis, analysis_try.
  destruct (generate_content e model_name _) as [[answer|]|ex] eqn:Hgen.
  - fold (cleaned answer).
    destruct (json_loads e (cleaned answer)) as [analysis|ex] eqn:Hloads.
    + destruct (validate_structure analysis) as [a'|ex] eqn:Hv.
      * apply validate_structure_ok in Hv as [-> Hshape]. intros [= <-].
        split; [exact Hshape|]. right. eauto.
      * destruct (exn_cls ex); try discriminate.
        intros [= <-]. split; [apply fallback_shaped | now left].
    + destruct (exn_cls ex); try discriminate.
      intros [= <-]. split; [apply fallback_shaped | now left].
  - discriminate.
  - destruct (exn_cls ex); discriminate.
Qed.

Lemma generate_analysis_result_is_shaped_witness :
  analysis_shaped empty_analysis /\
  (empty_analysis = fallback \/
   exists answer,
     generate_content (Env (answering empty_analysis_text) sample_loads) model_name
       (analysis_prompt (_combine_transcript_with_timestamps [hello]))
     = Ok (Some answer) /\
     json_loads (Env (answering empty_analysis_text) sample_loads) (cleaned answer)
     = Ok empty_analysis).
Proof.
  refine (generate_analysis_result_is_shaped
            (Env (answering empty_analysis_text) sample_loads) [hello] empty_analysis _).
  vm_compute; reflexivity.
Defined.

(** A text that parses to a string holding both words passes the two
    membership tests, and is stopped by the line that logs the lengths. *)
Example generate_analysis_rejects_a_string :
  validate_structure (JStr "chapters and key_notes")
  = Raise (Exn TypeError "string indices must be integers, not 'str'").
Proof. vm_compute; reflexivity. Qed.

End AnalysisShape.

Section SummaryEndpoint.

Import Str AIService.

Local Open Scope nat_scope.

(** X17.  The endpoint of [/api/summary].  An empty transcript is turned
    down before the service is looked up: status 500, and the module
    variable is left as it was.  Without a service and without an API key
    in the environment (or with an empty one) the answer is status 500
    with the text of [get_ai_service], and no service is kept, so a later
    request reads the environment again.  Once a service is kept, the
    environment and the client factory are not consulted any more.  Every
    response carries [success] set and a summary without white space
    around it, and leaves a service kept; every error has status 500. *)
Theorem summary_endpoint_answers :
  forall (getenv : option string) (genai_Client : string -> result client)
         (loads : string -> result json) (transcript : list segment)
         (_ai_service : option env),
    let run := Main.SummaryEndpoint.generate_summary getenv genai_Client loads
                 transcript _ai_service in
    (transcript = [] ->
     run = (Main.HTTPException 500 "Transcript cannot be empty", _ai_service)) /\
    (transcript <> [] -> _ai_service = None -> no_key getenv ->
     run = (Main.HTTPException 500 "GEMINI_API_KEY not found in environment variables",
            None)) /\
    (forall service getenv' genai_Client' loads',
       _ai_service = Some service ->
       snd run = Some service /\
       run = Main.SummaryEndpoint.generate_summary getenv' genai_Client' loads'
               transcript _ai_service) /\
    (forall response,
       fst run = Main.Respond response ->
       Main.SummaryEndpoint.success response = true /\
       strip (Main.SummaryEndpoint.summary response) = Main.SummaryEndpoint.summary response /\
       transcript <> [] /\
       exists service,
         snd run = Some service /\
         generate_summary service transcript = Ok (Main.SummaryEndpoint.summary response)) /\
    (forall status_code detail,
       fst run = Main.HTTPException status_code detail -> status_code = 500%Z).
Proof.
  intros getenv genai_Client loads transcript _ai_service run.
  unfold Main.SummaryEndpoint.generate_summary in run.
  split; [|split; [|split; [|split]]].
  - intros ->. reflexivity.
  - intros Hne -> Hkey. subst run. destruct transcript as [|sg rest]; [congruence|].
    unfold get_ai_service. destruct Hkey as [-> | ->]; reflexivity.
  - intros service getenv' genai_Client' loads' ->. subst run.
    unfold Main.SummaryEndpoint.generate_summary.
    destruct transcript as [|sg rest]; [now split|].
    unfold get_ai_service.
    destruct (generate_summary service (sg :: rest)); now split.
  - intros response. subst run. destruct transcript as [|sg rest]; [discriminate|].
    destruct (get_ai_service getenv genai_Client loads _ai_service)
      as [[service|ex] kept] eqn:Hget; [|discriminate].
    assert (Hkept : kept = Some service).
    { unfold get_ai_service in Hget. destruct _ai_service as [svc|].
      - now injection Hget as <- <-.
      - destruct getenv as [key|]; [|discriminate].
        destruct (String.eqb key ""); [discriminate|].
        destruct (genai_Client key); [|discriminate].
        now injection Hget as <- <-. }
    destruct (generate_summary service (sg :: rest)) as [summary|ex] eqn:Hsum;
      [|discriminate].
    cbn [fst snd]. intros [= <-]. cbn [Main.SummaryEndpoint.success Main.SummaryEndpoint.summary].
    split; [reflexivity|]. split.
    + unfold generate_summary in Hsum.
      destruct (generate_content service model_name _) as [[answer|]|]; try discriminate.
      injection Hsum as <-. apply strip_idem.
    + split; [discriminate|]. exists service. now split.
  - intros status_code detail. subst run. destruct transcript as [|sg rest].
    + now intros [= <- _].
    + destruct (get_ai_service getenv genai_Client loads _ai_service) as [[service|ex] kept].
      * destruct (generate_summary service (sg :: rest)); [discriminate|].
        now intros [= <- _].
      * now intros [= <- _].
Qed.

Lemma summary_endpoint_answers_witness :
  Main.SummaryEndpoint.generate_summary (Some "") sample_client sample_loads [hello] None
  = (Main.HTTPException 500 "GEMINI_API_KEY not found in environment variables", None).
Proof.
  exact (proj1 (proj2 (summary_endpoint_answers (Some "") sample_client sample_loads
                         [hello] None))
           ltac:(discriminate) eq_refl (or_intror eq_refl)).
Defined.

(** With a key in the environment the first request builds the service and
    answers; the service is kept. *)
Example summary_endpoint_first_request :
  fst (Main.SummaryEndpoint.generate_summary (Some "k") sample_client sample_loads
         [hello] None)
  = Main.Respond {| Main.SummaryEndpoint.summary := "A summary.";
                    Main.SummaryEndpoint.success := true |}.
Proof. vm_compute; reflexivity. Qed.

End SummaryEndpoint.

Section TimestampRoundTrip.

Import Str AIService.

Lemma string_of_uint_digits (d : Decimal.uint) :
  all is_digit (NilEmpty.string_of_uint d) = true.
Proof. induction d; simpl; auto. Qed.

Lemma of_int_digits (n : Z) : 0 <= n -> all is_digit (of_int n) = true.
Proof.
  intros Hn. unfold of_int. destruct n as [|p|p]; [reflexivity| |lia].
  simpl. unfold NilZero.string_of_uint.
  destruct (Pos.to_uint p); try reflexivity; apply string_of_uint_digits.
Qed.

Lemma of_int_inj (a b : Z) : of_int a = of_int b -> a = b.
Proof.
  intros H. pose proof (of_int_reads_back a) as Ha. rewrite H, of_int_reads_back in Ha.
  now injection Ha.
Qed.

(** Two numerals followed by a colon and equal as a whole are equal part
    by part. *)
Lemma colon_splits (a b r1 r2 : string) :
  all is_digit a = true -> all is_digit b = true ->
  a +:+ ":" +:+ r1 = b +:+ ":" +:+ r2 -> a = b /\ r1 = r2.
Proof.
  revert b. induction a as [|c a IH]; intros [|d b] Ha Hb; cbn [String.append]; intros H.
  - now injection H.
  - injection H as <- _. simpl in Hb. discriminate.
  - injection H as -> _. simpl in Ha. discriminate.
  - injection H as -> H. simpl in Ha, Hb.
    apply andb_prop in Ha as [_ Ha]. apply andb_prop in Hb as [_ Hb].
    destruct (IH b Ha Hb H) as [-> ->]. now split.
Qed.

Lemma two_digits_inj (m n : Z) :
  0 <= m < 100 -> 0 <= n < 100 -> two_digits m = two_digits n -> m = n.
Proof.
  intros Hm Hn H. unfold two_digits, digit, chr in H. injection H as H1 H2.
  assert (Hq : 0 <= m / 10 < 10 /\ 0 <= n / 10 < 10).
  { split; (split; [apply Z.div_pos; lia | apply Z.div_lt_upper_bound; lia]). }
  assert (Hr : 0 <= m mod 10 < 10 /\ 0 <= n mod 10 < 10).
  { split; apply Z.mod_pos_bound; lia. }
  apply (f_equal nat_of_ascii) in H1, H2.
  rewrite !nat_ascii_embedding in H1, H2 by lia.
  pose proof (Z.div_mod m 10 ltac:(lia)). pose proof (Z.div_mod n 10 ltac:(lia)). lia.
Qed.

Lemma two_digits_colon (m1 c1 m2 c2 : Z) :
  two_digits m1 +:+ ":" +:+ two_digits c1 = two_digits m2 +:+ ":" +:+ two_digits c2 ->
  two_digits m1 = two_digits m2 /\ two_digits c1 = two_digits c2.
Proof.
  unfold two_digits. cbn [String.append]. intros [= H1 H2 H3 H4]. split; congruence.
Qed.

Lemma clock_bounds (s : Z) :
  0 <= s ->
  let '(hours, minutes, secs) := clock s in
  0 <= hours /\ 0 <= minutes < 60 /\ 0 <= secs < 60 /\
  s = 3600 * hours + 60 * minutes + secs.
Proof.
  intros Hs. unfold clock.
  pose proof (Z.mod_pos_bound s 3600 ltac:(lia)).
  pose proof (Z.div_mod s 3600 ltac:(lia)).
  pose proof (Z.div_mod (s mod 3600) 60 ltac:(lia)).
  assert ((s mod 3600) mod 60 = s mod 60) by (apply Z.mod_mod_divide; exists 60; lia).
  split; [apply Z.div_pos; lia|].
  split; [split; [apply Z.div_pos; lia | apply Z.div_lt_upper_bound; lia]|].
  split; [apply Z.mod_pos_bound; lia | lia].
Qed.

Lemma format_timestamp_clock (seconds : Q) :
  0 <= int_of_float seconds ->
  let '(hours, minutes, secs) := clock (int_of_float seconds) in
  _format_timestamp seconds =
  if 0 <? hours
  then of_int hours +:+ ":" +:+ two_digits minutes +:+ ":" +:+ two_digits secs
  else of_int minutes +:+ ":" +:+ two_digits secs.
Proof.
  intros Hs. pose proof (clock_bounds _ Hs) as Hc. unfold clock in *.
  unfold _format_timestamp. cbv zeta.
  rewrite !format_02d_two_digits by lia. reflexivity.
Qed.

(** X18.  Timestamps can be read back.  For two numbers of seconds that are
    not negative, [_format_timestamp] gives the same text exactly when
    their whole parts are equal: the text determines hours, minutes and
    seconds, and the long and the short form are never confused. *)
Theorem format_timestamp_injective :
  forall x y : Q,
    (0 <= x)%Q -> (0 <= y)%Q ->
    (_format_timestamp x = _format_timestamp y <-> int_of_float x = int_of_float y).
Proof.
  intros x y Hx Hy.
  split; [|intros H; unfold _format_timestamp; now rewrite H].
  destruct (int_of_float_floor x Hx) as [Hsx _].
  destruct (int_of_float_floor y Hy) as [Hsy _].
  pose proof (format_timestamp_clock x Hsx) as Fx.
  pose proof (format_timestamp_clock y Hsy) as Fy.
  pose proof (clock_bounds _ Hsx) as Bx. pose proof (clock_bounds _ Hsy) as By.
  unfold clock in *.
  set (h1 := int_of_float x / 3600) in *. set (m1 := (int_of_float x mod 3600) / 60) in *.
  set (c1 := int_of_float x mod 60) in *.
  set (h2 := int_of_float y / 3600) in *. set (m2 := (int_of_float y mod 3600) / 60) in *.
  set (c2 := int_of_float y mod 60) in *.
  rewrite Fx, Fy. clear Fx Fy.
  destruct Bx as (Hh1 & Hm1 & Hc1 & ->). destruct By as (Hh2 & Hm2 & Hc2 & ->).
  assert (D : forall n, 0 <= n -> all is_digit (of_int n) = true) by exact of_int_digits.
  destruct (Z.ltb_spec 0 h1) as [L1|L1]; destruct (Z.ltb_spec 0 h2) as [L2|L2]; intros E.
  - apply colon_splits in E as [Eh E]; [|apply D; lia|apply D; lia].
    apply of_int_inj in Eh.
    apply two_digits_colon in E as [Em Ec].
    apply two_digits_inj in Em; [|lia|lia]. apply two_digits_inj in Ec; [|lia|lia]. lia.
  - apply colon_splits in E as [_ E]; [|apply D; lia|apply D; lia].
    apply (f_equal String.length) in E. discriminate E.
  - apply colon_splits in E as [_ E]; [|apply D; lia|apply D; lia].
    apply (f_equal String.length) in E. discriminate E.
  - apply colon_splits in E as [Em E]; [|apply D; lia|apply D; lia].
    apply of_int_inj in Em. apply two_digits_inj in E; [|lia|lia]. lia.
Qed.

(** Below zero the whole part is split by floor division, and texts
    collide: one second before zero reads like 3599 seconds. *)
Example format_timestamp_negative :
  _format_timestamp (-1) = "59:59" /\ _format_timestamp 3599 = "59:59".
Proof. split; vm_compute; reflexivity. Qed.

Lemma format_timestamp_injective_witness :
  _format_timestamp 65 = _format_timestamp (131 # 2) <->
  int_of_float 65 = int_of_float (131 # 2).
Proof.
  exact (format_timestamp_injective 65 (131 # 2) ltac:(discriminate) ltac:(discriminate)).
Defined.

End TimestampRoundTrip.

